(** * GPclust / OMGP.py : overlapping mixture of Gaussian processes

    A shallow embedding of [src/GPclust/OMGP.py].  numpy's float64 numbers
    are idealised as exact real numbers; an operation on which numpy would
    leave the finite numbers (a division by zero, a logarithm of a
    non-positive number) ends the modelled run with [NonFinite].

    Arrays carry their shape, as numpy's do.  Methods of [OMGP] are
    computations over a world made of the model object and of a log of the
    divisions, logarithms and library calls performed so far. *)

From Stdlib Require Import Reals Lra Lia List Arith ZArith Bool.
Import ListNotations.

Set Implicit Arguments.
Open Scope R_scope.

(** ** Outcomes *)

Inductive exn : Type :=
| IndexError
| ValueError
| LinAlgError
| HierarchyError
| NonFinite.

Inductive result (A : Type) : Type :=
| Ok (a : A)
| Err (e : exn).

Arguments Ok {A} a.
Arguments Err {A} e.

Definition rbind {A B} (r : result A) (f : A -> result B) : result B :=
  match r with
  | Ok a => f a
  | Err e => Err e
  end.

(** ** numpy arrays *)

Definition Vec := list R.

(** A two-dimensional array: its shape and its C-ordered buffer. *)
Record ndarray : Type := mkarray {
  nrows : nat;
  ncols : nat;
  data : list R
}.

Definition wf (A : ndarray) : Prop := length (data A) = (nrows A * ncols A)%nat.

(** [A[i, j]] *)
Definition get (A : ndarray) (i j : nat) : R :=
  nth (i * ncols A + j) (data A) 0.

Definition tabulate {T} (n : nat) (f : nat -> T) : list T := map f (seq 0 n).

Definition mk (r c : nat) (f : nat -> nat -> R) : ndarray :=
  {| nrows := r; ncols := c;
     data := flat_map (fun i => tabulate c (f i)) (seq 0 r) |}.

(** [sumn n f] is f 0 + ... + f (n-1), accumulated from the left. *)
Fixpoint sumn (n : nat) (f : nat -> R) : R :=
  match n with
  | O => 0
  | S k => sumn k f + f k
  end.

(** [v.sum()] *)
Definition vsum (v : Vec) : R := fold_left Rplus v 0.

(** The additive floor of the source, the literal [1e-6]. *)
Definition floor : R := 1 / 1000000.

(** Broadcasting of one axis: equal lengths, or one of them 1. *)
Definition bdim (a b : nat) : result nat :=
  if (a =? b)%nat then Ok a
  else if (a =? 1)%nat then Ok b
  else if (b =? 1)%nat then Ok a
  else Err ValueError.

Definition bidx (d i : nat) : nat := if (d =? 1)%nat then O else i.

(** [A op B] for an elementwise binary operator, with numpy's broadcasting. *)
Definition broadcast2 (op : R -> R -> R) (A B : ndarray) : result ndarray :=
  rbind (bdim (nrows A) (nrows B)) (fun r =>
  rbind (bdim (ncols A) (ncols B)) (fun c =>
  Ok (mk r c (fun i j =>
        op (get A (bidx (nrows A) i) (bidx (ncols A) j))
           (get B (bidx (nrows B) i) (bidx (ncols B) j)))))).

Definition add := broadcast2 Rplus.
Definition sub := broadcast2 Rminus.
Definition mul := broadcast2 Rmult.

(** [s * A], [s + A] for a scalar [s] *)
Definition smul (s : R) (A : ndarray) : ndarray :=
  mk (nrows A) (ncols A) (fun i j => s * get A i j).
Definition sadd (s : R) (A : ndarray) : ndarray :=
  mk (nrows A) (ncols A) (fun i j => s + get A i j).

(** [v + s], [v * s] for a one-dimensional [v] *)
Definition vadd_s (v : Vec) (s : R) : Vec := map (fun x => x + s) v.
Definition vmul_s (v : Vec) (s : R) : Vec := map (fun x => x * s) v.

(** The matrix product, and [np.dot(A, B)], which checks the inner
    dimensions first. *)
Definition matmul (A B : ndarray) : ndarray :=
  mk (nrows A) (ncols B)
     (fun i j => sumn (ncols A) (fun k => get A i k * get B k j)).

Definition dot (A B : ndarray) : result ndarray :=
  if (ncols A =? nrows B)%nat then Ok (matmul A B) else Err ValueError.

(** The sum of two arrays of one shape. *)
Definition madd (A B : ndarray) : ndarray :=
  mk (nrows A) (ncols A) (fun i j => get A i j + get B i j).

(** The determinant, by expansion along the first row. *)
Fixpoint det_n (n : nat) (f : nat -> nat -> R) : R :=
  match n with
  | O => 1
  | S m =>
      sumn (S m) (fun j =>
        (-1) ^ j * f O j *
        det_n m (fun a b => f (S a) (if (b <? j)%nat then b else S b)))
  end.

Definition det (A : ndarray) : R := det_n (nrows A) (get A).

(** [A.T] *)
Definition transpose (A : ndarray) : ndarray :=
  mk (ncols A) (nrows A) (fun i j => get A j i).

(** [np.trace(A)], [A.trace()] *)
Definition trace (A : ndarray) : R :=
  sumn (Nat.min (nrows A) (ncols A)) (fun i => get A i i).

(** [np.diag(v)] for a one-dimensional [v] *)
Definition diag (v : Vec) : ndarray :=
  mk (length v) (length v) (fun i j => if (i =? j)%nat then nth i v 0 else 0).

(** [np.eye(n)] *)
Definition eye (n : nat) : ndarray :=
  mk n n (fun i j => if (i =? j)%nat then 1 else 0).

(** [np.zeros_like(A)]: a fresh array of the shape of [A] *)
Definition zeros_like (A : ndarray) : ndarray :=
  mk (nrows A) (ncols A) (fun _ _ => 0).

(** [A[:, i]] for a non-negative [i] *)
Definition column (A : ndarray) (i : nat) : result Vec :=
  if (i <? ncols A)%nat
  then Ok (tabulate (nrows A) (fun n => get A n i))
  else Err IndexError.

(** [A[n, i]] for non-negative indices *)
Definition item (A : ndarray) (n i : nat) : result R :=
  if (n <? nrows A)%nat && (i <? ncols A)%nat
  then Ok (get A n i)
  else Err IndexError.

(** [A[n, i] = v] *)
Definition setitem (A : ndarray) (n i : nat) (v : R) : result ndarray :=
  if (n <? nrows A)%nat && (i <? ncols A)%nat
  then Ok (mk (nrows A) (ncols A)
              (fun a b => if (a =? n)%nat && (b =? i)%nat then v else get A a b))
  else Err IndexError.

(** [np.sum(A, 1)] *)
Definition sum_axis1 (A : ndarray) : Vec :=
  tabulate (nrows A) (fun i => sumn (ncols A) (fun j => get A i j)).

(** [v[:, None]] *)
Definition column_vector (v : Vec) : ndarray :=
  mk (length v) 1 (fun i _ => nth i v 0).

(** [A.flatten()] *)
Definition flatten (A : ndarray) : Vec := data A.

(** [GPy.util.linalg.tdot(A)]: the product of [A] with its transpose. *)
Definition tdot (A : ndarray) : ndarray :=
  mk (nrows A) (nrows A)
     (fun i j => sumn (ncols A) (fun k => get A i k * get A j k)).

(** Python's index into a sequence of length [len]: negative indices count
    from the end. *)
Definition py_index (len : nat) (i : Z) : result nat :=
  if (0 <=? i)%Z && (i <? Z.of_nat len)%Z then Ok (Z.to_nat i)
  else if (i <? 0)%Z && (- Z.of_nat len <=? i)%Z then Ok (Z.to_nat (Z.of_nat len + i))
  else Err IndexError.

(** [enumerate(l)] *)
Definition enumerate {T} (l : list T) : list (nat * T) :=
  combine (seq 0 (length l)) l.

(** ** Facts on arrays *)

Lemma length_tabulate {T} n (f : nat -> T) : length (tabulate n f) = n.
Proof. unfold tabulate. now rewrite length_map, length_seq. Qed.

Lemma nth_tabulate n (f : nat -> R) i : (i < n)%nat -> nth i (tabulate n f) 0 = f i.
Proof.
  intros Hi. unfold tabulate.
  rewrite (nth_indep _ 0 (f O)) by now rewrite length_map, length_seq.
  rewrite map_nth, seq_nth; auto.
Qed.

Lemma tabulate_ext {T} n (f g : nat -> T) :
  (forall i, (i < n)%nat -> f i = g i) -> tabulate n f = tabulate n g.
Proof.
  intros Hfg. unfold tabulate. apply map_ext_in.
  intros i Hi. apply in_seq in Hi. apply Hfg. lia.
Qed.

Lemma flat_rows_length c (f : nat -> nat -> R) s r :
  length (flat_map (fun i => tabulate c (f i)) (seq s r)) = (r * c)%nat.
Proof.
  revert s. induction r as [|r IH]; intros s; simpl; auto.
  rewrite length_app, length_tabulate, IH. reflexivity.
Qed.

Lemma flat_rows_nth c (f : nat -> nat -> R) r s i j :
  (i < r)%nat -> (j < c)%nat ->
  nth (i * c + j) (flat_map (fun i => tabulate c (f i)) (seq s r)) 0 = f (s + i)%nat j.
Proof.
  revert s i. induction r as [|r IH]; intros s i Hi Hj; [lia|].
  simpl. destruct i as [|i].
  - simpl. rewrite app_nth1 by (rewrite length_tabulate; lia).
    rewrite nth_tabulate by lia. now rewrite Nat.add_0_r.
  - rewrite app_nth2 by (rewrite length_tabulate; simpl; lia).
    rewrite length_tabulate.
    replace (S i * c + j - c)%nat with (i * c + j)%nat by (simpl; lia).
    rewrite IH by lia. f_equal. lia.
Qed.

Lemma wf_mk r c f : wf (mk r c f).
Proof. unfold wf, mk. simpl. apply flat_rows_length. Qed.

Lemma get_mk r c f i j : (i < r)%nat -> (j < c)%nat -> get (mk r c f) i j = f i j.
Proof.
  intros Hi Hj. unfold get, mk. simpl.
  now rewrite flat_rows_nth.
Qed.

Lemma mk_ext r c f g :
  (forall i j, (i < r)%nat -> (j < c)%nat -> f i j = g i j) -> mk r c f = mk r c g.
Proof.
  intros Hfg. unfold mk. f_equal.
  assert (Hrows : forall i, In i (seq 0 r) -> tabulate c (f i) = tabulate c (g i)).
  { intros i Hi. apply in_seq in Hi.
    apply tabulate_ext. intros j Hj. apply Hfg; lia. }
  induction (seq 0 r) as [|i l IH]; simpl; auto.
  rewrite (Hrows i) by now left.
  f_equal. apply IH. intros k Hk. apply Hrows. now right.
Qed.

Lemma sumn_ext n f g :
  (forall i, (i < n)%nat -> f i = g i) -> sumn n f = sumn n g.
Proof.
  induction n as [|n IH]; intros Hfg; simpl; auto.
  rewrite IH, Hfg; auto.
Qed.

Lemma sumn_zero n f : (forall i, (i < n)%nat -> f i = 0) -> sumn n f = 0.
Proof.
  induction n as [|n IH]; intros Hf; simpl; auto.
  rewrite IH, Hf; auto. lra.
Qed.

Lemma sumn_plus n f g : sumn n (fun i => f i + g i) = sumn n f + sumn n g.
Proof. induction n as [|n IH]; simpl; [lra | rewrite IH; lra]. Qed.

Lemma sumn_scal n c f : sumn n (fun i => c * f i) = c * sumn n f.
Proof. induction n as [|n IH]; simpl; [lra | rewrite IH; lra]. Qed.

(** A sum with a single non-zero term. *)
Lemma sumn_single n f k :
  (k < n)%nat -> (forall i, (i < n)%nat -> i <> k -> f i = 0) -> sumn n f = f k.
Proof.
  induction n as [|n IH]; intros Hk Hz; [lia|]. simpl.
  destruct (Nat.eq_dec k n) as [->|Hne].
  - rewrite sumn_zero; [lra|]. intros i Hi. apply Hz; lia.
  - rewrite IH; [|lia|intros; apply Hz; lia].
    rewrite (Hz n); [lra|lia|congruence].
Qed.

Lemma fold_left_Rplus_acc (v : Vec) a : fold_left Rplus v a = a + fold_left Rplus v 0.
Proof.
  revert a. induction v as [|x v IH]; intros a; simpl; [lra|].
  rewrite (IH (a + x)), (IH (0 + x)). lra.
Qed.

Lemma vsum_tabulate n f : vsum (tabulate n f) = sumn n f.
Proof.
  induction n as [|n IH]; [reflexivity|].
  unfold tabulate, vsum in *. rewrite seq_S, map_app, fold_left_app. simpl.
  now rewrite IH.
Qed.

(** ** The collaborators of the model

    [OMGP] is written against GPy's kernels and parameter registry, numpy's
    and scipy's dense solvers and the [CollapsedMixture] base class.  They
    are taken as an interface; every call may raise. *)

Class Externals : Type := {
  (** a GPy kernel object: its family, hyperparameter values and gradients *)
  kernel : Type;
  (** the parameters linked to the model *)
  registry : Type;
  (** [kern.K(X)] *)
  kern_K : kernel -> ndarray -> result ndarray;
  (** [kern.K(X, X2)] *)
  kern_K2 : kernel -> ndarray -> ndarray -> result ndarray;
  (** [kern.copy()] *)
  kern_copy : kernel -> kernel;
  (** [kern.update_gradients_full(dL_dK, X)]: the kernel with its gradient set *)
  update_gradients_full : kernel -> ndarray -> ndarray -> result kernel;
  (** [self.link_parameter(kern)], [self.unlink_parameter(kern)] *)
  link_parameter : registry -> kernel -> result registry;
  unlink_parameter : registry -> kernel -> result registry;
  (** [linalg.cho_solve(linalg.cho_factor(A), B)] *)
  cho_solve : ndarray -> ndarray -> result ndarray;
  (** [np.linalg.solve(A, B)] *)
  linalg_solve : ndarray -> ndarray -> result ndarray;
  (** [pdinv(A)[0]] *)
  pdinv : ndarray -> result ndarray;
  (** [np.linalg.slogdet(A)]: sign and logarithm of the absolute determinant *)
  slogdet : ndarray -> result (R * R);
  (** [self.mixing_prop_bound()], [self.mixing_prop_bound_grad()], of
      [CollapsedMixture]: functions of the assignment matrix *)
  mixing_prop_bound : ndarray -> result R;
  mixing_prop_bound_grad : ndarray -> result ndarray
}.

Inductive extfun : Type :=
| F_kern_K | F_kern_K2 | F_update_gradients_full
| F_link_parameter | F_unlink_parameter
| F_cho_solve | F_linalg_solve | F_pdinv | F_slogdet
| F_mixing_prop_bound | F_mixing_prop_bound_grad.

(** What a run leaves in the log. *)
Inductive event : Type :=
| EvDiv (num den : R)
| EvLog (x : R)
| EvCall (f : extfun).

Section Model.

Context {E : Externals}.

(** The attributes of an [OMGP] object. *)
Record OMGP : Type := mkOMGP {
  self_X : ndarray;
  self_Y : ndarray;
  self_D : nat;
  self_N : nat;
  self_K : nat;
  self_phi : ndarray;
  self_H : R;
  self_Hgrad : ndarray;
  self_kern : list kernel;
  self_variance : R;
  self_variance_gradient : R;
  self_parameters : registry
}.

Record World : Type := mkWorld {
  self : OMGP;
  events : list event  (* latest first *)
}.

(** Computations: state and exceptions; an exception keeps the state
    reached. *)
Definition M (A : Type) : Type := World -> result A * World.

Definition ret {A} (a : A) : M A := fun w => (Ok a, w).

Definition bind {A B} (m : M A) (f : A -> M B) : M B := fun w =>
  match m w with
  | (Ok a, w') => f a w'
  | (Err e, w') => (Err e, w')
  end.

Definition lift {A} (r : result A) : M A := fun w => (r, w).

Definition emit (ev : event) : M unit := fun w =>
  (Ok tt, {| self := self w; events := ev :: events w |}).

Definition get_self : M OMGP := fun w => (Ok (self w), w).

Definition put_self (s : OMGP) : M unit := fun w =>
  (Ok tt, {| self := s; events := events w |}).

End Model.

Declare Scope omgp_scope.
Delimit Scope omgp_scope with omgp.
Notation "x <- m ;; k" := (bind m (fun x => k))
  (at level 61, m at next level, right associativity) : omgp_scope.
Notation "m ;;; k" := (bind m (fun _ => k))
  (at level 61, right associativity) : omgp_scope.
Open Scope omgp_scope.

Section Methods.

Context {E : Externals}.

(** A call into a collaborator. *)
Definition call {A} (f : extfun) (r : result A) : M A :=
  emit (EvCall f) ;;; lift r.

(** [x / y] on floats.  numpy gives inf or nan for a zero denominator, with
    a warning, and goes on; the reals have no such value, so here the run
    ends with [NonFinite].  What the float program does past that point
    (an inf that a later finiteness check rejects, or that a solver
    absorbs) is outside this model: statements either keep denominators
    away from zero by hypothesis or concern only what happens before. *)
Definition fdiv (x y : R) : M R :=
  emit (EvDiv x y) ;;;
  if Req_dec_T y 0 then lift (Err NonFinite) else ret (x / y).

(** [np.log(x)].  numpy gives -inf or nan for a non-positive argument, with
    a warning, and goes on; here the run ends with [NonFinite], as for
    [fdiv]. *)
Definition flog (x : R) : M R :=
  emit (EvLog x) ;;;
  if Rlt_dec 0 x then ret (ln x) else lift (Err NonFinite).

Fixpoint mapM {A B} (f : A -> M B) (l : list A) : M (list B) :=
  match l with
  | [] => ret []
  | a :: l' => b <- f a ;; bs <- mapM f l' ;; ret (b :: bs)
  end.

(** A [for] loop threading an accumulator. *)
Fixpoint foldM {A B} (f : A -> B -> M A) (acc : A) (l : list B) : M A :=
  match l with
  | [] => ret acc
  | b :: l' => acc' <- f acc b ;; foldM f acc' l'
  end.

(** A [for] loop run for its effects. *)
Definition forM_ {B} (l : list B) (f : B -> M unit) : M unit :=
  foldM (fun _ b => f b) tt l.

(** [v / s] and [s / v], elementwise *)
Definition vdiv_s (v : Vec) (s : R) : M Vec := mapM (fun x => fdiv x s) v.
Definition sdiv_v (s : R) (v : Vec) : M Vec := mapM (fun x => fdiv s x) v.

(** [l[i]] on a Python list *)
Definition getitem {T} (l : list T) (i : Z) : result T :=
  rbind (py_index (length l) i) (fun n =>
  match nth_error l n with
  | Some x => Ok x
  | None => Err IndexError
  end).

Fixpoint replace_nth {T} (n : nat) (x : T) (l : list T) : list T :=
  match l, n with
  | [], _ => []
  | _ :: l', O => x :: l'
  | y :: l', S n' => y :: replace_nth n' x l'
  end.

(** Attribute assignments. *)
Definition with_kern (s : OMGP) (ks : list kernel) : OMGP :=
  mkOMGP (self_X s) (self_Y s) (self_D s) (self_N s) (self_K s)
         (self_phi s) (self_H s) (self_Hgrad s) ks
         (self_variance s) (self_variance_gradient s) (self_parameters s).

Definition with_variance_gradient (s : OMGP) (g : R) : OMGP :=
  mkOMGP (self_X s) (self_Y s) (self_D s) (self_N s) (self_K s)
         (self_phi s) (self_H s) (self_Hgrad s) (self_kern s)
         (self_variance s) g (self_parameters s).

Definition with_parameters (s : OMGP) (reg : registry) : OMGP :=
  mkOMGP (self_X s) (self_Y s) (self_D s) (self_N s) (self_K s)
         (self_phi s) (self_H s) (self_Hgrad s) (self_kern s)
         (self_variance s) (self_variance_gradient s) reg.

Definition set_kern (ks : list kernel) : M unit :=
  s <- get_self ;; put_self (with_kern s ks).

Definition set_variance_gradient (g : R) : M unit :=
  s <- get_self ;; put_self (with_variance_gradient s g).

Definition set_parameters (reg : registry) : M unit :=
  s <- get_self ;; put_self (with_parameters s reg).

(** [np.diag(1. / ((self.phi[:, i] + 1e-6) / self.variance))] *)
Definition B_inv_floored (i : nat) : M ndarray :=
  s <- get_self ;;
  phi_i <- lift (column (self_phi s) i) ;;
  t <- vdiv_s (vadd_s phi_i floor) (self_variance s) ;;
  r <- sdiv_v 1 t ;;
  ret (diag r).

(** [np.diag(1. / (self.phi[:, i] / self.variance))] *)
Definition B_inv_unfloored (i : nat) : M ndarray :=
  s <- get_self ;;
  phi_i <- lift (column (self_phi s) i) ;;
  t <- vdiv_s phi_i (self_variance s) ;;
  r <- sdiv_v 1 t ;;
  ret (diag r).

(** *** do_computations *)

Definition do_computations : M unit :=
  s <- get_self ;;
  (if (length (self_kern s) <? self_K s)%nat then
     last <- lift (getitem (self_kern s) (-1)) ;;
     set_kern (self_kern s ++ [kern_copy last]) ;;;
     s1 <- get_self ;;
     new <- lift (getitem (self_kern s1) (-1)) ;;
     reg <- call F_link_parameter (link_parameter (self_parameters s1) new) ;;
     set_parameters reg
   else ret tt) ;;;
  s2 <- get_self ;;
  if (self_K s2 <? length (self_kern s2))%nat then
    forM_ (skipn (self_K s2) (self_kern s2)) (fun kern =>
      s3 <- get_self ;;
      reg <- call F_unlink_parameter (unlink_parameter (self_parameters s3) kern) ;;
      set_parameters reg) ;;;
    s4 <- get_self ;;
    set_kern (firstn (self_K s4) (self_kern s4))
  else ret tt.

(** *** update_kern_grads *)

(** Body of the first loop: the gradient signal of kernel [i]. *)
Definition kern_grad_step (_ : unit) (ik : nat * kernel) : M unit :=
  let (i, kern) := ik in
  s <- get_self ;;
  K <- call F_kern_K (kern_K kern (self_X s)) ;;
  B_inv <- B_inv_unfloored i ;;
  A <- lift (add K B_inv) ;;
  alpha <- call F_cho_solve (cho_solve A (self_Y s)) ;;
  A' <- lift (add K B_inv) ;;
  K_B_inv <- call F_pdinv (pdinv A') ;;
  d <- lift (sub (tdot alpha) K_B_inv) ;;
  let dL_dK := smul (1/2) d in
  kern' <- call F_update_gradients_full (update_gradients_full kern dL_dK (self_X s)) ;;
  s' <- get_self ;;
  set_kern (replace_nth i kern' (self_kern s')).

(** What component [i] adds to the variance gradient (lines 72 to 81). *)
Definition variance_term (i : nat) (kern : kernel) : M R :=
  s <- get_self ;;
  K <- call F_kern_K (kern_K kern (self_X s)) ;;
  B_inv <- B_inv_floored i ;;
  A <- lift (add K B_inv) ;;
  alpha <- call F_linalg_solve (linalg_solve A (self_Y s)) ;;
  A' <- lift (add K B_inv) ;;
  K_B_inv <- call F_pdinv (pdinv A') ;;
  dL_dB <- lift (sub (tdot alpha) K_B_inv) ;;
  phi_i <- lift (column (self_phi s) i) ;;
  g <- sdiv_v 1 (vadd_s phi_i floor) ;;
  let grad_B_inv := diag g in
  p <- lift (dot dL_dB grad_B_inv) ;;
  ret ((1/2) * trace p).

(** Body of the second loop: the running sum is assigned at every turn. *)
Definition variance_grad_step (grad_Lm_variance : R) (ik : nat * kernel) : M R :=
  let (i, kern) := ik in
  t <- variance_term i kern ;;
  let grad_Lm_variance := grad_Lm_variance + t in
  set_variance_gradient grad_Lm_variance ;;;
  ret grad_Lm_variance.

Definition update_kern_grads : M unit :=
  s <- get_self ;;
  foldM kern_grad_step tt (enumerate (self_kern s)) ;;;
  s' <- get_self ;;
  foldM variance_grad_step 0 (enumerate (self_kern s')) ;;;
  ret tt.

Definition parameters_changed : M unit := update_kern_grads.

(** *** bound *)

Definition bound_step (GP_bound : R) (ik : nat * kernel) : M R :=
  let (i, kern) := ik in
  s <- get_self ;;
  K <- call F_kern_K (kern_K kern (self_X s)) ;;
  B_inv <- B_inv_floored i ;;
  A <- lift (add K B_inv) ;;
  alpha <- call F_cho_solve (cho_solve A (self_Y s)) ;;
  p <- lift (dot (transpose (self_Y s)) alpha) ;;
  let GP_bound := GP_bound + -(1/2) * trace p in
  A' <- lift (add K B_inv) ;;
  sl <- call F_slogdet (slogdet A') ;;
  let GP_bound := GP_bound + -(1/2) * snd sl in
  phi_i <- lift (column (self_phi s) i) ;;
  l <- flog (2 * PI * self_variance s) ;;
  let GP_bound := GP_bound + -(1/2) * vsum (vmul_s phi_i l) in
  ret GP_bound.

Definition bound : M R :=
  s <- get_self ;;
  GP_bound <- foldM bound_step 0 (enumerate (self_kern s)) ;;
  s' <- get_self ;;
  mpb <- call F_mixing_prop_bound (mixing_prop_bound (self_phi s')) ;;
  ret (GP_bound + mpb + self_H s').

(** *** vb_grad_natgrad *)

(** The raw gradient entry for data point [n] of component [i]. *)
Definition natgrad_inner (i : nat) (B_inv dL_dB : ndarray)
    (grad_Lm : ndarray) (n : nat) : M ndarray :=
  s <- get_self ;;
  let grad_B_inv := zeros_like B_inv in
  p <- lift (item (self_phi s) n i) ;;
  q <- fdiv (- self_variance s) (p ^ 2 + floor) ;;
  grad_B_inv <- lift (setitem grad_B_inv n n q) ;;
  prod <- lift (dot dL_dB grad_B_inv) ;;
  lift (setitem grad_Lm n i ((1/2) * trace prod)).

Definition natgrad_step (grad_Lm : ndarray) (ik : nat * kernel) : M ndarray :=
  let (i, kern) := ik in
  s <- get_self ;;
  K <- call F_kern_K (kern_K kern (self_X s)) ;;
  let I := eye (self_N s) in
  B_inv <- B_inv_floored i ;;
  A <- lift (add K B_inv) ;;
  alpha <- call F_linalg_solve (linalg_solve A (self_Y s)) ;;
  A' <- lift (add K B_inv) ;;
  K_B_inv <- call F_pdinv (pdinv A') ;;
  dL_dB <- lift (sub (tdot alpha) K_B_inv) ;;
  foldM (natgrad_inner i B_inv dL_dB) grad_Lm (seq 0 (nrows (self_phi s))).

(** From the raw gradient to the pair returned (lines 129 to 134). *)
Definition natgrad_project (grad_Lm : ndarray) : M (Vec * Vec) :=
  s <- get_self ;;
  mg <- call F_mixing_prop_bound_grad (mixing_prop_bound_grad (self_phi s)) ;;
  t <- lift (add grad_Lm mg) ;;
  grad_phi <- lift (add t (self_Hgrad s)) ;;
  pg <- lift (mul (self_phi s) grad_phi) ;;
  natgrad <- lift (sub grad_phi (column_vector (sum_axis1 pg))) ;;
  grad <- lift (mul natgrad (self_phi s)) ;;
  ret (flatten grad, flatten natgrad).

Definition vb_grad_natgrad : M (Vec * Vec) :=
  s <- get_self ;;
  let grad_Lm := zeros_like (self_phi s) in
  grad_Lm <- foldM natgrad_step grad_Lm (enumerate (self_kern s)) ;;
  natgrad_project grad_Lm.

(** *** predict, predict_components *)

Definition predict (Xnew : ndarray) (i : Z) : M (ndarray * ndarray) :=
  s <- get_self ;;
  kern <- lift (getitem (self_kern s) i) ;;
  K <- call F_kern_K (kern_K kern (self_X s)) ;;
  kx <- call F_kern_K2 (kern_K2 kern (self_X s) Xnew) ;;
  c <- lift (py_index (ncols (self_phi s)) i) ;;
  B_inv <- B_inv_unfloored c ;;
  A <- lift (add K B_inv) ;;
  sy <- call F_linalg_solve (linalg_solve A (self_Y s)) ;;
  mu <- lift (dot (transpose kx) sy) ;;
  kxx <- call F_kern_K2 (kern_K2 kern Xnew Xnew) ;;
  A' <- lift (add K B_inv) ;;
  sk <- call F_linalg_solve (linalg_solve A' kx) ;;
  q <- lift (dot (transpose kx) sk) ;;
  va <- lift (sub (sadd (self_variance s) kxx) q) ;;
  ret (mu, va).

(** [np.array(l)[:, :, 0].T] for a list of two-dimensional arrays *)
Definition stack_first_column (l : list ndarray) : result ndarray :=
  match l with
  | [] => Err IndexError
  | a :: _ =>
      if forallb (fun b => (nrows b =? nrows a)%nat && (ncols b =? ncols a)%nat) l
      then if (0 <? ncols a)%nat
           then Ok (mk (nrows a) (length l)
                       (fun r k => get (nth k l a) r O))
           else Err IndexError
      else Err ValueError
  end.

Definition predict_components (Xnew : ndarray) : M (ndarray * ndarray) :=
  s <- get_self ;;
  r <- foldM (fun (acc : list ndarray * list ndarray) (i : nat) =>
                let (mus, vas) := acc in
                mv <- predict Xnew (Z.of_nat i) ;;
                ret (mus ++ [fst mv], vas ++ [snd mv]))
             ([], []) (seq 0 (length (self_kern s))) ;;
  ms <- lift (stack_first_column (fst r)) ;;
  vs <- lift (stack_first_column (snd r)) ;;
  ret (ms, vs).

End Methods.

(** ** A program logic for the methods *)

Section Logic.

Context {E : Externals}.

(** Read-only computations.  [spec P Qe s0 m Qv]: started in any world whose
    model is [s0], [m] leaves the model as it is, logs only events that
    satisfy [P], and either returns a value that satisfies [Qv] or raises an
    exception that satisfies [Qe]. *)
Section ReadOnly.

Variable P : event -> Prop.
Variable Qe : exn -> Prop.
Variable s0 : OMGP.

Definition outcome {A} (Qv : A -> Prop) (r : result A) : Prop :=
  match r with
  | Ok a => Qv a
  | Err e => Qe e
  end.

Definition spec {A} (m : M A) (Qv : A -> Prop) : Prop :=
  forall w, self w = s0 ->
    self (snd (m w)) = s0 /\
    (exists tr, events (snd (m w)) = tr ++ events w /\ Forall P tr) /\
    outcome Qv (fst (m w)).

Lemma spec_ret {A} (a : A) (Qv : A -> Prop) : Qv a -> spec (ret a) Qv.
Proof.
  intros Ha w Hw. simpl. repeat split; auto. exists []. split; auto.
Qed.

Lemma spec_lift {A} (r : result A) :
  (forall e, r = Err e -> Qe e) -> spec (lift r) (fun a => r = Ok a).
Proof.
  intros He w Hw. simpl. repeat split; auto.
  - exists []. split; auto.
  - destruct r; simpl; auto.
Qed.

Lemma spec_get_self : spec get_self (fun s => s = s0).
Proof.
  intros w Hw. simpl. repeat split; auto. exists []. split; auto.
Qed.

Lemma spec_emit ev : P ev -> spec (emit ev) (fun _ => True).
Proof.
  intros Hev w Hw. simpl. repeat split; auto.
  exists [ev]. split; auto.
Qed.

Lemma spec_bind {A B} (m : M A) (f : A -> M B) (Qa : A -> Prop) (Qv : B -> Prop) :
  spec m Qa -> (forall a, Qa a -> spec (f a) Qv) -> spec (bind m f) Qv.
Proof.
  intros Hm Hf w Hw. unfold bind.
  destruct (Hm w Hw) as (Hs & (tr & Htr & HP) & Ho).
  destruct (m w) as [[a|e] w']; simpl in *.
  - destruct (Hf a Ho w' Hs) as (Hs' & (tr' & Htr' & HP') & Ho').
    repeat split; auto.
    exists (tr' ++ tr). rewrite Htr', Htr, app_assoc. split; auto.
    apply Forall_app; auto.
  - repeat split; auto. exists tr. auto.
Qed.

Lemma spec_conseq {A} (m : M A) (Qv Qv' : A -> Prop) :
  spec m Qv -> (forall a, Qv a -> Qv' a) -> spec m Qv'.
Proof.
  intros Hm Himp w Hw. destruct (Hm w Hw) as (Hs & Htr & Ho).
  repeat split; auto. destruct (fst (m w)); simpl in *; auto.
Qed.

Lemma spec_call {A} f (r : result A) :
  P (EvCall f) -> (forall e, r = Err e -> Qe e) ->
  spec (call f r) (fun a => r = Ok a).
Proof.
  intros Hev He. unfold call.
  eapply spec_bind; [apply spec_emit; exact Hev|].
  intros _ _. apply spec_lift; auto.
Qed.

Lemma spec_fdiv x y :
  P (EvDiv x y) -> (y = 0 -> Qe NonFinite) ->
  spec (fdiv x y) (fun q => y <> 0 /\ q = x / y).
Proof.
  intros Hev He. unfold fdiv.
  eapply spec_bind; [apply spec_emit; exact Hev|].
  intros _ _. destruct (Req_dec_T y 0) as [Hy|Hy].
  - eapply spec_conseq; [apply spec_lift|].
    + intros e. injection 1 as <-. auto.
    + intros a Ha; discriminate.
  - apply spec_ret. auto.
Qed.

Lemma spec_flog x :
  P (EvLog x) -> (x <= 0 -> Qe NonFinite) ->
  spec (flog x) (fun l => 0 < x /\ l = ln x).
Proof.
  intros Hev He. unfold flog.
  eapply spec_bind; [apply spec_emit; exact Hev|].
  intros _ _. destruct (Rlt_dec 0 x) as [Hx|Hx].
  - apply spec_ret. auto.
  - eapply spec_conseq; [apply spec_lift|].
    + intros e. injection 1 as <-. apply He. lra.
    + intros a Ha; discriminate.
Qed.

Lemma spec_mapM {A B} (f : A -> M B) (R : A -> B -> Prop) l :
  (forall a, In a l -> spec (f a) (R a)) ->
  spec (mapM f l) (Forall2 R l).
Proof.
  induction l as [|a l IH]; intros Hf; simpl.
  - apply spec_ret. constructor.
  - eapply spec_bind; [apply Hf; now left|].
    intros b Hb.
    eapply spec_bind; [apply IH; intros; apply Hf; now right|].
    intros bs Hbs. apply spec_ret. now constructor.
Qed.

(** The loop rule: [Inv pre acc] holds once the elements [pre] are done. *)
Lemma spec_foldM {A B} (f : A -> B -> M A) (Inv : list B -> A -> Prop) l :
  forall pre acc,
  Inv pre acc ->
  (forall done b todo a, pre ++ l = done ++ b :: todo -> (length pre <= length done)%nat ->
     Inv done a -> spec (f a b) (Inv (done ++ [b]))) ->
  spec (foldM f acc l) (Inv (pre ++ l)).
Proof.
  induction l as [|b l IH]; intros pre acc Hinv Hstep; simpl.
  - rewrite app_nil_r. apply spec_ret. exact Hinv.
  - eapply spec_bind; [apply (Hstep pre b l acc eq_refl (le_n _) Hinv)|].
    intros a Ha.
    replace (pre ++ b :: l) with ((pre ++ [b]) ++ l) by now rewrite <- app_assoc.
    apply IH; auto.
    intros done b' todo a' Heq Hlen Hinv'.
    apply (Hstep done b' todo a'); auto.
    + now rewrite <- Heq, <- app_assoc.
    + rewrite length_app in Hlen. simpl in Hlen. lia.
Qed.

End ReadOnly.

End Logic.

(** ** Specifications of the building blocks *)

Lemma map_tabulate {T U} n (f : nat -> T) (g : T -> U) :
  map g (tabulate n f) = tabulate n (fun i => g (f i)).
Proof. unfold tabulate. apply map_map. Qed.

Lemma in_tabulate {T} n (f : nat -> T) x :
  In x (tabulate n f) -> exists k, (k < n)%nat /\ x = f k.
Proof.
  unfold tabulate. intros Hin. apply in_map_iff in Hin.
  destruct Hin as (k & Hk & Hin). apply in_seq in Hin.
  exists k. split; [lia | auto].
Qed.

Lemma tabulate_in {T} n (f : nat -> T) k : (k < n)%nat -> In (f k) (tabulate n f).
Proof.
  intros Hk. unfold tabulate. apply in_map, in_seq. lia.
Qed.

Lemma Forall2_map_eq {T U} (g : T -> U) (l : list T) (bs : list U) :
  Forall2 (fun a b => b = g a) l bs -> bs = map g l.
Proof. induction 1; simpl; congruence. Qed.

Lemma Forall2_weaken {T U} (R R' : T -> U -> Prop) l bs :
  (forall a b, R a b -> R' a b) -> Forall2 R l bs -> Forall2 R' l bs.
Proof. intros Himp. induction 1; constructor; auto. Qed.

Section Blocks.

Context {E : Externals}.
Variable P : event -> Prop.
Variable Qe : exn -> Prop.
Variable s0 : OMGP.

Lemma spec_vdiv_s (v : Vec) (s : R) :
  (forall x, In x v -> P (EvDiv x s)) ->
  (s = 0 -> Qe NonFinite) ->
  spec P Qe s0 (vdiv_s v s) (fun t => t = map (fun x => x / s) v).
Proof.
  intros HP He. unfold vdiv_s.
  eapply spec_conseq.
  - apply spec_mapM with (R := fun x q => q = x / s).
    intros x Hx. eapply spec_conseq; [apply spec_fdiv; auto|].
    intros q [_ Hq]. exact Hq.
  - intros t Ht. now apply Forall2_map_eq in Ht.
Qed.

Lemma spec_sdiv_v (s : R) (v : Vec) :
  (forall x, In x v -> P (EvDiv s x)) ->
  (forall x, In x v -> x = 0 -> Qe NonFinite) ->
  spec P Qe s0 (sdiv_v s v)
       (fun t => t = map (fun x => s / x) v /\ Forall (fun x => x <> 0) v).
Proof.
  intros HP He. unfold sdiv_v.
  eapply spec_conseq.
  - apply spec_mapM with (R := fun x q => x <> 0 /\ q = s / x).
    intros x Hx. apply spec_fdiv; eauto.
  - intros t Ht. split.
    + apply Forall2_map_eq. eapply Forall2_weaken; [|exact Ht].
      now intros a b [_ Hb].
    + clear -Ht. induction Ht as [|a b l bs [Ha _] _ IH]; constructor; auto.
Qed.

(** The precision matrix with the floor, entry by entry. *)
Definition floored_entry (n i : nat) : R :=
  1 / ((get (self_phi s0) n i + floor) / self_variance s0).

Definition unfloored_entry (n i : nat) : R :=
  1 / (get (self_phi s0) n i / self_variance s0).

Lemma spec_B_inv_floored i :
  (~ (i < ncols (self_phi s0))%nat -> Qe IndexError) ->
  (forall n, (n < nrows (self_phi s0))%nat ->
     P (EvDiv (get (self_phi s0) n i + floor) (self_variance s0)) /\
     P (EvDiv 1 ((get (self_phi s0) n i + floor) / self_variance s0))) ->
  (self_variance s0 = 0 -> Qe NonFinite) ->
  (forall n, (n < nrows (self_phi s0))%nat ->
     (get (self_phi s0) n i + floor) / self_variance s0 = 0 -> Qe NonFinite) ->
  spec P Qe s0 (B_inv_floored i)
       (fun B => (i < ncols (self_phi s0))%nat /\
                 B = diag (tabulate (nrows (self_phi s0)) (fun n => floored_entry n i))).
Proof.
  intros Hidx HP Hv Hz. unfold B_inv_floored.
  eapply spec_bind; [apply spec_get_self|]. intros s ->.
  eapply spec_bind.
  { apply spec_lift. unfold column. intros e.
    destruct (Nat.ltb_spec i (ncols (self_phi s0))); [discriminate|].
    injection 1 as <-. apply Hidx. lia. }
  intros phi_i Hphi. unfold column in Hphi.
  destruct (Nat.ltb_spec i (ncols (self_phi s0))) as [Hi|Hi]; [|discriminate].
  injection Hphi as <-.
  unfold vadd_s. rewrite map_tabulate.
  eapply spec_bind.
  { apply spec_vdiv_s; auto.
    intros x Hx. apply in_tabulate in Hx. destruct Hx as (k & Hk & ->).
    apply HP; auto. }
  intros t ->. rewrite map_tabulate.
  eapply spec_bind.
  { apply spec_sdiv_v.
    - intros x Hx. apply in_tabulate in Hx. destruct Hx as (k & Hk & ->).
      apply HP; auto.
    - intros x Hx. apply in_tabulate in Hx. destruct Hx as (k & Hk & ->).
      apply Hz; auto. }
  intros r [-> _]. rewrite map_tabulate.
  apply spec_ret. split; auto.
Qed.

Lemma spec_B_inv_unfloored i :
  (~ (i < ncols (self_phi s0))%nat -> Qe IndexError) ->
  (forall n, (n < nrows (self_phi s0))%nat ->
     P (EvDiv (get (self_phi s0) n i) (self_variance s0)) /\
     P (EvDiv 1 (get (self_phi s0) n i / self_variance s0))) ->
  (self_variance s0 = 0 -> Qe NonFinite) ->
  (forall n, (n < nrows (self_phi s0))%nat ->
     get (self_phi s0) n i / self_variance s0 = 0 -> Qe NonFinite) ->
  spec P Qe s0 (B_inv_unfloored i)
       (fun B => (i < ncols (self_phi s0))%nat /\
                 B = diag (tabulate (nrows (self_phi s0)) (fun n => unfloored_entry n i)) /\
                 forall n, (n < nrows (self_phi s0))%nat ->
                   get (self_phi s0) n i / self_variance s0 <> 0).
Proof.
  intros Hidx HP Hv Hz. unfold B_inv_unfloored.
  eapply spec_bind; [apply spec_get_self|]. intros s ->.
  eapply spec_bind.
  { apply spec_lift. unfold column. intros e.
    destruct (Nat.ltb_spec i (ncols (self_phi s0))); [discriminate|].
    injection 1 as <-. apply Hidx. lia. }
  intros phi_i Hphi. unfold column in Hphi.
  destruct (Nat.ltb_spec i (ncols (self_phi s0))) as [Hi|Hi]; [|discriminate].
  injection Hphi as <-.
  eapply spec_bind.
  { apply spec_vdiv_s; auto.
    intros x Hx. apply in_tabulate in Hx. destruct Hx as (k & Hk & ->).
    apply HP; auto. }
  intros t ->. rewrite map_tabulate.
  eapply spec_bind.
  { apply spec_sdiv_v.
    - intros x Hx. apply in_tabulate in Hx. destruct Hx as (k & Hk & ->).
      apply HP; auto.
    - intros x Hx. apply in_tabulate in Hx. destruct Hx as (k & Hk & ->).
      apply Hz; auto. }
  intros r [-> Hall]. rewrite map_tabulate.
  apply spec_ret. repeat split; auto.
  intros n Hn. rewrite Forall_forall in Hall. apply Hall.
  apply (tabulate_in (fun k => get (self_phi s0) k i / self_variance s0) Hn).
Qed.

End Blocks.

(** ** What [bound] and [vb_grad_natgrad] log and leave *)

Definition any_exn : exn -> Prop := fun _ => True.
Definition any_value {A} : A -> Prop := fun _ => True.

(** One step of a read-only block whose exceptions are all accepted. *)
Ltac ro_step :=
  eapply spec_bind;
  [ first [ apply spec_get_self
          | apply spec_lift; intros; exact I
          | apply spec_call; [ solve [auto] | intros; exact I ] ]
  | intros; cbv beta in * ].

Section Events.

Context {E : Externals}.
Variable P : event -> Prop.
Variable s0 : OMGP.

Hypothesis P_call : forall f, P (EvCall f).

(** The divisions of the floored precision matrix are accepted by [P]. *)
Definition floored_divs_ok : Prop :=
  forall n i, (n < nrows (self_phi s0))%nat -> (i < ncols (self_phi s0))%nat ->
    P (EvDiv (get (self_phi s0) n i + floor) (self_variance s0)) /\
    P (EvDiv 1 ((get (self_phi s0) n i + floor) / self_variance s0)).

Lemma spec_B_inv_floored_any i :
  floored_divs_ok ->
  spec P any_exn s0 (B_inv_floored i) any_value.
Proof.
  intros Hdiv.
  destruct (lt_dec i (ncols (self_phi s0))) as [Hi|Hi].
  - eapply spec_conseq; [apply spec_B_inv_floored|]; try (intros; exact I).
    intros n Hn. apply Hdiv; auto.
  - unfold B_inv_floored. ro_step. subst.
    eapply spec_bind; [apply spec_lift; intros; exact I|].
    intros phi_i Hphi. unfold column in Hphi.
    destruct (Nat.ltb_spec i (ncols (self_phi s0))); [lia | discriminate].
Qed.

Lemma bound_step_events acc ik :
  floored_divs_ok ->
  P (EvLog (2 * PI * self_variance s0)) ->
  spec P any_exn s0 (bound_step acc ik) any_value.
Proof.
  intros Hdiv Hlog. destruct ik as [i kern]. unfold bound_step.
  ro_step. subst. ro_step.
  eapply spec_bind; [apply spec_B_inv_floored_any; auto|]. intros B_inv _.
  do 6 ro_step.
  eapply spec_bind; [apply spec_flog; [exact Hlog | intros; exact I]|].
  intros l _. apply spec_ret. exact I.
Qed.

Lemma bound_events :
  floored_divs_ok ->
  P (EvLog (2 * PI * self_variance s0)) ->
  spec P any_exn s0 bound any_value.
Proof.
  intros Hdiv Hlog. unfold bound. ro_step. subst.
  eapply spec_bind.
  { apply (spec_foldM (P := P) (Qe := any_exn) (s0 := s0) bound_step
             (fun _ _ => True) (enumerate (self_kern s0)) [] 0 I).
    intros done b todo a _ _ _. apply bound_step_events; auto. }
  intros GP _. do 2 ro_step. apply spec_ret. exact I.
Qed.

(** The division of the one-hot perturbation is accepted by [P]. *)
Definition onehot_divs_ok : Prop :=
  forall n i, (n < nrows (self_phi s0))%nat -> (i < ncols (self_phi s0))%nat ->
    P (EvDiv (- self_variance s0) (get (self_phi s0) n i ^ 2 + floor)).

Lemma natgrad_inner_events i B_inv dL_dB grad_Lm n :
  onehot_divs_ok ->
  spec P any_exn s0 (natgrad_inner i B_inv dL_dB grad_Lm n) any_value.
Proof.
  intros Hdiv. unfold natgrad_inner. ro_step. subst.
  eapply spec_bind; [apply spec_lift; intros; exact I|].
  intros p Hp. unfold item in Hp.
  destruct (Nat.ltb_spec n (nrows (self_phi s0))) as [Hn|Hn]; [|discriminate].
  destruct (Nat.ltb_spec i (ncols (self_phi s0))) as [Hi|Hi]; [|discriminate].
  simpl in Hp. injection Hp as <-.
  eapply spec_bind; [apply spec_fdiv; [apply Hdiv; auto | intros; exact I]|].
  intros q _. do 2 ro_step.
  eapply spec_conseq; [apply spec_lift; intros; exact I|]. intros; exact I.
Qed.

Lemma natgrad_step_events grad_Lm ik :
  floored_divs_ok -> onehot_divs_ok ->
  spec P any_exn s0 (natgrad_step grad_Lm ik) any_value.
Proof.
  intros Hdiv Hone. destruct ik as [i kern]. unfold natgrad_step.
  ro_step. subst. ro_step.
  eapply spec_bind; [apply spec_B_inv_floored_any; auto|]. intros B_inv _.
  do 5 ro_step.
  apply (spec_foldM (P := P) (Qe := any_exn) (s0 := s0) _
           (fun _ _ => True) (seq 0 (nrows (self_phi s0))) [] grad_Lm I).
  intros done b todo a' _ _ _. apply natgrad_inner_events; auto.
Qed.

Lemma natgrad_project_events grad_Lm :
  spec P any_exn s0 (natgrad_project grad_Lm) any_value.
Proof.
  unfold natgrad_project. ro_step. subst. do 6 ro_step.
  apply spec_ret. exact I.
Qed.

Lemma vb_grad_natgrad_events :
  floored_divs_ok -> onehot_divs_ok ->
  spec P any_exn s0 vb_grad_natgrad any_value.
Proof.
  intros Hdiv Hone. unfold vb_grad_natgrad. ro_step. subst.
  eapply spec_bind.
  { apply (spec_foldM (P := P) (Qe := any_exn) (s0 := s0) natgrad_step
             (fun _ _ => True) (enumerate (self_kern s0)) []
             (zeros_like (self_phi s0)) I).
    intros done b todo a _ _ _. apply natgrad_step_events; auto. }
  intros grad_Lm _. apply natgrad_project_events.
Qed.

End Events.

(** ** What the solvers are relied upon for *)

Class LinAlgContract (E : Externals) : Prop := {
  cho_solve_sound : forall A B S, cho_solve A B = Ok S -> dot A S = Ok B;
  linalg_solve_sound : forall A B S, linalg_solve A B = Ok S -> dot A S = Ok B;
  pdinv_sound : forall A Ai, pdinv A = Ok Ai -> dot A Ai = Ok (eye (nrows A));
  slogdet_sound : forall A sg ld, slogdet A = Ok (sg, ld) -> ld = ln (Rabs (det A))
}.

Definition no_exn : exn -> Prop := fun _ => False.
Definition any_event : event -> Prop := fun _ => True.

Lemma bidx_lt d i : (i < d)%nat -> bidx d i = i.
Proof.
  unfold bidx. destruct (Nat.eqb_spec d 1); intros; [lia | reflexivity].
Qed.

Lemma broadcast2_same_shape op A B :
  nrows A = nrows B -> ncols A = ncols B ->
  broadcast2 op A B =
  Ok (mk (nrows A) (ncols A) (fun i j => op (get A i j) (get B i j))).
Proof.
  intros Hr Hc. unfold broadcast2, bdim. rewrite <- Hr, <- Hc, !Nat.eqb_refl.
  simpl. f_equal. apply mk_ext. intros i j Hi Hj.
  now rewrite !bidx_lt.
Qed.

Lemma add_same_shape A B :
  nrows A = nrows B -> ncols A = ncols B -> add A B = Ok (madd A B).
Proof. apply broadcast2_same_shape. Qed.

Lemma dot_ok A B C : dot A B = Ok C -> ncols A = nrows B /\ C = matmul A B.
Proof.
  unfold dot. destruct (Nat.eqb_spec (ncols A) (nrows B)); [|discriminate].
  injection 1 as <-. auto.
Qed.

Lemma combine_seq_split {T} (l : list T) s done i k todo :
  combine (seq s (length l)) l = done ++ (i, k) :: todo ->
  i = (s + length done)%nat /\ nth_error l (length done) = Some k.
Proof.
  revert s done. induction l as [|x l IH]; intros s done Heq; simpl in Heq.
  - destruct done; discriminate.
  - destruct done as [|d done]; simpl in Heq.
    + injection Heq as <- <- _. split; [simpl; lia | reflexivity].
    + injection Heq as _ Heq. apply IH in Heq. simpl.
      destruct Heq as [-> Hnth]. split; [lia | exact Hnth].
Qed.

(** The pairs of [enumerate l] are the positions of [l] and its elements. *)
Lemma enumerate_split {T} (l : list T) done i k todo :
  enumerate l = done ++ (i, k) :: todo ->
  i = length done /\ nth_error l i = Some k /\ (i < length l)%nat.
Proof.
  intros Heq. destruct (@combine_seq_split _ l 0%nat done i k todo Heq) as [Hi Hnth].
  simpl in Hi. subst i. repeat split; auto.
  apply nth_error_Some. congruence.
Qed.

(** ** The value of [bound] *)

Section BoundValue.

Context {E : Externals}.
Variable s0 : OMGP.

(** The precision matrix as the documentation writes it:
    diag(variance / (phi[:, i] + 1e-6)). *)
Definition B_inv_doc (i : nat) : ndarray :=
  diag (tabulate (nrows (self_phi s0))
                 (fun n => self_variance s0 / (get (self_phi s0) n i + floor))).

(** The three terms of component [i], given its covariance matrix and the
    solution [alpha] of its linear system. *)
Definition data_fit (alpha : ndarray) : R :=
  -(1/2) * trace (matmul (transpose (self_Y s0)) alpha).

Definition penalty (A : ndarray) : R := -(1/2) * ln (Rabs (det A)).

Definition noise_constant (i : nat) : R :=
  -(1/2) * sumn (nrows (self_phi s0))
             (fun n => get (self_phi s0) n i * ln (2 * PI * self_variance s0)).

(** The three terms of component [i], given the matrix [A] of its linear
    system and the solution [alpha]. *)
Definition gp_term (A alpha : ndarray) (i : nat) : R :=
  data_fit alpha + penalty A + noise_constant i.

(** Kernel [kern], at position [i], is evaluated, numpy adds the precision
    matrix to its covariance matrix and the system is solved. *)
Definition component_run (i : nat) (kern : kernel) (A alpha : ndarray) : Prop :=
  (exists Kmat, kern_K kern (self_X s0) = Ok Kmat /\
                add Kmat (B_inv_doc i) = Ok A) /\
  cho_solve A (self_Y s0) = Ok alpha /\
  nrows (self_Y s0) = nrows alpha /\
  exists sl, slogdet A = Ok sl.

(** The same when the covariance matrix is N by N: the sum is the plain
    sum of matrices. *)
Definition component_solved (i : nat) (kern : kernel) (Kmat alpha : ndarray) : Prop :=
  kern_K kern (self_X s0) = Ok Kmat /\
  nrows Kmat = nrows (self_phi s0) /\ ncols Kmat = nrows (self_phi s0) /\
  cho_solve (madd Kmat (B_inv_doc i)) (self_Y s0) = Ok alpha /\
  exists sl, slogdet (madd Kmat (B_inv_doc i)) = Ok sl.

Hypothesis variance_pos : 0 < self_variance s0.
Hypothesis floored_nonzero :
  forall n i, (n < nrows (self_phi s0))%nat -> (i < ncols (self_phi s0))%nat ->
    get (self_phi s0) n i + floor <> 0.

Lemma floored_entry_doc n i :
  (n < nrows (self_phi s0))%nat -> (i < ncols (self_phi s0))%nat ->
  floored_entry s0 n i = self_variance s0 / (get (self_phi s0) n i + floor).
Proof.
  intros Hn Hi. unfold floored_entry. field.
  split; [apply floored_nonzero; auto | lra].
Qed.

Lemma spec_B_inv_floored_value i :
  (i < ncols (self_phi s0))%nat ->
  spec any_event no_exn s0 (B_inv_floored i) (fun B => B = B_inv_doc i).
Proof.
  intros Hi. eapply spec_conseq.
  - apply spec_B_inv_floored.
    + intros Hn. apply Hn, Hi.
    + intros n Hn. split; exact I.
    + intros Hv. unfold no_exn. lra.
    + intros n Hn Hz. unfold no_exn.
      apply Rmult_integral in Hz. destruct Hz as [Hz|Hz].
      * now apply (floored_nonzero Hn Hi).
      * apply Rinv_neq_0_compat in Hz; [assumption | lra].
  - intros B [_ ->]. unfold B_inv_doc. f_equal.
    apply tabulate_ext. intros n Hn. now apply floored_entry_doc.
Qed.

Variable C : LinAlgContract E.

Lemma component_solved_run i kern Kmat alpha :
  component_solved i kern Kmat alpha ->
  component_run i kern (madd Kmat (B_inv_doc i)) alpha.
Proof.
  intros (HK & Hr & Hc & Hsolve & Hsl).
  destruct (dot_ok _ _ (cho_solve_sound _ _ Hsolve)) as [Hinner HY].
  repeat split; auto.
  - exists Kmat. split; [exact HK|].
    apply add_same_shape; unfold B_inv_doc; simpl;
      rewrite length_tabulate; assumption.
  - rewrite <- Hinner. simpl. rewrite Hc, <- Hr.
    rewrite HY. reflexivity.
Qed.

Lemma bound_step_value acc i kern A alpha :
  (i < ncols (self_phi s0))%nat ->
  component_run i kern A alpha ->
  spec any_event no_exn s0 (bound_step acc (i, kern))
       (fun v => v = acc + gp_term A alpha i).
Proof.
  intros Hi ((Kmat & HK & Hadd) & Hsolve & Hrows & [sg ld] & Hsl).
  unfold bound_step.
  eapply spec_bind; [apply spec_get_self|]. intros s ->.
  rewrite HK.
  eapply spec_bind; [apply spec_call; [exact I | discriminate]|].
  intros K' HK'. injection HK' as <-.
  eapply spec_bind; [apply spec_B_inv_floored_value; exact Hi|].
  intros B_inv ->.
  rewrite Hadd.
  eapply spec_bind; [apply spec_lift; discriminate|].
  intros A' HA. injection HA as <-.
  rewrite Hsolve.
  eapply spec_bind; [apply spec_call; [exact I | discriminate]|].
  intros alpha' Ha. injection Ha as <-.
  assert (Hdot : dot (transpose (self_Y s0)) alpha
                 = Ok (matmul (transpose (self_Y s0)) alpha)).
  { unfold dot. simpl. rewrite Hrows, Nat.eqb_refl. reflexivity. }
  rewrite Hdot.
  eapply spec_bind; [apply spec_lift; discriminate|].
  intros p Hp. injection Hp as <-.
  eapply spec_bind; [apply spec_lift; discriminate|].
  intros A' HA. injection HA as <-.
  rewrite Hsl.
  eapply spec_bind; [apply spec_call; [exact I | discriminate]|].
  intros sl Hsl'. injection Hsl' as <-.
  unfold column. destruct (Nat.ltb_spec i (ncols (self_phi s0))); [|lia].
  eapply spec_bind; [apply spec_lift; discriminate|].
  intros phi_i Hphi. injection Hphi as <-.
  eapply spec_bind.
  { apply spec_flog; [exact I|]. intros Hle. unfold no_exn.
    assert (0 < 2 * PI * self_variance s0)
      by (apply Rmult_lt_0_compat; [generalize PI_RGT_0; lra | assumption]).
    lra. }
  intros l [_ ->]. apply spec_ret.
  unfold gp_term, data_fit, penalty, noise_constant. simpl.
  rewrite (slogdet_sound _ Hsl).
  unfold vmul_s. rewrite map_tabulate, vsum_tabulate. lra.
Qed.

(** One system matrix and one solution per component. *)
Variables As alphas : nat -> ndarray.

Hypothesis kernels_match : length (self_kern s0) = ncols (self_phi s0).
Hypothesis components_run :
  forall i kern, nth_error (self_kern s0) i = Some kern ->
    component_run i kern (As i) (alphas i).

Definition GP_bound_doc : R :=
  sumn (length (self_kern s0)) (fun i => gp_term (As i) (alphas i) i).

Lemma bound_loop_value :
  spec any_event no_exn s0
       (foldM bound_step 0 (enumerate (self_kern s0)))
       (fun v => v = GP_bound_doc).
Proof.
  eapply spec_conseq.
  - apply (spec_foldM (P := any_event) (Qe := no_exn) (s0 := s0) bound_step
             (fun done v => v = sumn (length done)
                                     (fun i => gp_term (As i) (alphas i) i))
             (enumerate (self_kern s0)) [] 0 eq_refl).
    intros done [i kern] todo a Heq _ ->. simpl in Heq.
    apply enumerate_split in Heq. destruct Heq as (-> & Hnth & Hlt).
    eapply spec_conseq.
    + apply bound_step_value; [lia | apply components_run; exact Hnth].
    + intros v ->. rewrite length_app, Nat.add_1_r. reflexivity.
  - intros v ->. simpl. unfold GP_bound_doc, enumerate.
    rewrite length_combine, length_seq, Nat.min_id. reflexivity.
Qed.

Lemma bound_value mpb :
  mixing_prop_bound (self_phi s0) = Ok mpb ->
  spec any_event no_exn s0 bound
       (fun v => v = GP_bound_doc + mpb + self_H s0).
Proof.
  intros Hmpb. unfold bound.
  eapply spec_bind; [apply spec_get_self|]. intros s ->.
  eapply spec_bind; [apply bound_loop_value|]. intros GP ->.
  eapply spec_bind; [apply spec_get_self|]. intros s ->.
  rewrite Hmpb.
  eapply spec_bind; [apply spec_call; [exact I | discriminate]|].
  intros m Hm. injection Hm as <-.
  apply spec_ret. reflexivity.
Qed.

End BoundValue.

(** ** The trace against a one-hot matrix *)

Lemma setitem_ok A n i v :
  (n < nrows A)%nat -> (i < ncols A)%nat ->
  setitem A n i v =
  Ok (mk (nrows A) (ncols A)
         (fun a b => if (a =? n)%nat && (b =? i)%nat then v else get A a b)).
Proof.
  intros Hn Hi. unfold setitem.
  destruct (Nat.ltb_spec n (nrows A)); [|lia].
  destruct (Nat.ltb_spec i (ncols A)); [|lia]. reflexivity.
Qed.

Lemma item_ok A n i :
  (n < nrows A)%nat -> (i < ncols A)%nat -> item A n i = Ok (get A n i).
Proof.
  intros Hn Hi. unfold item.
  destruct (Nat.ltb_spec n (nrows A)); [|lia].
  destruct (Nat.ltb_spec i (ncols A)); [|lia]. reflexivity.
Qed.

(** The matrix that is zero everywhere but for [q] at [(n, n)]. *)
Definition onehot (N n : nat) (q : R) : ndarray :=
  mk N N (fun a b => if (a =? n)%nat && (b =? n)%nat then q else 0).

Lemma setitem_zeros_like B n q :
  (n < nrows B)%nat -> ncols B = nrows B ->
  setitem (zeros_like B) n n q = Ok (onehot (nrows B) n q).
Proof.
  intros Hn Hsq. rewrite setitem_ok by (simpl; lia). simpl.
  unfold onehot. rewrite Hsq. f_equal. apply mk_ext. intros a b Ha Hb.
  destruct ((a =? n)%nat && (b =? n)%nat); auto.
  unfold zeros_like. rewrite get_mk; auto; lia.
Qed.

Lemma trace_matmul_onehot dL N n q :
  nrows dL = N -> ncols dL = N -> (n < N)%nat ->
  trace (matmul dL (onehot N n q)) = get dL n n * q.
Proof.
  intros Hr Hc Hn. unfold trace, matmul. simpl. rewrite Hr, Hc, Nat.min_id.
  rewrite (sumn_single _ Hn).
  - rewrite get_mk by assumption.
    rewrite (sumn_single _ Hn).
    + unfold onehot. rewrite get_mk by assumption.
      now rewrite Nat.eqb_refl.
    + intros k Hk Hne. unfold onehot. rewrite get_mk by assumption.
      destruct (Nat.eqb_spec k n); [contradiction | simpl; lra].
  - intros i Hi Hne. rewrite get_mk by assumption.
    apply sumn_zero. intros k Hk. unfold onehot. rewrite get_mk by assumption.
    destruct (Nat.eqb_spec i n); [contradiction|].
    rewrite andb_false_r. lra.
Qed.

(** ** The closed form of the raw gradient

    The documented alternative to the trace of line 127: the entry is
    written down directly as half of dL_dB[n, n] times the perturbation. *)

Section ClosedForm.

Context {E : Externals}.

Definition natgrad_inner_closed_form (i : nat) (dL_dB : ndarray)
    (grad_Lm : ndarray) (n : nat) : M ndarray :=
  s <- get_self ;;
  p <- lift (item (self_phi s) n i) ;;
  q <- fdiv (- self_variance s) (p ^ 2 + floor) ;;
  d <- lift (item dL_dB n n) ;;
  lift (setitem grad_Lm n i ((1/2) * d * q)).

Definition natgrad_step_closed_form (grad_Lm : ndarray) (ik : nat * kernel)
    : M ndarray :=
  let (i, kern) := ik in
  s <- get_self ;;
  K <- call F_kern_K (kern_K kern (self_X s)) ;;
  B_inv <- B_inv_floored i ;;
  A <- lift (add K B_inv) ;;
  alpha <- call F_linalg_solve (linalg_solve A (self_Y s)) ;;
  A' <- lift (add K B_inv) ;;
  K_B_inv <- call F_pdinv (pdinv A') ;;
  dL_dB <- lift (sub (tdot alpha) K_B_inv) ;;
  foldM (natgrad_inner_closed_form i dL_dB) grad_Lm (seq 0 (nrows (self_phi s))).

Definition vb_grad_natgrad_closed_form : M (Vec * Vec) :=
  s <- get_self ;;
  let grad_Lm := zeros_like (self_phi s) in
  grad_Lm <- foldM natgrad_step_closed_form grad_Lm (enumerate (self_kern s)) ;;
  natgrad_project grad_Lm.

End ClosedForm.

(** ** The value of [vb_grad_natgrad] *)

Lemma sub_same_shape A B :
  nrows A = nrows B -> ncols A = ncols B ->
  sub A B = Ok (mk (nrows A) (ncols A) (fun i j => get A i j - get B i j)).
Proof. apply broadcast2_same_shape. Qed.

Lemma mul_same_shape A B :
  nrows A = nrows B -> ncols A = ncols B ->
  mul A B = Ok (mk (nrows A) (ncols A) (fun i j => get A i j * get B i j)).
Proof. apply broadcast2_same_shape. Qed.

Lemma seq_split_index s n done b todo :
  seq s n = done ++ b :: todo -> b = (s + length done)%nat /\ (length done < n)%nat.
Proof.
  intros Heq.
  assert (Hlen : length (seq s n) = (length done + S (length todo))%nat)
    by (rewrite Heq, length_app; reflexivity).
  rewrite length_seq in Hlen.
  assert (Hnth : nth (length done) (seq s n) O = b)
    by (rewrite Heq, app_nth2, Nat.sub_diag; auto).
  rewrite seq_nth in Hnth by lia. split; [congruence | lia].
Qed.

Section NatgradValue.

Context {E : Externals}.
Variable C : LinAlgContract E.
Variable s0 : OMGP.

Local Abbreviation N := (nrows (self_phi s0)).
Local Abbreviation Kc := (ncols (self_phi s0)).

Hypothesis variance_pos : 0 < self_variance s0.
Hypothesis floored_nonzero :
  forall n i, (n < N)%nat -> (i < Kc)%nat -> get (self_phi s0) n i + floor <> 0.

(** One covariance matrix, one solution and one inverse per component. *)
Variables Ks alphas Ainvs : nat -> ndarray.

Definition dL_dB_doc (i : nat) : ndarray :=
  mk N N (fun a b => get (tdot (alphas i)) a b - get (Ainvs i) a b).

(** The one-hot perturbation's value: -variance / (phi[n, i]^2 + 1e-6). *)
Definition perturbation (n i : nat) : R :=
  - self_variance s0 / (get (self_phi s0) n i ^ 2 + floor).

(** The closed form of the raw gradient entry. *)
Definition raw_entry (n i : nat) : R :=
  (1/2) * get (dL_dB_doc i) n n * perturbation n i.

Definition component_inverted (i : nat) (kern : kernel) : Prop :=
  kern_K kern (self_X s0) = Ok (Ks i) /\
  nrows (Ks i) = N /\ ncols (Ks i) = N /\
  linalg_solve (madd (Ks i) (B_inv_doc s0 i)) (self_Y s0) = Ok (alphas i) /\
  pdinv (madd (Ks i) (B_inv_doc s0 i)) = Ok (Ainvs i).

(** The raw gradient once the columns before [i] and, in column [i], the
    rows before [m] are written. *)
Definition partial_grad (i m : nat) : ndarray :=
  mk N Kc (fun a b =>
    if (b <? i)%nat || ((b =? i)%nat && (a <? m)%nat) then raw_entry a b else 0).

Lemma partial_grad_row i m :
  (m < N)%nat -> (i < Kc)%nat ->
  mk N Kc (fun a b => if (a =? m)%nat && (b =? i)%nat
                      then raw_entry m i else get (partial_grad i m) a b)
  = partial_grad i (S m).
Proof.
  intros Hm Hi. unfold partial_grad at 2. apply mk_ext. intros a b Ha Hb.
  unfold partial_grad. rewrite get_mk by assumption.
  destruct (Nat.eqb_spec a m) as [->|Ham];
    destruct (Nat.eqb_spec b i) as [->|Hbi]; simpl.
  - rewrite Nat.ltb_irrefl. simpl.
    destruct (Nat.ltb_spec m (S m)); [reflexivity | lia].
  - reflexivity.
  - destruct (Nat.ltb_spec a m); destruct (Nat.ltb_spec a (S m));
      try reflexivity; lia.
  - reflexivity.
Qed.

Lemma partial_grad_next i :
  partial_grad i N = partial_grad (S i) 0.
Proof.
  unfold partial_grad. apply mk_ext. intros a b Ha Hb.
  destruct (Nat.ltb_spec a N); [|lia].
  rewrite andb_true_r, andb_false_r, orb_false_r.
  destruct (Nat.ltb_spec b i); destruct (Nat.eqb_spec b i);
    destruct (Nat.ltb_spec b (S i)); try reflexivity; lia.
Qed.

Lemma partial_grad_zero : zeros_like (self_phi s0) = partial_grad 0 0.
Proof.
  unfold zeros_like, partial_grad. apply mk_ext. intros a b Ha Hb.
  rewrite andb_false_r. reflexivity.
Qed.

Lemma perturbation_defined n i : get (self_phi s0) n i ^ 2 + floor <> 0.
Proof.
  assert (0 <= get (self_phi s0) n i ^ 2) by apply pow2_ge_0.
  unfold floor. lra.
Qed.

Lemma natgrad_inner_value i m :
  (m < N)%nat -> (i < Kc)%nat ->
  spec any_event no_exn s0
       (natgrad_inner i (B_inv_doc s0 i) (dL_dB_doc i) (partial_grad i m) m)
       (fun g => g = partial_grad i (S m)).
Proof.
  intros Hm Hi. unfold natgrad_inner.
  eapply spec_bind; [apply spec_get_self|]. intros s ->.
  rewrite item_ok by assumption.
  eapply spec_bind; [apply spec_lift; discriminate|].
  intros p Hp. injection Hp as <-.
  eapply spec_bind.
  { apply spec_fdiv; [exact I|]. intros Hz. now apply perturbation_defined in Hz. }
  intros q [_ ->]. fold (perturbation m i).
  rewrite setitem_zeros_like
    by (unfold B_inv_doc; simpl; rewrite length_tabulate; auto).
  eapply spec_bind; [apply spec_lift; discriminate|].
  intros G HG. injection HG as <-.
  change (nrows (B_inv_doc s0 i))
    with (length (tabulate N (fun n => self_variance s0 / (get (self_phi s0) n i + floor)))).
  rewrite length_tabulate.
  assert (Hdot : dot (dL_dB_doc i) (onehot N m (perturbation m i))
                 = Ok (matmul (dL_dB_doc i) (onehot N m (perturbation m i)))).
  { unfold dot. simpl. rewrite Nat.eqb_refl. reflexivity. }
  rewrite Hdot.
  eapply spec_bind; [apply spec_lift; discriminate|].
  intros prod Hprod. injection Hprod as <-.
  rewrite (@trace_matmul_onehot _ N) by (auto; reflexivity).
  rewrite setitem_ok by (simpl; assumption). simpl.
  eapply spec_conseq; [apply spec_lift; discriminate|].
  intros g Hg. injection Hg as <-.
  rewrite <- partial_grad_row by assumption.
  apply mk_ext. intros a b Ha Hb.
  destruct ((a =? m)%nat && (b =? i)%nat); [|reflexivity].
  unfold raw_entry. lra.
Qed.

Lemma natgrad_inner_closed_form_value i m :
  (m < N)%nat -> (i < Kc)%nat ->
  spec any_event no_exn s0
       (natgrad_inner_closed_form i (dL_dB_doc i) (partial_grad i m) m)
       (fun g => g = partial_grad i (S m)).
Proof.
  intros Hm Hi. unfold natgrad_inner_closed_form.
  eapply spec_bind; [apply spec_get_self|]. intros s ->.
  rewrite item_ok by assumption.
  eapply spec_bind; [apply spec_lift; discriminate|].
  intros p Hp. injection Hp as <-.
  eapply spec_bind.
  { apply spec_fdiv; [exact I|]. intros Hz. now apply perturbation_defined in Hz. }
  intros q [_ ->]. fold (perturbation m i).
  rewrite item_ok by (simpl; assumption).
  eapply spec_bind; [apply spec_lift; discriminate|].
  intros d Hd. injection Hd as <-.
  rewrite setitem_ok by (simpl; assumption). simpl.
  eapply spec_conseq; [apply spec_lift; discriminate|].
  intros g Hg. injection Hg as <-.
  rewrite <- partial_grad_row by assumption.
  reflexivity.
Qed.

Lemma component_shapes i kern :
  component_inverted i kern ->
  nrows (alphas i) = N /\ nrows (Ainvs i) = N /\ ncols (Ainvs i) = N.
Proof.
  intros (HK & Hr & Hc & Hsolve & Hinv).
  destruct (dot_ok _ _ (linalg_solve_sound _ _ Hsolve)) as [Ha _].
  destruct (dot_ok _ _ (pdinv_sound _ Hinv)) as [Hi He].
  simpl in Ha, Hi. repeat split; try congruence.
  apply (f_equal ncols) in He. simpl in He. congruence.
Qed.

(** What both versions of the inner loop are required to do. *)
Definition fills_column (inner : nat -> ndarray -> ndarray -> ndarray -> nat -> M ndarray)
  : Prop :=
  forall i m, (m < N)%nat -> (i < Kc)%nat ->
    spec any_event no_exn s0
         (inner i (B_inv_doc s0 i) (dL_dB_doc i) (partial_grad i m) m)
         (fun g => g = partial_grad i (S m)).

Lemma inner_loop_value inner i :
  fills_column inner -> (i < Kc)%nat ->
  spec any_event no_exn s0
       (foldM (inner i (B_inv_doc s0 i) (dL_dB_doc i)) (partial_grad i 0) (seq 0 N))
       (fun g => g = partial_grad (S i) 0).
Proof.
  intros Hinner Hi. eapply spec_conseq.
  - apply (spec_foldM (P := any_event) (Qe := no_exn) (s0 := s0)
             (inner i (B_inv_doc s0 i) (dL_dB_doc i))
             (fun done g => g = partial_grad i (length done))
             (seq 0 N) [] (partial_grad i 0) eq_refl).
    intros done m todo g Heq _ ->. simpl in Heq.
    apply seq_split_index in Heq. destruct Heq as [-> Hlt]. simpl.
    eapply spec_conseq; [apply Hinner; assumption|].
    intros g ->. rewrite length_app, Nat.add_1_r. reflexivity.
  - intros g ->. simpl. rewrite length_seq. apply partial_grad_next.
Qed.

(** Lines 116 to 122, up to the inner loop. *)
Lemma natgrad_prelude_value {T} i kern (k : ndarray -> ndarray -> M T) (Qv : T -> Prop) :
  (i < Kc)%nat -> component_inverted i kern ->
  spec any_event no_exn s0 (k (B_inv_doc s0 i) (dL_dB_doc i)) Qv ->
  spec any_event no_exn s0
       (K <- call F_kern_K (kern_K kern (self_X s0)) ;;
        B_inv <- B_inv_floored i ;;
        A <- lift (add K B_inv) ;;
        alpha <- call F_linalg_solve (linalg_solve A (self_Y s0)) ;;
        A' <- lift (add K B_inv) ;;
        K_B_inv <- call F_pdinv (pdinv A') ;;
        dL_dB <- lift (sub (tdot alpha) K_B_inv) ;;
        k B_inv dL_dB) Qv.
Proof.
  intros Hi Hcomp Hk.
  destruct (component_shapes Hcomp) as (Hal & Hir & Hic).
  destruct Hcomp as (HK & Hr & Hc & Hsolve & Hinv).
  rewrite HK.
  eapply spec_bind; [apply spec_call; [exact I | discriminate]|].
  intros K' HK'. injection HK' as <-.
  eapply spec_bind; [apply spec_B_inv_floored_value; assumption|].
  intros B_inv ->.
  assert (Hadd : add (Ks i) (B_inv_doc s0 i) = Ok (madd (Ks i) (B_inv_doc s0 i))).
  { apply add_same_shape; unfold B_inv_doc; simpl;
      rewrite length_tabulate; assumption. }
  rewrite Hadd.
  eapply spec_bind; [apply spec_lift; discriminate|].
  intros A HA. injection HA as <-.
  rewrite Hsolve.
  eapply spec_bind; [apply spec_call; [exact I | discriminate]|].
  intros alpha' Ha. injection Ha as <-.
  eapply spec_bind; [apply spec_lift; discriminate|].
  intros A HA. injection HA as <-.
  rewrite Hinv.
  eapply spec_bind; [apply spec_call; [exact I | discriminate]|].
  intros Ai HAi. injection HAi as <-.
  rewrite sub_same_shape by (simpl; congruence). simpl. rewrite Hal.
  eapply spec_bind; [apply spec_lift; discriminate|].
  intros d Hd. injection Hd as <-. exact Hk.
Qed.

Lemma natgrad_step_value i kern :
  (i < Kc)%nat -> component_inverted i kern ->
  spec any_event no_exn s0 (natgrad_step (partial_grad i 0) (i, kern))
       (fun g => g = partial_grad (S i) 0).
Proof.
  intros Hi Hcomp. unfold natgrad_step.
  eapply spec_bind; [apply spec_get_self|]. intros s ->.
  apply (natgrad_prelude_value
           (fun B_inv dL_dB =>
              foldM (natgrad_inner i B_inv dL_dB) (partial_grad i 0) (seq 0 N))
           Hi Hcomp).
  apply (inner_loop_value (inner := natgrad_inner)); [|assumption].
  intros i' m Hm Hi'. now apply natgrad_inner_value.
Qed.

Lemma natgrad_step_closed_form_value i kern :
  (i < Kc)%nat -> component_inverted i kern ->
  spec any_event no_exn s0 (natgrad_step_closed_form (partial_grad i 0) (i, kern))
       (fun g => g = partial_grad (S i) 0).
Proof.
  intros Hi Hcomp. unfold natgrad_step_closed_form.
  eapply spec_bind; [apply spec_get_self|]. intros s ->.
  apply (natgrad_prelude_value
           (fun B_inv dL_dB =>
              foldM (natgrad_inner_closed_form i dL_dB) (partial_grad i 0) (seq 0 N))
           Hi Hcomp).
  apply (inner_loop_value (inner := fun i _ dL => natgrad_inner_closed_form i dL));
    [|assumption].
  intros i' m Hm Hi'. now apply natgrad_inner_closed_form_value.
Qed.

(** diag(1 / (phi[:, i] + 1e-6)) *)
Definition grad_B_inv_doc (i : nat) : ndarray :=
  diag (tabulate N (fun n => 1 / (get (self_phi s0) n i + floor))).

(** What component [i] adds to the variance gradient. *)
Definition variance_contribution (i : nat) : R :=
  (1/2) * trace (matmul (dL_dB_doc i) (grad_B_inv_doc i)).

Lemma variance_term_value i kern :
  (i < Kc)%nat -> component_inverted i kern ->
  spec any_event no_exn s0 (variance_term i kern)
       (fun t => t = variance_contribution i).
Proof.
  intros Hi Hcomp. unfold variance_term.
  eapply spec_bind; [apply spec_get_self|]. intros s ->.
  apply (natgrad_prelude_value
           (fun (_ dL_dB : ndarray) =>
              phi_i <- lift (column (self_phi s0) i) ;;
              g <- sdiv_v 1 (vadd_s phi_i floor) ;;
              p <- lift (dot dL_dB (diag g)) ;;
              ret ((1/2) * trace p))
           Hi Hcomp).
  unfold column. destruct (Nat.ltb_spec i Kc); [|lia].
  eapply spec_bind; [apply spec_lift; discriminate|].
  intros phi_i Hphi. injection Hphi as <-.
  unfold vadd_s. rewrite map_tabulate.
  eapply spec_bind.
  { apply spec_sdiv_v.
    - intros x _. exact I.
    - intros x Hx Hz. apply in_tabulate in Hx. destruct Hx as (n & Hn & ->).
      now apply (floored_nonzero Hn Hi). }
  intros g [-> _]. rewrite map_tabulate. fold (grad_B_inv_doc i).
  assert (Hdot : dot (dL_dB_doc i) (grad_B_inv_doc i)
                 = Ok (matmul (dL_dB_doc i) (grad_B_inv_doc i))).
  { unfold dot, grad_B_inv_doc. simpl.
    rewrite length_tabulate, Nat.eqb_refl. reflexivity. }
  rewrite Hdot.
  eapply spec_bind; [apply spec_lift; discriminate|].
  intros p Hp. injection Hp as <-.
  apply spec_ret. reflexivity.
Qed.

Hypothesis kernels_match : length (self_kern s0) = Kc.
Hypothesis components_inverted :
  forall i kern, nth_error (self_kern s0) i = Some kern -> component_inverted i kern.

(** The raw gradient, every entry in closed form. *)
Definition grad_Lm_doc : ndarray := mk N Kc raw_entry.

Lemma partial_grad_full : partial_grad Kc 0 = grad_Lm_doc.
Proof.
  unfold partial_grad, grad_Lm_doc. apply mk_ext. intros a b Ha Hb.
  destruct (Nat.ltb_spec b Kc); [reflexivity | lia].
Qed.

Lemma outer_loop_value step :
  (forall i kern, (i < Kc)%nat -> component_inverted i kern ->
     spec any_event no_exn s0 (step (partial_grad i 0) (i, kern))
          (fun g => g = partial_grad (S i) 0)) ->
  spec any_event no_exn s0
       (foldM step (zeros_like (self_phi s0)) (enumerate (self_kern s0)))
       (fun g => g = grad_Lm_doc).
Proof.
  intros Hstep. rewrite partial_grad_zero. eapply spec_conseq.
  - apply (spec_foldM (P := any_event) (Qe := no_exn) (s0 := s0) step
             (fun done g => g = partial_grad (length done) 0)
             (enumerate (self_kern s0)) [] (partial_grad 0 0) eq_refl).
    intros done [i kern] todo g Heq _ ->. simpl in Heq.
    apply enumerate_split in Heq. destruct Heq as (-> & Hnth & Hlt).
    eapply spec_conseq.
    + apply Hstep; [lia | apply components_inverted; exact Hnth].
    + intros g ->. rewrite length_app, Nat.add_1_r. reflexivity.
  - intros g ->. simpl. unfold enumerate.
    rewrite length_combine, length_seq, Nat.min_id, kernels_match.
    apply partial_grad_full.
Qed.

End NatgradValue.

(** ** The projection onto the simplex *)

Lemma sub_column_vector A v :
  nrows A = length v ->
  sub A (column_vector v) =
  Ok (mk (nrows A) (ncols A) (fun n k => get A n k - nth n v 0)).
Proof.
  intros Hr. unfold sub, broadcast2, column_vector. simpl.
  rewrite <- Hr. unfold bdim at 1. rewrite Nat.eqb_refl. simpl.
  assert (Hc : bdim (ncols A) 1 = Ok (ncols A)).
  { unfold bdim. destruct (Nat.eqb_spec (ncols A) 1) as [->|Hne]; reflexivity. }
  rewrite Hc. simpl. f_equal. apply mk_ext. intros n k Hn Hk.
  rewrite !bidx_lt by assumption. change (bidx 1 k) with O.
  rewrite get_mk by lia. reflexivity.
Qed.

Section Projection.

Context {E : Externals}.
Variable s0 : OMGP.

Local Abbreviation N := (nrows (self_phi s0)).
Local Abbreviation Kc := (ncols (self_phi s0)).

(** The raw gradient and the gradient of the mixing-proportion bound. *)
Variables grad_Lm mg : ndarray.

Definition grad_phi_doc : ndarray := madd (madd grad_Lm mg) (self_Hgrad s0).

(** Row [n]'s dot product of phi and grad_phi. *)
Definition row_dot (n : nat) : R :=
  sumn Kc (fun k => get (self_phi s0) n k * get grad_phi_doc n k).

(** natgrad[n, k] = grad_phi[n, k] - sum_k phi[n, k] grad_phi[n, k] *)
Definition natgrad_doc : ndarray :=
  mk N Kc (fun n k => get grad_phi_doc n k - row_dot n).

Definition grad_doc : ndarray :=
  mk N Kc (fun n k => get natgrad_doc n k * get (self_phi s0) n k).

Hypothesis grad_Lm_shape : nrows grad_Lm = N /\ ncols grad_Lm = Kc.
Hypothesis mg_value : mixing_prop_bound_grad (self_phi s0) = Ok mg.
Hypothesis mg_shape : nrows mg = N /\ ncols mg = Kc.
Hypothesis Hgrad_shape : nrows (self_Hgrad s0) = N /\ ncols (self_Hgrad s0) = Kc.

Lemma natgrad_project_value :
  spec any_event no_exn s0 (natgrad_project grad_Lm)
       (fun r => r = (flatten grad_doc, flatten natgrad_doc)).
Proof.
  destruct grad_Lm_shape as [Hgr Hgc]. destruct mg_shape as [Hmr Hmc].
  destruct Hgrad_shape as [Hhr Hhc].
  unfold natgrad_project.
  eapply spec_bind; [apply spec_get_self|]. intros s ->.
  rewrite mg_value.
  eapply spec_bind; [apply spec_call; [exact I | discriminate]|].
  intros m Hm. injection Hm as <-.
  rewrite add_same_shape by congruence.
  eapply spec_bind; [apply spec_lift; discriminate|].
  intros t Ht. injection Ht as <-.
  rewrite add_same_shape by (simpl; congruence).
  eapply spec_bind; [apply spec_lift; discriminate|].
  intros g Hg. injection Hg as <-. fold grad_phi_doc.
  rewrite mul_same_shape by (unfold grad_phi_doc; simpl; congruence).
  eapply spec_bind; [apply spec_lift; discriminate|].
  intros pg Hpg. injection Hpg as <-.
  rewrite sub_column_vector
    by (unfold sum_axis1; rewrite length_tabulate; unfold grad_phi_doc; simpl; congruence).
  eapply spec_bind; [apply spec_lift; discriminate|].
  intros ng Hng. injection Hng as <-.
  change (nrows grad_phi_doc) with (nrows grad_Lm).
  change (ncols grad_phi_doc) with (ncols grad_Lm).
  assert (Hng : mk (nrows grad_Lm) (ncols grad_Lm)
                   (fun n k => get grad_phi_doc n k
                               - nth n (sum_axis1
                                   (mk N Kc (fun i j => get (self_phi s0) i j
                                                        * get grad_phi_doc i j))) 0)
                = natgrad_doc).
  { unfold natgrad_doc. rewrite Hgr, Hgc.
    apply mk_ext. intros n k Hn Hk. f_equal.
    unfold sum_axis1. simpl. rewrite nth_tabulate by assumption.
    unfold row_dot. apply sumn_ext. intros j Hj. now rewrite get_mk. }
  rewrite Hng.
  rewrite mul_same_shape by reflexivity.
  eapply spec_bind; [apply spec_lift; discriminate|].
  intros gr Hgr'. injection Hgr' as <-.
  apply spec_ret. reflexivity.
Qed.

(** Along a row of phi that sums to one, the natural gradient has no
    component. *)
Lemma natgrad_row_orthogonal n :
  (n < N)%nat ->
  sumn Kc (fun k => get (self_phi s0) n k) = 1 ->
  sumn Kc (fun k => get (self_phi s0) n k * nth (n * Kc + k) (flatten natgrad_doc) 0) = 0.
Proof.
  intros Hn Hone.
  rewrite (@sumn_ext Kc _
             (fun k => get (self_phi s0) n k * get grad_phi_doc n k
                       + - row_dot n * get (self_phi s0) n k)).
  - rewrite sumn_plus, sumn_scal. fold (row_dot n).
    match goal with
    | |- _ + _ * ?c = 0 => replace c with 1 by (symmetry; exact Hone)
    end.
    lra.
  - intros k Hk.
    change (nth (n * Kc + k) (flatten natgrad_doc) 0) with (get natgrad_doc n k).
    unfold natgrad_doc. rewrite get_mk by assumption. lra.
Qed.

End Projection.

(** ** Assigning the variance gradient once, after the loop

    The documented alternative to line 83: the loop only accumulates, and
    the sum is assigned when the loop is over. *)

Section AssignAfter.

Context {E : Externals}.

Definition variance_sum_step (grad_Lm_variance : R) (ik : nat * kernel) : M R :=
  let (i, kern) := ik in
  t <- variance_term i kern ;;
  ret (grad_Lm_variance + t).

Definition update_kern_grads_assign_after : M unit :=
  s <- get_self ;;
  foldM kern_grad_step tt (enumerate (self_kern s)) ;;;
  s' <- get_self ;;
  g <- foldM variance_sum_step 0 (enumerate (self_kern s')) ;;
  set_variance_gradient g ;;;
  ret tt.

End AssignAfter.

(** ** Computations that change the model *)

Section Hoare.

Context {E : Externals}.
Variable P : event -> Prop.
Variable Qe : exn -> Prop.

(** [hoare s0 m Q]: started in a world whose model is [s0], [m] logs only
    events that satisfy [P] and either returns a value and a model that
    satisfy [Q] or raises an exception that satisfies [Qe]. *)
Definition hoare {A} (s0 : OMGP) (m : M A) (Q : A -> OMGP -> Prop) : Prop :=
  forall w, self w = s0 ->
    (exists tr, events (snd (m w)) = tr ++ events w /\ Forall P tr) /\
    match fst (m w) with
    | Ok a => Q a (self (snd (m w)))
    | Err e => Qe e
    end.

Lemma hoare_of_spec {A} s0 (m : M A) (Qv : A -> Prop) :
  spec P Qe s0 m Qv -> hoare s0 m (fun a s => Qv a /\ s = s0).
Proof.
  intros Hm w Hw. destruct (Hm w Hw) as (Hs & Htr & Ho).
  split; auto. destruct (fst (m w)); simpl in *; auto.
Qed.

Lemma hoare_bind {A B} s0 (m : M A) (f : A -> M B) Qa (Q : B -> OMGP -> Prop) :
  hoare s0 m Qa -> (forall a s1, Qa a s1 -> hoare s1 (f a) Q) ->
  hoare s0 (bind m f) Q.
Proof.
  intros Hm Hf w Hw. unfold bind.
  destruct (Hm w Hw) as ((tr & Htr & HP) & Ho).
  destruct (m w) as [[a|e] w']; simpl in *.
  - destruct (Hf a (self w') Ho w' eq_refl) as ((tr' & Htr' & HP') & Ho').
    split; auto.
    exists (tr' ++ tr). rewrite Htr', Htr, app_assoc. split; auto.
    apply Forall_app; auto.
  - split; auto. exists tr. auto.
Qed.

Lemma hoare_conseq {A} s0 (m : M A) (Q Q' : A -> OMGP -> Prop) :
  hoare s0 m Q -> (forall a s, Q a s -> Q' a s) -> hoare s0 m Q'.
Proof.
  intros Hm Himp w Hw. destruct (Hm w Hw) as (Htr & Ho).
  split; auto. destruct (fst (m w)); auto.
Qed.

Lemma hoare_ret {A} s0 (a : A) (Q : A -> OMGP -> Prop) :
  Q a s0 -> hoare s0 (ret a) Q.
Proof.
  intros HQ w Hw. simpl. split; [exists []; auto | now rewrite Hw].
Qed.

Lemma hoare_set_kern s0 ks :
  hoare s0 (set_kern ks) (fun _ s => s = with_kern s0 ks).
Proof.
  intros w Hw. simpl. split; [exists []; auto | now rewrite Hw].
Qed.

Lemma hoare_set_variance_gradient s0 g :
  hoare s0 (set_variance_gradient g) (fun _ s => s = with_variance_gradient s0 g).
Proof.
  intros w Hw. simpl. split; [exists []; auto | now rewrite Hw].
Qed.

Lemma hoare_set_parameters s0 reg :
  hoare s0 (set_parameters reg) (fun _ s => s = with_parameters s0 reg).
Proof.
  intros w Hw. simpl. split; [exists []; auto | now rewrite Hw].
Qed.

Lemma hoare_foldM {A B} (f : A -> B -> M A) (Inv : list B -> A -> OMGP -> Prop) l :
  forall pre acc s,
  Inv pre acc s ->
  (forall done b todo a s', pre ++ l = done ++ b :: todo ->
     (length pre <= length done)%nat ->
     Inv done a s' -> hoare s' (f a b) (Inv (done ++ [b]))) ->
  hoare s (foldM f acc l) (Inv (pre ++ l)).
Proof.
  induction l as [|b l IH]; intros pre acc s Hinv Hstep; simpl.
  - rewrite app_nil_r. apply hoare_ret. exact Hinv.
  - eapply hoare_bind; [apply (Hstep pre b l acc s eq_refl (le_n _) Hinv)|].
    intros a s1 Ha.
    replace (pre ++ b :: l) with ((pre ++ [b]) ++ l) by now rewrite <- app_assoc.
    apply IH; auto.
    intros done b' todo a' s' Heq Hlen Hinv'.
    apply (Hstep done b' todo a' s'); auto.
    + now rewrite <- Heq, <- app_assoc.
    + rewrite length_app in Hlen. simpl in Hlen. lia.
Qed.

End Hoare.

(** ** The precision matrix without the floor *)

Section Unfloored.

Context {E : Externals}.
Variable s0 : OMGP.

(** diag(variance / phi[:, i]) *)
Definition B_inv_unfloored_doc (i : nat) : ndarray :=
  diag (tabulate (nrows (self_phi s0))
                 (fun n => self_variance s0 / get (self_phi s0) n i)).

Lemma spec_B_inv_unfloored_value i :
  0 < self_variance s0 ->
  (i < ncols (self_phi s0))%nat ->
  (forall n, (n < nrows (self_phi s0))%nat -> get (self_phi s0) n i <> 0) ->
  spec any_event no_exn s0 (B_inv_unfloored i) (fun B => B = B_inv_unfloored_doc i).
Proof.
  intros Hv Hi Hnz. eapply spec_conseq.
  - apply spec_B_inv_unfloored.
    + intros Hn. apply Hn, Hi.
    + intros n Hn. split; exact I.
    + intros Hz. unfold no_exn. lra.
    + intros n Hn Hz. unfold no_exn.
      apply Rmult_integral in Hz. destruct Hz as [Hz|Hz].
      * now apply (Hnz n Hn).
      * apply Rinv_neq_0_compat in Hz; [assumption | lra].
  - intros B (_ & -> & _). unfold B_inv_unfloored_doc. f_equal.
    apply tabulate_ext. intros n Hn. unfold unfloored_entry. field.
    split; [apply Hnz; auto | lra].
Qed.

End Unfloored.

(** ** The value of [update_kern_grads] *)

Lemma replace_nth_app {T} (l1 : list T) x y l2 :
  replace_nth (length l1) x (l1 ++ y :: l2) = l1 ++ x :: l2.
Proof. induction l1 as [|z l1 IH]; simpl; [reflexivity | now rewrite IH]. Qed.

Lemma skipn_nth_error {T} (l : list T) m y :
  nth_error l m = Some y -> skipn m l = y :: skipn (S m) l.
Proof.
  revert m. induction l as [|z l IH]; intros [|m] Hm; simpl in *;
    try discriminate.
  - now injection Hm as ->.
  - now apply IH.
Qed.

Lemma tabulate_S {T} n (f : nat -> T) : tabulate (S n) f = tabulate n f ++ [f n].
Proof. unfold tabulate. now rewrite seq_S, map_app. Qed.

Section KernGrads.

Context {E : Externals}.
Variable C : LinAlgContract E.
Variable s0 : OMGP.

Local Abbreviation N := (nrows (self_phi s0)).
Local Abbreviation Kc := (ncols (self_phi s0)).
Local Abbreviation L := (length (self_kern s0)).

Hypothesis variance_pos : 0 < self_variance s0.

(** Per component, for the first loop: covariance matrix, solution, inverse
    and the kernel once its gradient is set. *)
Variables K1 a1 Ai1 : nat -> ndarray.
Variable kern1 : nat -> kernel.

Definition dL_dK_doc (i : nat) : ndarray :=
  smul (1/2) (mk N N (fun a b => get (tdot (a1 i)) a b - get (Ai1 i) a b)).

Definition kernel_graded (i : nat) (kern : kernel) : Prop :=
  (forall n, (n < N)%nat -> get (self_phi s0) n i <> 0) /\
  kern_K kern (self_X s0) = Ok (K1 i) /\
  nrows (K1 i) = N /\ ncols (K1 i) = N /\
  cho_solve (madd (K1 i) (B_inv_unfloored_doc s0 i)) (self_Y s0) = Ok (a1 i) /\
  pdinv (madd (K1 i) (B_inv_unfloored_doc s0 i)) = Ok (Ai1 i) /\
  update_gradients_full kern (dL_dK_doc i) (self_X s0) = Ok (kern1 i).

Lemma kern_grad_step_value l i kern :
  (i < Kc)%nat -> kernel_graded i kern ->
  hoare any_event no_exn (with_kern s0 l) (kern_grad_step tt (i, kern))
        (fun _ s => s = with_kern s0 (replace_nth i (kern1 i) l)).
Proof.
  intros Hi (Hnz & HK & Hr & Hc & Hsolve & Hinv & Hupd). unfold kern_grad_step.
  eapply hoare_bind; [apply hoare_of_spec, spec_get_self|].
  intros s s1 [-> ->]. simpl.
  rewrite HK.
  eapply hoare_bind;
    [apply hoare_of_spec, spec_call; [exact I | discriminate]|].
  intros K' s1 [HK' ->]. injection HK' as <-.
  eapply hoare_bind.
  { apply hoare_of_spec.
    apply (spec_B_inv_unfloored_value (s0 := with_kern s0 l) (i := i));
      assumption. }
  intros B_inv s1 [-> ->].
  change (B_inv_unfloored_doc (with_kern s0 l) i) with (B_inv_unfloored_doc s0 i).
  assert (Hadd : add (K1 i) (B_inv_unfloored_doc s0 i)
                 = Ok (madd (K1 i) (B_inv_unfloored_doc s0 i))).
  { apply add_same_shape; unfold B_inv_unfloored_doc; simpl;
      rewrite length_tabulate; assumption. }
  rewrite Hadd.
  eapply hoare_bind; [apply hoare_of_spec, spec_lift; discriminate|].
  intros A s1 [HA ->]. injection HA as <-.
  rewrite Hsolve.
  eapply hoare_bind;
    [apply hoare_of_spec, spec_call; [exact I | discriminate]|].
  intros alpha s1 [Ha ->]. injection Ha as <-.
  eapply hoare_bind; [apply hoare_of_spec, spec_lift; discriminate|].
  intros A s1 [HA ->]. injection HA as <-.
  rewrite Hinv.
  eapply hoare_bind;
    [apply hoare_of_spec, spec_call; [exact I | discriminate]|].
  intros Ai s1 [HAi ->]. injection HAi as <-.
  destruct (dot_ok _ _ (cho_solve_sound _ _ Hsolve)) as [Hal _].
  destruct (dot_ok _ _ (pdinv_sound _ Hinv)) as [Hir He].
  apply (f_equal ncols) in He. simpl in Hal, Hir, He.
  rewrite sub_same_shape by (simpl; congruence). simpl.
  replace (nrows (a1 i)) with N by congruence.
  eapply hoare_bind; [apply hoare_of_spec, spec_lift; discriminate|].
  intros d s1 [Hd ->]. injection Hd as <-.
  fold (dL_dK_doc i). rewrite Hupd.
  eapply hoare_bind;
    [apply hoare_of_spec, spec_call; [exact I | discriminate]|].
  intros k' s1 [Hk' ->]. injection Hk' as <-.
  eapply hoare_bind; [apply hoare_of_spec, spec_get_self|].
  intros s s1 [-> ->].
  eapply hoare_conseq; [apply hoare_set_kern|].
  intros _ s ->. reflexivity.
Qed.

(** The kernel list once the first [m] kernels have their gradient set. *)
Definition graded_prefix (m : nat) : list kernel :=
  tabulate m kern1 ++ skipn m (self_kern s0).

Hypothesis kernels_match : L = Kc.
Hypothesis kernels_graded :
  forall i kern, nth_error (self_kern s0) i = Some kern -> kernel_graded i kern.

Lemma with_kern_same : with_kern s0 (self_kern s0) = s0.
Proof. destruct s0; reflexivity. Qed.

Lemma kern_grad_loop_value :
  hoare any_event no_exn s0
        (foldM kern_grad_step tt (enumerate (self_kern s0)))
        (fun _ s => s = with_kern s0 (tabulate L kern1)).
Proof.
  eapply hoare_conseq.
  - apply (hoare_foldM (P := any_event) (Qe := no_exn) kern_grad_step
             (fun done _ s => s = with_kern s0 (graded_prefix (length done)))
             (enumerate (self_kern s0)) [] tt (s := s0)).
    + simpl. unfold graded_prefix. simpl. symmetry. apply with_kern_same.
    + intros done [i kern] todo [] s' Heq _ ->. simpl in Heq.
      apply enumerate_split in Heq. destruct Heq as (-> & Hnth & Hlt).
      eapply hoare_conseq.
      * apply kern_grad_step_value; [lia | apply kernels_graded; exact Hnth].
      * intros _ s ->. f_equal. unfold graded_prefix.
        rewrite (skipn_nth_error _ _ Hnth).
        replace (length done) with (length (tabulate (length done) kern1)) at 1
          by apply length_tabulate.
        rewrite replace_nth_app, length_app, Nat.add_1_r, tabulate_S.
        now rewrite <- app_assoc.
  - intros _ s ->. simpl. f_equal. unfold graded_prefix, enumerate.
    rewrite length_combine, length_seq, Nat.min_id.
    rewrite skipn_all. apply app_nil_r.
Qed.

End KernGrads.

Section VarianceLoop.

Context {E : Externals}.
Variable C : LinAlgContract E.
Variable s1 : OMGP.
Variables Ks alphas Ainvs : nat -> ndarray.

Hypothesis variance_pos : 0 < self_variance s1.
Hypothesis floored_nonzero :
  forall n i, (n < nrows (self_phi s1))%nat -> (i < ncols (self_phi s1))%nat ->
    get (self_phi s1) n i + floor <> 0.
Hypothesis kernels_match : length (self_kern s1) = ncols (self_phi s1).
Hypothesis components_inverted :
  forall i kern, nth_error (self_kern s1) i = Some kern ->
    component_inverted s1 Ks alphas Ainvs i kern.

(** The sum over the components of half the trace of dL_dB times
    diag(1 / (phi[:, i] + 1e-6)). *)
Definition variance_gradient_doc : R :=
  sumn (length (self_kern s1)) (variance_contribution s1 alphas Ainvs).

Lemma variance_term_at g i kern :
  nth_error (self_kern s1) i = Some kern ->
  spec any_event no_exn (with_variance_gradient s1 g) (variance_term i kern)
       (fun t => t = variance_contribution s1 alphas Ainvs i).
Proof.
  intros Hnth.
  assert (Hi : (i < ncols (self_phi s1))%nat).
  { rewrite <- kernels_match. apply nth_error_Some. congruence. }
  exact (@variance_term_value E C (with_variance_gradient s1 g)
           variance_pos floored_nonzero Ks alphas Ainvs i kern Hi
           (components_inverted _ Hnth)).
Qed.

Lemma with_variance_gradient_same :
  with_variance_gradient s1 (self_variance_gradient s1) = s1.
Proof. destruct s1; reflexivity. Qed.

(** The gradient attribute after the loop of the source: the running sum,
    unless the loop body never ran. *)
Definition gradient_after (done : list (nat * kernel)) (acc : R) : R :=
  match done with
  | [] => self_variance_gradient s1
  | _ :: _ => acc
  end.

Lemma variance_grad_loop_value :
  hoare any_event no_exn s1
        (foldM variance_grad_step 0 (enumerate (self_kern s1)))
        (fun v s => v = variance_gradient_doc /\
                    s = with_variance_gradient s1
                          (gradient_after (enumerate (self_kern s1)) v)).
Proof.
  eapply hoare_conseq.
  - apply (hoare_foldM (P := any_event) (Qe := no_exn) variance_grad_step
             (fun done v s =>
                v = sumn (length done) (variance_contribution s1 alphas Ainvs) /\
                s = with_variance_gradient s1 (gradient_after done v))
             (enumerate (self_kern s1)) [] 0 (s := s1)).
    + split; [reflexivity|]. simpl. symmetry. apply with_variance_gradient_same.
    + intros done [i kern] todo a s' Heq _ [-> ->]. simpl in Heq.
      apply enumerate_split in Heq. destruct Heq as (-> & Hnth & Hlt).
      unfold variance_grad_step.
      eapply hoare_bind; [apply hoare_of_spec, variance_term_at, Hnth|].
      intros t s [-> ->].
      eapply hoare_bind; [apply hoare_set_variance_gradient|].
      intros _ s ->. apply hoare_ret.
      rewrite length_app, Nat.add_1_r. simpl. split; [reflexivity|].
      destruct done; reflexivity.
  - intros v s [-> ->]. simpl. unfold variance_gradient_doc, enumerate.
    rewrite length_combine, length_seq, Nat.min_id. split; reflexivity.
Qed.

Lemma variance_sum_loop_value :
  spec any_event no_exn s1
       (foldM variance_sum_step 0 (enumerate (self_kern s1)))
       (fun v => v = variance_gradient_doc).
Proof.
  eapply spec_conseq.
  - apply (spec_foldM (P := any_event) (Qe := no_exn) (s0 := s1) variance_sum_step
             (fun done v =>
                v = sumn (length done) (variance_contribution s1 alphas Ainvs))
             (enumerate (self_kern s1)) [] 0 eq_refl).
    intros done [i kern] todo a Heq _ ->. simpl in Heq.
    apply enumerate_split in Heq. destruct Heq as (-> & Hnth & Hlt).
    unfold variance_sum_step.
    assert (Hi : (length done < ncols (self_phi s1))%nat)
      by (rewrite <- kernels_match; exact Hlt).
    eapply spec_bind.
    { exact (variance_term_value C variance_pos floored_nonzero Hi
               (components_inverted _ Hnth)). }
    intros t ->. apply spec_ret.
    rewrite length_app, Nat.add_1_r. reflexivity.
  - intros v ->. simpl. unfold variance_gradient_doc, enumerate.
    rewrite length_combine, length_seq, Nat.min_id. reflexivity.
Qed.

End VarianceLoop.

Lemma nth_error_tabulate {T} n (f : nat -> T) i x :
  nth_error (tabulate n f) i = Some x -> (i < n)%nat /\ x = f i.
Proof.
  intros Hnth.
  assert (Hi : (i < n)%nat).
  { rewrite <- (length_tabulate n f). apply nth_error_Some. congruence. }
  split; [exact Hi|].
  unfold tabulate in Hnth. rewrite nth_error_map, nth_error_seq in Hnth.
  destruct (Nat.ltb_spec i n); [|lia]. simpl in Hnth. congruence.
Qed.

Section UpdateKernGrads.

Context {E : Externals}.
Variable C : LinAlgContract E.
Variable s0 : OMGP.

Local Abbreviation N := (nrows (self_phi s0)).
Local Abbreviation Kc := (ncols (self_phi s0)).
Local Abbreviation L := (length (self_kern s0)).

Variables K1 a1 Ai1 : nat -> ndarray.
Variable kern1 : nat -> kernel.
Variables Ks alphas Ainvs : nat -> ndarray.

Hypothesis variance_pos : 0 < self_variance s0.
Hypothesis floored_nonzero :
  forall n i, (n < N)%nat -> (i < Kc)%nat -> get (self_phi s0) n i + floor <> 0.
Hypothesis kernels_match : L = Kc.
Hypothesis kernels_graded :
  forall i kern, nth_error (self_kern s0) i = Some kern ->
    kernel_graded s0 K1 a1 Ai1 kern1 i kern.
Hypothesis components_inverted :
  forall i, (i < L)%nat -> component_inverted s0 Ks alphas Ainvs i (kern1 i).

(** The model once the kernels have their gradients. *)
Definition graded : OMGP := with_kern s0 (tabulate L kern1).

Lemma graded_components i kern :
  nth_error (self_kern graded) i = Some kern ->
  component_inverted graded Ks alphas Ainvs i kern.
Proof.
  simpl. intros Hnth. apply nth_error_tabulate in Hnth.
  destruct Hnth as [Hi ->]. exact (components_inverted Hi).
Qed.

Lemma graded_kernels_match : length (self_kern graded) = ncols (self_phi graded).
Proof. simpl. rewrite length_tabulate. exact kernels_match. Qed.

Lemma update_kern_grads_value :
  hoare any_event no_exn s0 update_kern_grads
        (fun _ s =>
           s = with_variance_gradient graded
                 (gradient_after graded (enumerate (self_kern graded))
                    (variance_gradient_doc graded alphas Ainvs))).
Proof.
  unfold update_kern_grads.
  eapply hoare_bind; [apply hoare_of_spec, spec_get_self|].
  intros s s' [-> ->].
  eapply hoare_bind;
    [apply (kern_grad_loop_value C variance_pos kernels_match kernels_graded)|].
  intros _ s ->. fold graded.
  eapply hoare_bind; [apply hoare_of_spec, spec_get_self|].
  intros s s' [-> ->].
  eapply hoare_bind.
  { apply (@variance_grad_loop_value E C graded Ks alphas Ainvs variance_pos
             floored_nonzero graded_kernels_match graded_components). }
  intros v s [-> ->]. apply hoare_ret. reflexivity.
Qed.

Lemma update_kern_grads_assign_after_value :
  hoare any_event no_exn s0 update_kern_grads_assign_after
        (fun _ s =>
           s = with_variance_gradient graded
                 (variance_gradient_doc graded alphas Ainvs)).
Proof.
  unfold update_kern_grads_assign_after.
  eapply hoare_bind; [apply hoare_of_spec, spec_get_self|].
  intros s s' [-> ->].
  eapply hoare_bind;
    [apply (kern_grad_loop_value C variance_pos kernels_match kernels_graded)|].
  intros _ s ->. fold graded.
  eapply hoare_bind; [apply hoare_of_spec, spec_get_self|].
  intros s s' [-> ->].
  eapply hoare_bind.
  { apply hoare_of_spec.
    apply (@variance_sum_loop_value E C graded Ks alphas Ainvs variance_pos
             floored_nonzero graded_kernels_match graded_components). }
  intros v s [-> ->].
  eapply hoare_bind; [apply hoare_set_variance_gradient|].
  intros _ s ->. apply hoare_ret. reflexivity.
Qed.

End UpdateKernGrads.

(** ** The value of [predict] *)

Section PredictValue.

Context {E : Externals}.
Variable C : LinAlgContract E.
Variable s0 : OMGP.
Variable Xnew : ndarray.
Variable i : Z.

(** The component addressed by [i], its kernel and what the collaborators
    return for it. *)
Variable c : nat.
Variable kern : kernel.
Variables Kmat kx kxx sy sk : ndarray.

Definition predict_system : ndarray := madd Kmat (B_inv_unfloored_doc s0 c).

Definition predicted_mean : ndarray := matmul (transpose kx) sy.

Definition predicted_variance : ndarray :=
  mk (nrows kxx) (ncols kxx)
     (fun a b => self_variance s0 + get kxx a b
                 - get (matmul (transpose kx) sk) a b).

Hypothesis variance_pos : 0 < self_variance s0.
Hypothesis kernels_match : length (self_kern s0) = ncols (self_phi s0).
Hypothesis index_ok : py_index (length (self_kern s0)) i = Ok c.
Hypothesis kern_ok : nth_error (self_kern s0) c = Some kern.
Hypothesis phi_nonzero :
  forall n, (n < nrows (self_phi s0))%nat -> get (self_phi s0) n c <> 0.
Hypothesis K_ok : kern_K kern (self_X s0) = Ok Kmat.
Hypothesis K_shape :
  nrows Kmat = nrows (self_phi s0) /\ ncols Kmat = nrows (self_phi s0).
Hypothesis kx_ok : kern_K2 kern (self_X s0) Xnew = Ok kx.
Hypothesis kx_shape : nrows kx = nrows (self_phi s0).
Hypothesis kxx_ok : kern_K2 kern Xnew Xnew = Ok kxx.
Hypothesis kxx_shape : nrows kxx = ncols kx /\ ncols kxx = ncols kx.
Hypothesis sy_ok : linalg_solve predict_system (self_Y s0) = Ok sy.
Hypothesis sk_ok : linalg_solve predict_system kx = Ok sk.

Lemma predict_index_lt : (c < ncols (self_phi s0))%nat.
Proof. rewrite <- kernels_match. apply nth_error_Some. congruence. Qed.

Lemma predict_value :
  spec any_event no_exn s0 (predict Xnew i)
       (fun r => r = (predicted_mean, predicted_variance)).
Proof.
  destruct K_shape as [Hr Hc]. destruct kxx_shape as [Hxr Hxc].
  pose proof predict_index_lt as Hlt.
  unfold predict.
  eapply spec_bind; [apply spec_get_self|]. intros s ->.
  unfold getitem. rewrite index_ok. simpl. rewrite kern_ok.
  eapply spec_bind; [apply spec_lift; discriminate|].
  intros k Hk. injection Hk as <-.
  rewrite K_ok.
  eapply spec_bind; [apply spec_call; [exact I | discriminate]|].
  intros K' HK'. injection HK' as <-.
  rewrite kx_ok.
  eapply spec_bind; [apply spec_call; [exact I | discriminate]|].
  intros kx' Hkx. injection Hkx as <-.
  rewrite <- kernels_match, index_ok.
  eapply spec_bind; [apply spec_lift; discriminate|].
  intros c' Hc'. injection Hc' as <-.
  eapply spec_bind;
    [apply spec_B_inv_unfloored_value; [exact variance_pos | exact Hlt | exact phi_nonzero]|].
  intros B_inv ->.
  assert (Hadd : add Kmat (B_inv_unfloored_doc s0 c) = Ok predict_system).
  { apply add_same_shape; unfold B_inv_unfloored_doc; simpl;
      rewrite length_tabulate; assumption. }
  rewrite Hadd.
  eapply spec_bind; [apply spec_lift; discriminate|].
  intros A HA. injection HA as <-.
  rewrite sy_ok.
  eapply spec_bind; [apply spec_call; [exact I | discriminate]|].
  intros sy' Hsy. injection Hsy as <-.
  destruct (dot_ok _ _ (linalg_solve_sound _ _ sy_ok)) as [Hsyr _].
  destruct (dot_ok _ _ (linalg_solve_sound _ _ sk_ok)) as [Hskr Hkx].
  simpl in Hsyr, Hskr.
  assert (Hmu : dot (transpose kx) sy = Ok predicted_mean).
  { unfold dot. simpl. rewrite kx_shape, <- Hsyr, Hc, Nat.eqb_refl. reflexivity. }
  rewrite Hmu.
  eapply spec_bind; [apply spec_lift; discriminate|].
  intros mu Hmu'. injection Hmu' as <-.
  rewrite kxx_ok.
  eapply spec_bind; [apply spec_call; [exact I | discriminate]|].
  intros kxx' Hkxx. injection Hkxx as <-.
  eapply spec_bind; [apply spec_lift; discriminate|].
  intros A HA. injection HA as <-.
  rewrite sk_ok.
  eapply spec_bind; [apply spec_call; [exact I | discriminate]|].
  intros sk' Hsk. injection Hsk as <-.
  assert (Hq : dot (transpose kx) sk = Ok (matmul (transpose kx) sk)).
  { unfold dot. simpl. rewrite kx_shape, <- Hskr, Hc, Nat.eqb_refl. reflexivity. }
  rewrite Hq.
  eapply spec_bind; [apply spec_lift; discriminate|].
  intros q Hq'. injection Hq' as <-.
  assert (Hsk_cols : ncols sk = ncols kx)
    by (rewrite Hkx; reflexivity).
  rewrite sub_same_shape by (simpl; congruence). simpl.
  eapply spec_bind; [apply spec_lift; discriminate|].
  intros va Hva. injection Hva as <-.
  apply spec_ret. unfold predicted_variance. f_equal.
  apply mk_ext. intros a b Ha Hb. unfold sadd. rewrite get_mk by assumption.
  reflexivity.
Qed.

End PredictValue.

(** ** The effect of [do_computations] *)

Section Reconcile.

Context {E : Externals}.

(** Unlinking a list of kernels, one after the other. *)
Fixpoint unlink_all (reg : registry) (l : list kernel) : result registry :=
  match l with
  | [] => Ok reg
  | k :: l' => rbind (unlink_parameter reg k) (fun reg' => unlink_all reg' l')
  end.

Lemma with_parameters_same s : with_parameters s (self_parameters s) = s.
Proof. destruct s; reflexivity. Qed.

Lemma unlink_loop_value l :
  forall s reg',
  unlink_all (self_parameters s) l = Ok reg' ->
  hoare any_event no_exn s
        (forM_ l (fun kern =>
           s3 <- get_self ;;
           reg <- call F_unlink_parameter (unlink_parameter (self_parameters s3) kern) ;;
           set_parameters reg))
        (fun _ s' => s' = with_parameters s reg').
Proof.
  induction l as [|k l IH]; intros s reg' Hall; simpl in Hall.
  - injection Hall as <-. apply hoare_ret. symmetry. apply with_parameters_same.
  - destruct (unlink_parameter (self_parameters s) k) as [r1|e] eqn:Hun;
      [|discriminate].
    simpl in Hall. unfold forM_. simpl.
    eapply hoare_bind.
    { eapply hoare_bind; [apply hoare_of_spec, spec_get_self|].
      intros s3 s' [-> ->]. rewrite Hun.
      eapply hoare_bind;
        [apply hoare_of_spec, spec_call; [exact I | discriminate]|].
      intros reg s' [Hreg ->]. injection Hreg as <-.
      apply hoare_set_parameters. }
    intros [] s1 ->.
    eapply hoare_conseq; [apply (IH (with_parameters s r1) reg' Hall)|].
    intros _ s' ->. reflexivity.
Qed.

Lemma getitem_last {T} (l : list T) (x : T) : getitem (l ++ [x]) (-1) = Ok x.
Proof.
  unfold getitem, py_index. rewrite length_app. simpl.
  replace (0 <=? -1)%Z with false by reflexivity. simpl.
  destruct (Z.leb_spec (- Z.of_nat (length l + 1)) (-1)) as [_|Hlt]; [|lia].
  simpl.
  replace (Z.to_nat (Z.of_nat (length l + 1) + -1)) with (length l) by lia.
  rewrite nth_error_app2, Nat.sub_diag by lia. reflexivity.
Qed.

Variable s0 : OMGP.

(** Growing: the list is shorter than the target. *)
Lemma do_computations_grows init last reg' :
  self_kern s0 = init ++ [last] ->
  (length (self_kern s0) < self_K s0)%nat ->
  link_parameter (self_parameters s0) (kern_copy last) = Ok reg' ->
  hoare any_event no_exn s0 do_computations
        (fun _ s => s = with_parameters
                          (with_kern s0 (self_kern s0 ++ [kern_copy last])) reg').
Proof.
  intros Hkern Hlt Hlink. unfold do_computations.
  eapply hoare_bind; [apply hoare_of_spec, spec_get_self|].
  intros s s' [-> ->].
  destruct (Nat.ltb_spec (length (self_kern s0)) (self_K s0)) as [_|Hge]; [|lia].
  eapply hoare_bind.
  { rewrite Hkern at 1. rewrite getitem_last.
    eapply hoare_bind; [apply hoare_of_spec, spec_lift; discriminate|].
    intros l s' [Hl ->]. injection Hl as <-.
    eapply hoare_bind; [apply hoare_set_kern|].
    intros _ s' ->.
    eapply hoare_bind; [apply hoare_of_spec, spec_get_self|].
    intros s1 s' [-> ->]. simpl. rewrite getitem_last.
    eapply hoare_bind; [apply hoare_of_spec, spec_lift; discriminate|].
    intros new s' [Hnew ->]. injection Hnew as <-.
    rewrite Hlink.
    eapply hoare_bind;
      [apply hoare_of_spec, spec_call; [exact I | discriminate]|].
    intros reg s' [Hreg ->]. injection Hreg as <-.
    apply hoare_set_parameters. }
  intros _ s ->.
  eapply hoare_bind; [apply hoare_of_spec, spec_get_self|].
  intros s2 s' [-> ->]. simpl.
  destruct (Nat.ltb_spec (self_K s0) (length (self_kern s0 ++ [kern_copy last])))
    as [Hlt'|_].
  - rewrite length_app in Hlt'. simpl in Hlt'. lia.
  - apply hoare_ret. reflexivity.
Qed.

(** Nothing to do: the list has the target length. *)
Lemma do_computations_keeps :
  length (self_kern s0) = self_K s0 ->
  hoare any_event no_exn s0 do_computations (fun _ s => s = s0).
Proof.
  intros Heq. unfold do_computations.
  eapply hoare_bind; [apply hoare_of_spec, spec_get_self|].
  intros s s' [-> ->].
  destruct (Nat.ltb_spec (length (self_kern s0)) (self_K s0)) as [Hlt|_]; [lia|].
  eapply hoare_bind;
    [apply hoare_ret with (Q := fun (_ : unit) s => s = s0); reflexivity|].
  intros _ s ->.
  eapply hoare_bind; [apply hoare_of_spec, spec_get_self|].
  intros s2 s' [-> ->].
  destruct (Nat.ltb_spec (self_K s0) (length (self_kern s0))) as [Hlt|_]; [lia|].
  apply hoare_ret. reflexivity.
Qed.

(** Shrinking: the list is longer than the target. *)
Lemma do_computations_shrinks reg' :
  (self_K s0 < length (self_kern s0))%nat ->
  unlink_all (self_parameters s0) (skipn (self_K s0) (self_kern s0)) = Ok reg' ->
  hoare any_event no_exn s0 do_computations
        (fun _ s => s = with_kern (with_parameters s0 reg')
                                  (firstn (self_K s0) (self_kern s0))).
Proof.
  intros Hlt Hall. unfold do_computations.
  eapply hoare_bind; [apply hoare_of_spec, spec_get_self|].
  intros s s' [-> ->].
  destruct (Nat.ltb_spec (length (self_kern s0)) (self_K s0)) as [Hlt'|_]; [lia|].
  eapply hoare_bind;
    [apply hoare_ret with (Q := fun (_ : unit) s => s = s0); reflexivity|].
  intros _ s ->.
  eapply hoare_bind; [apply hoare_of_spec, spec_get_self|].
  intros s2 s' [-> ->].
  destruct (Nat.ltb_spec (self_K s0) (length (self_kern s0))) as [_|Hge]; [|lia].
  eapply hoare_bind; [apply unlink_loop_value; exact Hall|].
  intros _ s ->.
  eapply hoare_bind; [apply hoare_of_spec, spec_get_self|].
  intros s4 s' [-> ->]. simpl.
  apply hoare_set_kern.
Qed.

End Reconcile.

(** ** A small instance of the collaborators

    A bias kernel (constant covariance), a registry kept as a list, Cramer's
    rule for systems of one and two unknowns, and a flat mixing prior.  It
    serves to run the methods on concrete models. *)

Lemma mk_get A : wf A -> mk (nrows A) (ncols A) (get A) = A.
Proof.
  destruct A as [r c d]. unfold wf, mk, get. simpl. intros Hlen. f_equal.
  apply nth_ext with (d := 0) (d' := 0).
  - now rewrite flat_rows_length.
  - intros n Hn. rewrite flat_rows_length in Hn.
    assert (Hc : (c <> 0)%nat) by (intros ->; lia).
    rewrite (Nat.div_mod_eq n c) at 1.
    rewrite (Nat.mul_comm c (n / c)).
    rewrite flat_rows_nth.
    + simpl. f_equal. rewrite (Nat.div_mod_eq n c) at 3. lia.
    + apply Nat.Div0.div_lt_upper_bound. lia.
    + now apply Nat.mod_upper_bound.
Qed.

Module Small.

Record bias_kernel : Type := mkbias {
  bias_variance : R;
  bias_gradient : R
}.

Lemma bias_eq_dec (a b : bias_kernel) : {a = b} + {a <> b}.
Proof. decide equality; apply Req_dec_T. Qed.

Definition bias_K (k : bias_kernel) (X : ndarray) : result ndarray :=
  Ok (mk (nrows X) (nrows X) (fun _ _ => bias_variance k)).

Definition bias_K2 (k : bias_kernel) (X X2 : ndarray) : result ndarray :=
  Ok (mk (nrows X) (nrows X2) (fun _ _ => bias_variance k)).

(** The gradient of a bias kernel is the sum of the entries of dL_dK. *)
Definition bias_update (k : bias_kernel) (dL_dK X : ndarray) : result bias_kernel :=
  Ok (mkbias (bias_variance k)
             (sumn (nrows dL_dK) (fun i => sumn (ncols dL_dK) (fun j => get dL_dK i j)))).

Definition list_link (reg : list bias_kernel) (k : bias_kernel)
  : result (list bias_kernel) := Ok (reg ++ [k]).

Fixpoint list_unlink (reg : list bias_kernel) (k : bias_kernel)
  : result (list bias_kernel) :=
  match reg with
  | [] => Err HierarchyError
  | k' :: reg' =>
      if bias_eq_dec k' k then Ok reg'
      else rbind (list_unlink reg' k) (fun r => Ok (k' :: r))
  end.

(** Cramer's rule, for one and two unknowns. *)
Definition det2 (A : ndarray) : R :=
  get A 0 0 * get A 1 1 - get A 0 1 * get A 1 0.

Definition solve1 (A B : ndarray) : ndarray :=
  mk 1 (ncols B) (fun _ j => get B 0 j / get A 0 0).

Definition solve2 (A B : ndarray) : ndarray :=
  mk 2 (ncols B) (fun i j =>
    if (i =? 0)%nat
    then (get A 1 1 * get B 0 j - get A 0 1 * get B 1 j) / det2 A
    else (get A 0 0 * get B 1 j - get A 1 0 * get B 0 j) / det2 A).

Definition small_solve (A B : ndarray) : result ndarray :=
  if (ncols A =? nrows A)%nat && (nrows B =? nrows A)%nat
     && (length (data B) =? nrows B * ncols B)%nat
  then match nrows A with
       | 1%nat => if Req_dec_T (get A 0 0) 0 then Err LinAlgError
                  else Ok (solve1 A B)
       | 2%nat => if Req_dec_T (det2 A) 0 then Err LinAlgError
                  else Ok (solve2 A B)
       | _ => Err LinAlgError
       end
  else Err LinAlgError.

(** Positive definiteness, by the leading minors. *)
Definition small_pd (A : ndarray) : bool :=
  match nrows A with
  | 1%nat => if Rlt_dec 0 (get A 0 0) then true else false
  | 2%nat => if Rlt_dec 0 (get A 0 0)
             then if Rlt_dec 0 (det2 A) then true else false
             else false
  | _ => false
  end.

Definition small_cho_solve (A B : ndarray) : result ndarray :=
  if small_pd A then small_solve A B else Err LinAlgError.

Definition small_pdinv (A : ndarray) : result ndarray :=
  if small_pd A then small_solve A (eye (nrows A)) else Err LinAlgError.

Definition small_slogdet (A : ndarray) : result (R * R) :=
  if Req_dec_T (det A) 0 then Err NonFinite
  else Ok (if Rlt_dec 0 (det A) then 1 else -1, ln (Rabs (det A))).

#[export] Instance externals : Externals := {|
  kernel := bias_kernel;
  registry := list bias_kernel;
  kern_K := bias_K;
  kern_K2 := bias_K2;
  kern_copy := fun k => k;
  update_gradients_full := bias_update;
  link_parameter := list_link;
  unlink_parameter := list_unlink;
  cho_solve := small_cho_solve;
  linalg_solve := small_solve;
  pdinv := small_pdinv;
  slogdet := small_slogdet;
  mixing_prop_bound := fun _ => Ok 0;
  mixing_prop_bound_grad := fun phi => Ok (zeros_like phi)
|}.

Lemma small_solve_sound A B S : small_solve A B = Ok S -> dot A S = Ok B.
Proof.
  unfold small_solve.
  destruct (Nat.eqb_spec (ncols A) (nrows A)) as [Hsq|]; [|discriminate].
  destruct (Nat.eqb_spec (nrows B) (nrows A)) as [Hb|]; [|discriminate].
  destruct (Nat.eqb_spec (length (data B)) (nrows B * ncols B)) as [Hwf|];
    [|discriminate].
  simpl.
  destruct (nrows A) as [|[|[|n]]] eqn:Hn; try discriminate.
  - destruct (Req_dec_T (get A 0 0) 0) as [|Hnz]; [discriminate|].
    injection 1 as <-. unfold dot, matmul, solve1. simpl.
    rewrite Hsq, Hn, Nat.eqb_refl. f_equal.
    transitivity (mk (nrows B) (ncols B) (get B)); [|apply mk_get; exact Hwf].
    rewrite Hb. apply mk_ext.
    intros i j Hi Hj. assert (i = 0)%nat as -> by lia. simpl.
    rewrite get_mk by lia. field. exact Hnz.
  - destruct (Req_dec_T (det2 A) 0) as [|Hnz]; [discriminate|].
    injection 1 as <-. unfold dot, matmul, solve2. simpl.
    rewrite Hsq, Hn, Nat.eqb_refl. f_equal.
    transitivity (mk (nrows B) (ncols B) (get B)); [|apply mk_get; exact Hwf].
    rewrite Hb. apply mk_ext.
    intros i j Hi Hj. simpl. rewrite !get_mk by lia. simpl.
    unfold det2 in *.
    destruct i as [|[|i]]; [| |lia]; simpl; field; exact Hnz.
Qed.

#[export] Instance contract : LinAlgContract externals.
Proof.
  constructor; simpl.
  - intros A B S. unfold small_cho_solve.
    destruct (small_pd A); [apply small_solve_sound | discriminate].
  - apply small_solve_sound.
  - intros A Ai. unfold small_pdinv.
    destruct (small_pd A); [apply small_solve_sound | discriminate].
  - intros A sg ld. unfold small_slogdet.
    destruct (Req_dec_T (det A) 0); [discriminate|].
    now injection 1 as _ <-.
Qed.

End Small.

(** When the small solvers succeed. *)
Section SmallSuccess.

Import Small.

Lemma small_solve_1 A B :
  nrows A = 1%nat -> ncols A = 1%nat -> nrows B = 1%nat -> wf B ->
  get A 0 0 <> 0 -> small_solve A B = Ok (solve1 A B).
Proof.
  intros Hr Hc Hb Hwf Hnz. unfold small_solve, wf in *.
  rewrite Hr, Hc, Hb, Hwf, Hb, !Nat.eqb_refl. simpl.
  destruct (Req_dec_T (get A 0 0) 0); [contradiction | reflexivity].
Qed.

Lemma small_solve_2 A B :
  nrows A = 2%nat -> ncols A = 2%nat -> nrows B = 2%nat -> wf B ->
  det2 A <> 0 -> small_solve A B = Ok (solve2 A B).
Proof.
  intros Hr Hc Hb Hwf Hnz. unfold small_solve, wf in *.
  rewrite Hr, Hc, Hb, Hwf, Hb, !Nat.eqb_refl. simpl.
  destruct (Req_dec_T (det2 A) 0); [contradiction | reflexivity].
Qed.

Lemma small_pd_1 A : nrows A = 1%nat -> 0 < get A 0 0 -> small_pd A = true.
Proof.
  intros Hr Hpos. unfold small_pd. rewrite Hr.
  destruct (Rlt_dec 0 (get A 0 0)); [reflexivity | contradiction].
Qed.

Lemma small_pd_2 A :
  nrows A = 2%nat -> 0 < get A 0 0 -> 0 < det2 A -> small_pd A = true.
Proof.
  intros Hr Hpos Hdet. unfold small_pd. rewrite Hr.
  destruct (Rlt_dec 0 (get A 0 0)); [|contradiction].
  destruct (Rlt_dec 0 (det2 A)); [reflexivity | contradiction].
Qed.

Lemma det_1 A : nrows A = 1%nat -> det A = get A 0 0.
Proof. intros Hr. unfold det. rewrite Hr. simpl. ring. Qed.

Lemma det_2 A : nrows A = 2%nat -> det A = det2 A.
Proof. intros Hr. unfold det, det2. rewrite Hr. simpl. ring. Qed.

Lemma small_slogdet_ok A : det A <> 0 -> exists sl, small_slogdet A = Ok sl.
Proof.
  intros Hnz. unfold small_slogdet.
  destruct (Req_dec_T (det A) 0); [contradiction | eauto].
Qed.

End SmallSuccess.

(** ** Concrete models *)

Module Example.

Import Small.

Definition k1 : bias_kernel := mkbias 1 0.

(** One data point, two components with equal responsibilities. *)
Definition two_components : OMGP :=
  mkOMGP (mkarray 1 1 [0]) (mkarray 1 1 [1]) 1 1 2
         (mkarray 1 2 [1/2; 1/2]) 0 (mkarray 1 2 [0; 0])
         [k1; k1] 1 0 [k1; k1].

Definition w_two : World := mkWorld two_components [].

(** The covariance matrix of [k1] on one input, and the systems solved. *)
Definition K_one : ndarray := mk 1 1 (fun _ _ => 1).

Definition system_two (i : nat) : ndarray :=
  madd K_one (B_inv_doc two_components i).

Definition alpha_two (i : nat) : ndarray :=
  solve1 (system_two i) (self_Y two_components).

Definition inverse_two (i : nat) : ndarray :=
  solve1 (system_two i) (eye 1).

(** The same two components with a point that belongs to the second one
    only: the first column of phi is zero. *)
Definition hard_assignment : OMGP :=
  mkOMGP (mkarray 1 1 [0]) (mkarray 1 1 [1]) 1 1 2
         (mkarray 1 2 [0; 1]) 0 (mkarray 1 2 [0; 0])
         [k1; k1] 1 0 [k1; k1].

Definition w_hard : World := mkWorld hard_assignment [].

(** Two observations and two rows of responsibilities for a single input
    location: X has one row where N is two. *)
Definition short_X : OMGP :=
  mkOMGP (mkarray 1 1 [0]) (mkarray 2 1 [1; 2]) 1 2 1
         (mkarray 2 1 [1; 1]) 0 (mkarray 2 1 [0; 0])
         [k1] 1 0 [k1].

Definition w_short : World := mkWorld short_X [].

(** One kernel where three components are asked for. *)
Definition one_of_three : OMGP :=
  mkOMGP (mkarray 1 1 [0]) (mkarray 1 1 [1]) 1 1 3
         (mkarray 1 3 [1/3; 1/3; 1/3]) 0 (mkarray 1 3 [0; 0; 0])
         [k1] 1 0 [k1].

Definition w_one_of_three : World := mkWorld one_of_three [].

(** Three kernels where one component is asked for. *)
Definition three_of_one : OMGP :=
  mkOMGP (mkarray 1 1 [0]) (mkarray 1 1 [1]) 1 1 1
         (mkarray 1 1 [1]) 0 (mkarray 1 1 [0])
         [k1; k1; k1] 1 0 [k1; k1; k1].

(** No kernel at all, and a variance gradient left by an earlier call. *)
Definition no_kernel : OMGP :=
  mkOMGP (mkarray 1 1 [0]) (mkarray 1 1 [1]) 1 1 0
         (mkarray 1 0 []) 0 (mkarray 1 0 [])
         [] 1 5 [].

Definition w_no_kernel : World := mkWorld no_kernel [].

End Example.

(** ** The claims *)

Lemma spec_returns {E : Externals} {A} P s0 (m : M A) (Qv : A -> Prop) w :
  spec P no_exn s0 m Qv -> self w = s0 ->
  exists a, fst (m w) = Ok a /\ Qv a.
Proof.
  intros Hm Hw. destruct (Hm w Hw) as (_ & _ & Ho).
  destruct (fst (m w)) as [a|e]; simpl in Ho; [eauto | contradiction].
Qed.

Lemma hoare_returns {E : Externals} {A} P s0 (m : M A) (Q : A -> OMGP -> Prop) w :
  hoare P no_exn s0 m Q -> self w = s0 ->
  exists a, fst (m w) = Ok a /\ Q a (self (snd (m w))).
Proof.
  intros Hm Hw. destruct (Hm w Hw) as (_ & Ho).
  destruct (fst (m w)) as [a|e]; [eauto | contradiction].
Qed.

(** C1.  For a model with as many kernels as phi has columns and a positive
    variance, [bound()] returns the sum over the components of the data-fit
    term -1/2 trace(Y^T alpha_i), the penalty -1/2 log|K_i + B_inv_i| and
    the constant -1/2 sum_n phi[n,i] log(2 pi variance), plus the
    mixing-proportion bound and the entropy H; here B_inv_i is
    diag(variance / (phi[:,i] + 1e-6)) and alpha_i solves
    (K_i + B_inv_i) alpha = Y. *)
Theorem bound_is_sum_of_component_terms
    (E : Externals) (C : LinAlgContract E) (w : World)
    (Ks alphas : nat -> ndarray) (mpb : R) :
  let s := self w in
  0 < self_variance s ->
  length (self_kern s) = ncols (self_phi s) ->
  (forall n i, (n < nrows (self_phi s))%nat -> (i < ncols (self_phi s))%nat ->
     get (self_phi s) n i + floor <> 0) ->
  (forall i kern, nth_error (self_kern s) i = Some kern ->
     component_solved s i kern (Ks i) (alphas i)) ->
  mixing_prop_bound (self_phi s) = Ok mpb ->
  fst (bound w) =
    Ok (sumn (length (self_kern s))
          (fun i => data_fit s (alphas i)
                    + penalty (madd (Ks i) (B_inv_doc s i))
                    + noise_constant s i)
        + mpb + self_H s) /\
  forall i, (i < length (self_kern s))%nat ->
    dot (madd (Ks i) (B_inv_doc s i)) (alphas i) = Ok (self_Y s).
Proof.
  intros s Hv Hlen Hnz Hcomp Hmpb. split.
  - assert (Hrun : forall i kern, nth_error (self_kern s) i = Some kern ->
               component_run s i kern (madd (Ks i) (B_inv_doc s i)) (alphas i)).
    { intros i kern Hnth.
      apply (component_solved_run C). apply Hcomp, Hnth. }
    destruct (spec_returns w
                (bound_value Hv Hnz C (fun i => madd (Ks i) (B_inv_doc s i))
                   alphas Hlen Hrun Hmpb) eq_refl)
      as (v & Hret & ->).
    exact Hret.
  - intros i Hi.
    destruct (nth_error (self_kern s) i) as [kern|] eqn:Hnth.
    + destruct (Hcomp i kern Hnth) as (_ & _ & _ & Hsolve & _).
      apply (cho_solve_sound _ _ Hsolve).
    + apply nth_error_None in Hnth. lia.
Qed.

(** Facts on the model with two components. *)
Section TwoComponents.

Import Small Example.

Lemma two_floored_nonzero n i :
  (n < nrows (self_phi two_components))%nat ->
  (i < ncols (self_phi two_components))%nat ->
  get (self_phi two_components) n i + floor <> 0.
Proof.
  simpl. intros Hn Hi.
  assert (n = 0)%nat as -> by lia.
  destruct i as [|[|i]]; [| |lia]; cbn; unfold floor; lra.
Qed.

Lemma two_variance_pos : 0 < self_variance two_components.
Proof. simpl. lra. Qed.

Lemma two_system_pos i : (i < 2)%nat -> 0 < get (system_two i) 0 0.
Proof.
  intros Hi. destruct i as [|[|i]]; [| |lia]; cbn; unfold floor; lra.
Qed.

Lemma two_cho_solve i :
  (i < 2)%nat ->
  small_cho_solve (system_two i) (self_Y two_components) = Ok (alpha_two i).
Proof.
  intros Hi. unfold small_cho_solve.
  rewrite small_pd_1 by (try reflexivity; now apply two_system_pos).
  apply small_solve_1; try reflexivity.
  apply Rgt_not_eq, two_system_pos, Hi.
Qed.

Lemma two_solve i :
  (i < 2)%nat ->
  small_solve (system_two i) (self_Y two_components) = Ok (alpha_two i).
Proof.
  intros Hi. apply small_solve_1; try reflexivity.
  apply Rgt_not_eq, two_system_pos, Hi.
Qed.

Lemma two_pdinv i :
  (i < 2)%nat -> small_pdinv (system_two i) = Ok (inverse_two i).
Proof.
  intros Hi. unfold small_pdinv.
  rewrite small_pd_1 by (try reflexivity; now apply two_system_pos).
  apply small_solve_1; try reflexivity.
  apply Rgt_not_eq, two_system_pos, Hi.
Qed.

Lemma two_slogdet i :
  (i < 2)%nat -> exists sl, small_slogdet (system_two i) = Ok sl.
Proof.
  intros Hi. apply small_slogdet_ok. rewrite det_1 by reflexivity.
  apply Rgt_not_eq, two_system_pos, Hi.
Qed.

Lemma two_kernel_index i kern :
  nth_error (self_kern two_components) i = Some kern -> (i < 2)%nat /\ kern = k1.
Proof.
  simpl. destruct i as [|[|i]]; simpl.
  - injection 1 as <-. split; [lia | reflexivity].
  - injection 1 as <-. split; [lia | reflexivity].
  - destruct i; discriminate.
Qed.

Lemma two_components_solved i kern :
  nth_error (self_kern two_components) i = Some kern ->
  component_solved two_components i kern K_one (alpha_two i).
Proof.
  intros Hnth. apply two_kernel_index in Hnth. destruct Hnth as [Hi ->].
  repeat split.
  - now apply two_cho_solve.
  - now apply two_slogdet.
Qed.

Lemma two_components_inverted i kern :
  nth_error (self_kern two_components) i = Some kern ->
  component_inverted two_components (fun _ => K_one) alpha_two inverse_two i kern.
Proof.
  intros Hnth. apply two_kernel_index in Hnth. destruct Hnth as [Hi ->].
  repeat split.
  - now apply two_solve.
  - now apply two_pdinv.
Qed.

End TwoComponents.

Lemma bound_is_sum_of_component_terms_witness :
  fst (bound Example.w_two) =
    Ok (sumn 2
          (fun i => data_fit Example.two_components (Example.alpha_two i)
                    + penalty (Example.system_two i)
                    + noise_constant Example.two_components i)
        + 0 + 0) /\
  forall i, (i < 2)%nat ->
    dot (Example.system_two i) (Example.alpha_two i)
    = Ok (self_Y Example.two_components).
Proof.
  apply (@bound_is_sum_of_component_terms Small.externals Small.contract
           Example.w_two (fun _ => Example.K_one) Example.alpha_two 0).
  - exact two_variance_pos.
  - reflexivity.
  - exact two_floored_nonzero.
  - exact two_components_solved.
  - reflexivity.
Defined.

(** C9.  [bound()] and [vb_grad_natgrad()] only read the model: whatever
    they return or raise, X, Y, phi, the kernel list, the variance and every
    other attribute are afterwards what they were before. *)
Theorem bound_and_natgrad_leave_model_unchanged (E : Externals) (w : World) :
  self (snd (bound w)) = self w /\
  self (snd (vb_grad_natgrad w)) = self w.
Proof.
  assert (Hcall : forall f, any_event (EvCall f)) by (intros; exact I).
  split.
  - apply (@bound_events E any_event (self w) Hcall); try exact I.
    + intros n i _ _. split; exact I.
    + reflexivity.
  - apply (@vb_grad_natgrad_events E any_event (self w) Hcall).
    + intros n i _ _. split; exact I.
    + intros n i _ _. exact I.
    + reflexivity.
Qed.

(** Every entry of the array is non-negative. *)
Definition nonnegative (A : ndarray) : Prop :=
  forall n i, (n < nrows A)%nat -> (i < ncols A)%nat -> 0 <= get A n i.

(** The event is not a division, or its denominator is positive. *)
Definition positive_denominator (ev : event) : Prop :=
  match ev with
  | EvDiv _ den => 0 < den
  | _ => True
  end.

(** C10.  For a non-negative phi and a positive variance, every division
    that [vb_grad_natgrad()] performs has a positive denominator: the
    variance, (phi[n,i] + 1e-6) / variance in the precision matrix and
    phi[n,i]^2 + 1e-6 in the one-hot perturbation. *)
Theorem natgrad_divides_by_positive (E : Externals) (w : World) :
  let s := self w in
  nonnegative (self_phi s) ->
  0 < self_variance s ->
  (forall n i, (n < nrows (self_phi s))%nat -> (i < ncols (self_phi s))%nat ->
     0 < (get (self_phi s) n i + floor) / self_variance s /\
     0 < get (self_phi s) n i ^ 2 + floor) /\
  exists tr, events (snd (vb_grad_natgrad w)) = tr ++ events w /\
             Forall positive_denominator tr.
Proof.
  intros s Hphi Hv.
  assert (Hfloor : 0 < floor) by (unfold floor; lra).
  assert (Hden : forall n i, (n < nrows (self_phi s))%nat ->
                             (i < ncols (self_phi s))%nat ->
            0 < (get (self_phi s) n i + floor) / self_variance s /\
            0 < get (self_phi s) n i ^ 2 + floor).
  { intros n i Hn Hi. pose proof (Hphi n i Hn Hi) as Hge. split.
    - apply Rdiv_lt_0_compat; lra.
    - pose proof (pow2_ge_0 (get (self_phi s) n i)). lra. }
  split; [exact Hden|].
  assert (Hcall : forall f, positive_denominator (EvCall f)) by (intros; exact I).
  apply (@vb_grad_natgrad_events E positive_denominator s Hcall).
  - intros n i Hn Hi. split; simpl; [exact Hv | apply Hden; assumption].
  - intros n i Hn Hi. simpl. apply Hden; assumption.
  - reflexivity.
Qed.

Lemma two_phi_nonnegative : nonnegative (self_phi Example.two_components).
Proof.
  intros n i Hn Hi. simpl in Hn, Hi.
  assert (n = 0)%nat as -> by lia.
  destruct i as [|[|i]]; [| |lia]; cbn; lra.
Qed.

Lemma natgrad_divides_by_positive_witness :
  (forall n i, (n < 1)%nat -> (i < 2)%nat ->
     0 < (get (self_phi Example.two_components) n i + floor) / 1 /\
     0 < get (self_phi Example.two_components) n i ^ 2 + floor) /\
  exists tr, events (snd (vb_grad_natgrad Example.w_two)) = tr ++ [] /\
             Forall positive_denominator tr.
Proof.
  apply (@natgrad_divides_by_positive Small.externals Example.w_two).
  - exact two_phi_nonnegative.
  - exact two_variance_pos.
Defined.

(** What [vb_grad_natgrad] needs to run to its end: a positive variance, one
    kernel per column of phi, collaborators that succeed for every
    component, and N by K gradients from the mixture base. *)
Definition natgrad_inputs {E : Externals} (s : OMGP)
    (Ks alphas Ainvs : nat -> ndarray) (mg : ndarray) : Prop :=
  0 < self_variance s /\
  length (self_kern s) = ncols (self_phi s) /\
  (forall i kern, nth_error (self_kern s) i = Some kern ->
     component_inverted s Ks alphas Ainvs i kern) /\
  mixing_prop_bound_grad (self_phi s) = Ok mg /\
  (nrows mg = nrows (self_phi s) /\ ncols mg = ncols (self_phi s)) /\
  (nrows (self_Hgrad s) = nrows (self_phi s) /\
   ncols (self_Hgrad s) = ncols (self_phi s)).

(** The pair that [vb_grad_natgrad] returns. *)
Definition natgrad_result {E : Externals} (s : OMGP)
    (alphas Ainvs : nat -> ndarray) (mg : ndarray) : Vec * Vec :=
  (flatten (grad_doc s (grad_Lm_doc s alphas Ainvs) mg),
   flatten (natgrad_doc s (grad_Lm_doc s alphas Ainvs) mg)).

Section NatgradResult.

Context {E : Externals}.
Variable C : LinAlgContract E.
Variable s0 : OMGP.
Variables Ks alphas Ainvs : nat -> ndarray.
Variable mg : ndarray.

Hypothesis inputs : natgrad_inputs s0 Ks alphas Ainvs mg.
Hypothesis floored_nonzero :
  forall n i, (n < nrows (self_phi s0))%nat -> (i < ncols (self_phi s0))%nat ->
    get (self_phi s0) n i + floor <> 0.

Lemma vb_grad_natgrad_value :
  spec any_event no_exn s0 vb_grad_natgrad
       (fun r => r = natgrad_result s0 alphas Ainvs mg).
Proof.
  destruct inputs as (Hv & Hlen & Hcomp & Hmg & Hmgs & Hhs).
  unfold vb_grad_natgrad.
  eapply spec_bind; [apply spec_get_self|]. intros s ->.
  eapply spec_bind.
  { apply (outer_loop_value Hlen Hcomp natgrad_step).
    intros i kern Hi Hc. exact (natgrad_step_value C Hv floored_nonzero Hi Hc). }
  intros g ->.
  apply natgrad_project_value; auto.
Qed.

Lemma vb_grad_natgrad_closed_form_value :
  spec any_event no_exn s0 vb_grad_natgrad_closed_form
       (fun r => r = natgrad_result s0 alphas Ainvs mg).
Proof.
  destruct inputs as (Hv & Hlen & Hcomp & Hmg & Hmgs & Hhs).
  unfold vb_grad_natgrad_closed_form.
  eapply spec_bind; [apply spec_get_self|]. intros s ->.
  eapply spec_bind.
  { apply (outer_loop_value Hlen Hcomp natgrad_step_closed_form).
    intros i kern Hi Hc.
    exact (natgrad_step_closed_form_value C Hv floored_nonzero Hi Hc). }
  intros g ->.
  apply natgrad_project_value; auto.
Qed.

End NatgradResult.

Lemma nonnegative_floored A :
  nonnegative A ->
  forall n i, (n < nrows A)%nat -> (i < ncols A)%nat -> get A n i + floor <> 0.
Proof.
  intros Hnn n i Hn Hi. pose proof (Hnn n i Hn Hi). unfold floor. lra.
Qed.

(** C4.  For a phi whose rows are non-negative and sum to one,
    [vb_grad_natgrad()] returns as natural gradient the N by K matrix
    natgrad[n, k] = grad_phi[n, k] - sum_j phi[n, j] * grad_phi[n, j],
    flattened row by row to N * K entries, where grad_phi is the raw
    gradient plus the gradients of the mixing-proportion bound and of the
    entropy; every row of it has a zero dot product with the same row of
    phi. *)
Theorem natgrad_orthogonal_to_phi_rows
    (E : Externals) (C : LinAlgContract E) (w : World)
    (Ks alphas Ainvs : nat -> ndarray) (mg : ndarray) :
  let s := self w in
  let N := nrows (self_phi s) in
  let K := ncols (self_phi s) in
  let grad_phi := grad_phi_doc s (grad_Lm_doc s alphas Ainvs) mg in
  natgrad_inputs s Ks alphas Ainvs mg ->
  nonnegative (self_phi s) ->
  (forall n, (n < N)%nat -> sumn K (fun k => get (self_phi s) n k) = 1) ->
  exists grad natgrad,
    fst (vb_grad_natgrad w) = Ok (grad, natgrad) /\
    length natgrad = (N * K)%nat /\
    (forall n k, (n < N)%nat -> (k < K)%nat ->
       nth (n * K + k) natgrad 0 =
         get grad_phi n k
         - sumn K (fun j => get (self_phi s) n j * get grad_phi n j)) /\
    forall n, (n < N)%nat ->
      sumn K (fun k => get (self_phi s) n k * nth (n * K + k) natgrad 0) = 0.
Proof.
  intros s N K grad_phi Hin Hnn Hone.
  destruct (spec_returns w
              (vb_grad_natgrad_value C Hin (nonnegative_floored Hnn)) eq_refl)
    as (r & Hret & ->).
  eexists _, _. split; [exact Hret|].
  split; [|split].
  - unfold natgrad_doc, flatten. apply wf_mk.
  - intros n k Hn Hk.
    change (nth (n * K + k)
                (flatten (natgrad_doc s (grad_Lm_doc s alphas Ainvs) mg)) 0)
      with (get (natgrad_doc s (grad_Lm_doc s alphas Ainvs) mg) n k).
    unfold natgrad_doc. rewrite get_mk by assumption. reflexivity.
  - intros n Hn. apply natgrad_row_orthogonal; auto.
Qed.

(** C5.  In [vb_grad_natgrad()], half the trace of dL_dB against the one-hot
    perturbation is half of dL_dB[n, n] times the perturbation, and the
    method returns what its closed-form version returns. *)
Theorem natgrad_trace_equals_closed_form
    (E : Externals) (C : LinAlgContract E) (w : World)
    (Ks alphas Ainvs : nat -> ndarray) (mg : ndarray) :
  let s := self w in
  natgrad_inputs s Ks alphas Ainvs mg ->
  nonnegative (self_phi s) ->
  (forall n i, (n < nrows (self_phi s))%nat -> (i < ncols (self_phi s))%nat ->
     (1/2) * trace (matmul (dL_dB_doc s alphas Ainvs i)
                           (onehot (nrows (self_phi s)) n (perturbation s n i)))
     = (1/2) * get (dL_dB_doc s alphas Ainvs i) n n * perturbation s n i) /\
  exists r, fst (vb_grad_natgrad w) = Ok r /\
            fst (vb_grad_natgrad_closed_form w) = Ok r.
Proof.
  intros s Hin Hnn. split.
  - intros n i Hn Hi.
    rewrite (@trace_matmul_onehot _ (nrows (self_phi s))) by (auto; reflexivity).
    lra.
  - destruct (spec_returns w
                (vb_grad_natgrad_value C Hin (nonnegative_floored Hnn)) eq_refl)
      as (r & Hret & ->).
    destruct (spec_returns w
                (vb_grad_natgrad_closed_form_value C Hin (nonnegative_floored Hnn))
                eq_refl)
      as (r' & Hret' & ->).
    eauto.
Qed.

Lemma two_natgrad_inputs :
  @natgrad_inputs Small.externals Example.two_components
     (fun _ => Example.K_one) Example.alpha_two Example.inverse_two
     (zeros_like (self_phi Example.two_components)).
Proof.
  split; [exact two_variance_pos|].
  split; [reflexivity|].
  split; [exact two_components_inverted|].
  repeat split.
Qed.

Lemma two_rows_sum_to_one n :
  (n < nrows (self_phi Example.two_components))%nat ->
  sumn (ncols (self_phi Example.two_components))
       (fun k => get (self_phi Example.two_components) n k) = 1.
Proof.
  simpl. intros Hn. assert (n = 0)%nat as -> by lia. cbn. lra.
Qed.

(** Facts on a model with two components of unequal responsibilities. *)
Section UnevenComponents.

Import Small Example.

Definition uneven : OMGP :=
  mkOMGP (mkarray 1 1 [0]) (mkarray 1 1 [1]) 1 1 2
         (mkarray 1 2 [1/4; 3/4]) 0 (mkarray 1 2 [0; 0])
         [k1; k1] 1 0 [k1; k1].

Definition w_uneven : World := mkWorld uneven [].

Definition system_uneven (i : nat) : ndarray :=
  madd K_one (B_inv_doc uneven i).

Definition alpha_uneven (i : nat) : ndarray :=
  solve1 (system_uneven i) (self_Y uneven).

Definition inverse_uneven (i : nat) : ndarray :=
  solve1 (system_uneven i) (eye 1).

Lemma uneven_system_pos i : (i < 2)%nat -> 0 < get (system_uneven i) 0 0.
Proof.
  intros Hi. destruct i as [|[|i]]; [| |lia]; cbn; unfold floor; lra.
Qed.

Lemma uneven_components_inverted i kern :
  nth_error (self_kern uneven) i = Some kern ->
  component_inverted uneven (fun _ => K_one) alpha_uneven inverse_uneven i kern.
Proof.
  intros Hnth.
  assert (Hi : (i < 2)%nat /\ kern = k1).
  { revert Hnth. simpl. destruct i as [|[|i]]; simpl.
    - injection 1 as <-. split; [lia | reflexivity].
    - injection 1 as <-. split; [lia | reflexivity].
    - destruct i; discriminate. }
  destruct Hi as [Hi ->].
  repeat split.
  - apply small_solve_1; try reflexivity.
    apply Rgt_not_eq, uneven_system_pos, Hi.
  - simpl. unfold small_pdinv.
    rewrite small_pd_1 by (try reflexivity; now apply uneven_system_pos).
    apply small_solve_1; try reflexivity.
    apply Rgt_not_eq, uneven_system_pos, Hi.
Qed.

Lemma uneven_natgrad_inputs :
  natgrad_inputs uneven (fun _ => K_one) alpha_uneven inverse_uneven
                 (zeros_like (self_phi uneven)).
Proof.
  split; [simpl; lra|].
  split; [reflexivity|].
  split; [exact uneven_components_inverted|].
  repeat split.
Qed.

Lemma uneven_phi_nonnegative : nonnegative (self_phi uneven).
Proof.
  intros n i Hn Hi. simpl in Hn, Hi.
  assert (n = 0)%nat as -> by lia.
  destruct i as [|[|i]]; [| |lia]; cbn; lra.
Qed.

Lemma uneven_rows_sum_to_one n :
  (n < nrows (self_phi uneven))%nat ->
  sumn (ncols (self_phi uneven)) (fun k => get (self_phi uneven) n k) = 1.
Proof.
  simpl. intros Hn. assert (n = 0)%nat as -> by lia. cbn. lra.
Qed.

(** The natural gradient of this model is not the zero matrix. *)
Lemma uneven_natgrad_positive :
  0 < get (natgrad_doc uneven (grad_Lm_doc uneven alpha_uneven inverse_uneven)
                       (zeros_like (self_phi uneven))) 0 0.
Proof.
  cbn. unfold raw_entry, perturbation, dL_dB_doc. cbn. unfold floor. lra.
Qed.

End UnevenComponents.

Lemma natgrad_orthogonal_to_phi_rows_witness :
  exists grad natgrad,
    fst (vb_grad_natgrad w_uneven) = Ok (grad, natgrad) /\
    length natgrad = (1 * 2)%nat /\
    (forall n k, (n < 1)%nat -> (k < 2)%nat ->
       nth (n * 2 + k) natgrad 0 =
         get (grad_phi_doc uneven
                (grad_Lm_doc uneven alpha_uneven inverse_uneven)
                (zeros_like (self_phi uneven))) n k
         - sumn 2 (fun j =>
             get (self_phi uneven) n j
             * get (grad_phi_doc uneven
                      (grad_Lm_doc uneven alpha_uneven inverse_uneven)
                      (zeros_like (self_phi uneven))) n j)) /\
    forall n, (n < 1)%nat ->
      sumn 2 (fun k => get (self_phi uneven) n k * nth (n * 2 + k) natgrad 0) = 0.
Proof.
  apply (@natgrad_orthogonal_to_phi_rows Small.externals Small.contract
           w_uneven (fun _ => Example.K_one) alpha_uneven
           inverse_uneven (zeros_like (self_phi uneven))).
  - exact uneven_natgrad_inputs.
  - exact uneven_phi_nonnegative.
  - exact uneven_rows_sum_to_one.
Defined.

Lemma natgrad_trace_equals_closed_form_witness :
  (forall n i, (n < 1)%nat -> (i < 2)%nat ->
     (1/2) * trace (matmul (dL_dB_doc Example.two_components
                              Example.alpha_two Example.inverse_two i)
                           (onehot 1 n (perturbation Example.two_components n i)))
     = (1/2) * get (dL_dB_doc Example.two_components
                      Example.alpha_two Example.inverse_two i) n n
       * perturbation Example.two_components n i) /\
  exists r, fst (vb_grad_natgrad Example.w_two) = Ok r /\
            fst (vb_grad_natgrad_closed_form Example.w_two) = Ok r.
Proof.
  apply (@natgrad_trace_equals_closed_form Small.externals Small.contract
           Example.w_two (fun _ => Example.K_one) Example.alpha_two
           Example.inverse_two (zeros_like (self_phi Example.two_components))).
  - exact two_natgrad_inputs.
  - exact two_phi_nonnegative.
Defined.

(** C7.  [predict(Xnew, i)] returns the mean K(X,Xnew)^T S_Y and the
    variance  variance + K(Xnew,Xnew) - K(X,Xnew)^T S_k,  where S_Y and S_k
    are what the direct solver returns for the systems
    (K_i + B_inv_i) S = Y and (K_i + B_inv_i) S = K(X,Xnew), and B_inv_i is
    diag(variance / phi[:,i]), with no floor. *)
Theorem predict_mean_and_variance
    (E : Externals) (C : LinAlgContract E) (w : World) (Xnew : ndarray) (i : Z)
    (c : nat) (kern : kernel) (Kmat kx kxx sy sk : ndarray) :
  let s := self w in
  let A := madd Kmat (diag (tabulate (nrows (self_phi s))
                              (fun n => self_variance s / get (self_phi s) n c))) in
  0 < self_variance s ->
  length (self_kern s) = ncols (self_phi s) ->
  py_index (length (self_kern s)) i = Ok c ->
  nth_error (self_kern s) c = Some kern ->
  (forall n, (n < nrows (self_phi s))%nat -> get (self_phi s) n c <> 0) ->
  kern_K kern (self_X s) = Ok Kmat ->
  nrows Kmat = nrows (self_phi s) /\ ncols Kmat = nrows (self_phi s) ->
  kern_K2 kern (self_X s) Xnew = Ok kx ->
  nrows kx = nrows (self_phi s) ->
  kern_K2 kern Xnew Xnew = Ok kxx ->
  nrows kxx = ncols kx /\ ncols kxx = ncols kx ->
  linalg_solve A (self_Y s) = Ok sy ->
  linalg_solve A kx = Ok sk ->
  fst (predict Xnew i w) =
    Ok (matmul (transpose kx) sy,
        mk (nrows kxx) (ncols kxx)
           (fun a b => self_variance s + get kxx a b
                       - get (matmul (transpose kx) sk) a b)) /\
  dot A sy = Ok (self_Y s) /\
  dot A sk = Ok kx.
Proof.
  intros s A Hv Hlen Hidx Hkern Hnz HK HKs Hkx Hkxs Hkxx Hkxxs Hsy Hsk.
  split; [|split].
  - destruct (spec_returns w
                (@predict_value E C s Xnew i c kern Kmat kx kxx sy sk
                   Hv Hlen Hidx Hkern Hnz HK HKs Hkx Hkxs Hkxx Hkxxs Hsy Hsk)
                eq_refl)
      as (r & Hret & ->).
    exact Hret.
  - exact (linalg_solve_sound _ _ Hsy).
  - exact (linalg_solve_sound _ _ Hsk).
Qed.

(** Facts on predicting with the second component of the example. *)
Section PredictExample.

Import Small Example.

Definition Xnew_one : ndarray := mkarray 1 1 [3].

Definition predict_system_two : ndarray :=
  madd K_one (diag (tabulate 1 (fun n => 1 / get (self_phi two_components) n 1))).

Lemma predict_system_two_pos : 0 < get predict_system_two 0 0.
Proof. cbn. lra. Qed.

Lemma predict_solve_two B :
  nrows B = 1%nat -> wf B ->
  small_solve predict_system_two B = Ok (solve1 predict_system_two B).
Proof.
  intros Hb Hwf. apply small_solve_1; try reflexivity; auto.
  apply Rgt_not_eq, predict_system_two_pos.
Qed.

Lemma two_phi_second_nonzero n :
  (n < nrows (self_phi two_components))%nat ->
  get (self_phi two_components) n 1 <> 0.
Proof. simpl. intros Hn. assert (n = 0)%nat as -> by lia. cbn. lra. Qed.

End PredictExample.

Lemma predict_mean_and_variance_witness :
  fst (predict Xnew_one (-1) Example.w_two) =
    Ok (matmul (transpose Example.K_one)
               (Small.solve1 predict_system_two (self_Y Example.two_components)),
        mk 1 1
           (fun a b => 1 + get Example.K_one a b
                       - get (matmul (transpose Example.K_one)
                                (Small.solve1 predict_system_two Example.K_one)) a b)) /\
  dot predict_system_two
      (Small.solve1 predict_system_two (self_Y Example.two_components))
  = Ok (self_Y Example.two_components) /\
  dot predict_system_two (Small.solve1 predict_system_two Example.K_one)
  = Ok Example.K_one.
Proof.
  apply (@predict_mean_and_variance Small.externals Small.contract
           Example.w_two Xnew_one (-1) 1 Example.k1
           Example.K_one Example.K_one Example.K_one).
  - exact two_variance_pos.
  - reflexivity.
  - reflexivity.
  - reflexivity.
  - exact two_phi_second_nonzero.
  - reflexivity.
  - split; reflexivity.
  - reflexivity.
  - reflexivity.
  - reflexivity.
  - split; reflexivity.
  - apply predict_solve_two; reflexivity.
  - apply predict_solve_two; [reflexivity | apply wf_mk].
Defined.

(** A model with one kernel per column of phi and a row of phi that sums
    to one has at least one kernel. *)
Lemma simplex_has_kernel {E : Externals} (s : OMGP) (n : nat) :
  length (self_kern s) = ncols (self_phi s) ->
  sumn (ncols (self_phi s)) (fun k => get (self_phi s) n k) = 1 ->
  self_kern s <> [].
Proof.
  intros Hlen Hone Hnil. rewrite Hnil in Hlen. simpl in Hlen.
  rewrite <- Hlen in Hone. simpl in Hone. lra.
Qed.

(** C6.  When both loops of [update_kern_grads()] run to their end on a
    model with at least one kernel (as every model has whose phi holds a
    row that sums to one, with one kernel per column), the variance
    gradient on exit is the sum over the components of half the trace of
    dL_dB_i times diag(1 / (phi[:,i] + 1e-6)), and the model is left exactly
    as by the version that assigns the sum once, after the loop. *)
Theorem variance_gradient_is_sum_over_components
    (E : Externals) (C : LinAlgContract E) (w : World)
    (K1 a1 Ai1 : nat -> ndarray) (kern1 : nat -> kernel)
    (Ks alphas Ainvs : nat -> ndarray) :
  let s := self w in
  self_kern s <> [] ->
  0 < self_variance s ->
  (forall n i, (n < nrows (self_phi s))%nat -> (i < ncols (self_phi s))%nat ->
     get (self_phi s) n i + floor <> 0) ->
  length (self_kern s) = ncols (self_phi s) ->
  (forall i kern, nth_error (self_kern s) i = Some kern ->
     kernel_graded s K1 a1 Ai1 kern1 i kern) ->
  (forall i, (i < length (self_kern s))%nat ->
     component_inverted s Ks alphas Ainvs i (kern1 i)) ->
  fst (update_kern_grads w) = Ok tt /\
  fst (update_kern_grads_assign_after w) = Ok tt /\
  self_variance_gradient (self (snd (update_kern_grads w))) =
    sumn (length (self_kern s))
         (fun i => (1/2) * trace (matmul (dL_dB_doc s alphas Ainvs i)
                                         (grad_B_inv_doc s i))) /\
  self (snd (update_kern_grads w)) =
    self (snd (update_kern_grads_assign_after w)).
Proof.
  intros s Hne Hv Hnz Hlen Hgraded Hinv.
  destruct (hoare_returns w
              (update_kern_grads_value C Hv Hnz Hlen Hgraded Hinv) eq_refl)
    as ([] & Hret & Hs).
  destruct (hoare_returns w
              (update_kern_grads_assign_after_value C Hv Hnz Hlen Hgraded Hinv)
              eq_refl)
    as ([] & Hret' & Hs').
  assert (Hafter : gradient_after (graded s kern1)
                     (enumerate (self_kern (graded s kern1)))
                     (variance_gradient_doc (graded s kern1) alphas Ainvs)
                   = variance_gradient_doc (graded s kern1) alphas Ainvs).
  { simpl. destruct (self_kern s) as [|k ks]; [contradiction | reflexivity]. }
  rewrite Hafter in Hs.
  repeat split; auto.
  - rewrite Hs. simpl. unfold variance_gradient_doc. simpl.
    rewrite length_tabulate. reflexivity.
  - congruence.
Qed.

(** Facts on the gradients of the model with two components. *)
Section GradsExample.

Import Small Example.

Definition unfloored_system_two (i : nat) : ndarray :=
  madd K_one (B_inv_unfloored_doc two_components i).

Definition a1_two (i : nat) : ndarray :=
  solve1 (unfloored_system_two i) (self_Y two_components).

Definition Ai1_two (i : nat) : ndarray :=
  solve1 (unfloored_system_two i) (eye 1).

Definition dL_dK_two (i : nat) : ndarray :=
  dL_dK_doc two_components a1_two Ai1_two i.

Definition kern1_two (i : nat) : bias_kernel :=
  mkbias 1 (sumn (nrows (dL_dK_two i))
              (fun a => sumn (ncols (dL_dK_two i)) (fun b => get (dL_dK_two i) a b))).

Lemma unfloored_system_two_pos i :
  (i < 2)%nat -> 0 < get (unfloored_system_two i) 0 0.
Proof.
  intros Hi. destruct i as [|[|i]]; [| |lia]; cbn; lra.
Qed.

Lemma two_phi_nonzero i n :
  (i < 2)%nat -> (n < nrows (self_phi two_components))%nat ->
  get (self_phi two_components) n i <> 0.
Proof.
  simpl. intros Hi Hn. assert (n = 0)%nat as -> by lia.
  destruct i as [|[|i]]; [| |lia]; cbn; lra.
Qed.

Lemma two_kernels_graded i kern :
  nth_error (self_kern two_components) i = Some kern ->
  kernel_graded two_components (fun _ => K_one) a1_two Ai1_two kern1_two i kern.
Proof.
  intros Hnth. apply two_kernel_index in Hnth. destruct Hnth as [Hi ->].
  split; [intros n Hn; now apply two_phi_nonzero|].
  repeat split.
  - simpl. unfold small_cho_solve.
    rewrite small_pd_1 by (try reflexivity; now apply unfloored_system_two_pos).
    apply small_solve_1; try reflexivity.
    apply Rgt_not_eq, unfloored_system_two_pos, Hi.
  - simpl. unfold small_pdinv.
    rewrite small_pd_1 by (try reflexivity; now apply unfloored_system_two_pos).
    apply small_solve_1; try reflexivity.
    apply Rgt_not_eq, unfloored_system_two_pos, Hi.
Qed.

Lemma two_graded_inverted i :
  (i < length (self_kern two_components))%nat ->
  component_inverted two_components (fun _ => K_one) alpha_two inverse_two
                     i (kern1_two i).
Proof.
  simpl. intros Hi. repeat split.
  - now apply two_solve.
  - now apply two_pdinv.
Qed.

End GradsExample.

Lemma variance_gradient_is_sum_over_components_witness :
  fst (update_kern_grads Example.w_two) = Ok tt /\
  fst (update_kern_grads_assign_after Example.w_two) = Ok tt /\
  self_variance_gradient (self (snd (update_kern_grads Example.w_two))) =
    sumn 2 (fun i => (1/2) * trace (matmul (dL_dB_doc Example.two_components
                                              Example.alpha_two
                                              Example.inverse_two i)
                                           (grad_B_inv_doc Example.two_components i))) /\
  self (snd (update_kern_grads Example.w_two)) =
    self (snd (update_kern_grads_assign_after Example.w_two)).
Proof.
  apply (@variance_gradient_is_sum_over_components Small.externals
           Small.contract Example.w_two
           (fun _ => Example.K_one) a1_two Ai1_two kern1_two
           (fun _ => Example.K_one) Example.alpha_two Example.inverse_two).
  - exact (@simplex_has_kernel Small.externals Example.two_components 0
             eq_refl (two_rows_sum_to_one (Nat.lt_0_succ 0))).
  - exact two_variance_pos.
  - exact two_floored_nonzero.
  - reflexivity.
  - exact two_kernels_graded.
  - exact two_graded_inverted.
Defined.

(** What one call of [do_computations] makes of the kernel list and of the
    registry. *)
Section Reconciled.

Context {E : Externals}.
Variable s : OMGP.

Definition last_kernel : option kernel :=
  nth_error (self_kern s) (length (self_kern s) - 1).

Definition reconciled_kern : list kernel :=
  if (length (self_kern s) <? self_K s)%nat
  then match last_kernel with
       | Some last => self_kern s ++ [kern_copy last]
       | None => self_kern s
       end
  else firstn (self_K s) (self_kern s).

Definition reconciled_registry : result registry :=
  if (length (self_kern s) <? self_K s)%nat
  then match last_kernel with
       | Some last => link_parameter (self_parameters s) (kern_copy last)
       | None => Err IndexError
       end
  else unlink_all (self_parameters s) (skipn (self_K s) (self_kern s)).

Lemma last_kernel_split last :
  last_kernel = Some last -> exists init, self_kern s = init ++ [last].
Proof.
  unfold last_kernel. intros Hnth.
  destruct (nth_error_split _ _ Hnth) as (init & rest & Heq & Hlen).
  exists init. rewrite Heq in Hlen |- *.
  rewrite length_app in Hlen. simpl in Hlen.
  destruct rest as [|x rest]; [reflexivity | simpl in Hlen; lia].
Qed.

Lemma do_computations_value reg' :
  reconciled_registry = Ok reg' ->
  hoare any_event no_exn s do_computations
        (fun _ s' => s' = with_parameters (with_kern s reconciled_kern) reg').
Proof.
  unfold reconciled_registry, reconciled_kern. intros Hreg.
  destruct (Nat.ltb_spec (length (self_kern s)) (self_K s)) as [Hlt|Hge].
  - destruct last_kernel as [last|] eqn:Hlast; [|discriminate].
    destruct (last_kernel_split Hlast) as [init Hsplit].
    exact (do_computations_grows _ _ Hsplit Hlt Hreg).
  - destruct (Nat.eq_dec (length (self_kern s)) (self_K s)) as [Heq|Hne].
    + rewrite <- Heq, skipn_all in Hreg. simpl in Hreg. injection Hreg as <-.
      rewrite <- Heq, firstn_all.
      eapply hoare_conseq; [apply do_computations_keeps; exact Heq|].
      intros _ s' ->. destruct s; reflexivity.
    + eapply hoare_conseq; [apply do_computations_shrinks; [lia | exact Hreg]|].
      intros _ s' ->. reflexivity.
Qed.

Lemma reconciled_length reg' :
  reconciled_registry = Ok reg' ->
  length reconciled_kern =
    if (length (self_kern s) <? self_K s)%nat
    then S (length (self_kern s)) else self_K s.
Proof.
  unfold reconciled_registry, reconciled_kern. intros Hreg.
  destruct (Nat.ltb_spec (length (self_kern s)) (self_K s)) as [Hlt|Hge].
  - destruct last_kernel; [|discriminate].
    rewrite length_app. simpl. lia.
  - rewrite length_firstn. lia.
Qed.

End Reconciled.

(** C3, as the code has it.  One call of [do_computations()] on a kernel
    list of length L with target K, when the registry accepts the change:
    for L >= K the list is cut to its first K entries and the others are
    unlinked; for L < K exactly one copy of the last kernel is appended and
    linked, which leaves L + 1 entries. *)
Theorem do_computations_reconciles_one_step
    (E : Externals) (w : World) (reg' : registry) :
  let s := self w in
  reconciled_registry s = Ok reg' ->
  fst (do_computations w) = Ok tt /\
  self_kern (self (snd (do_computations w))) = reconciled_kern s /\
  self_parameters (self (snd (do_computations w))) = reg' /\
  length (self_kern (self (snd (do_computations w)))) =
    (if (length (self_kern s) <? self_K s)%nat
     then S (length (self_kern s)) else self_K s).
Proof.
  intros s Hreg.
  destruct (hoare_returns w (do_computations_value Hreg) eq_refl)
    as ([] & Hret & Hs).
  rewrite Hs. simpl. repeat split; auto.
  now apply reconciled_length with (reg' := reg').
Qed.

Lemma do_computations_reconciles_one_step_witness :
  fst (do_computations (mkWorld Example.three_of_one [])) = Ok tt /\
  self_kern (self (snd (do_computations (mkWorld Example.three_of_one []))))
  = [Example.k1] /\
  self_parameters (self (snd (do_computations (mkWorld Example.three_of_one []))))
  = [Example.k1] /\
  length (self_kern (self (snd (do_computations (mkWorld Example.three_of_one [])))))
  = 1%nat.
Proof.
  apply (@do_computations_reconciles_one_step Small.externals
           (mkWorld Example.three_of_one []) [Example.k1]).
  unfold reconciled_registry. simpl.
  destruct (Small.bias_eq_dec Example.k1 Example.k1) as [_|Hne];
    [|contradiction]; simpl.
  destruct (Small.bias_eq_dec Example.k1 Example.k1) as [_|Hne];
    [|contradiction]; reflexivity.
Defined.

(** C3, as stated, fails: with one kernel and three components asked for,
    one call leaves two kernels. *)
Lemma do_computations_one_of_three_leaves_two :
  fst (do_computations Example.w_one_of_three) = Ok tt /\
  length (self_kern (self (snd (do_computations Example.w_one_of_three)))) = 2%nat /\
  self_K (self (snd (do_computations Example.w_one_of_three))) = 3%nat /\
  length (self_kern (self (snd (do_computations Example.w_one_of_three))))
  <> self_K (self (snd (do_computations Example.w_one_of_three))).
Proof.
  repeat split; try reflexivity. simpl. discriminate.
Qed.

(** For a non-negative phi and a positive variance, [bound()] divides by
    positive numbers only. *)
Lemma bound_divides_by_positive (E : Externals) (w : World) :
  nonnegative (self_phi (self w)) ->
  0 < self_variance (self w) ->
  exists tr, events (snd (bound w)) = tr ++ events w /\
             Forall positive_denominator tr.
Proof.
  intros Hphi Hv.
  assert (Hcall : forall f, positive_denominator (EvCall f)) by (intros; exact I).
  apply (@bound_events E positive_denominator (self w) Hcall).
  - intros n i Hn Hi. pose proof (Hphi n i Hn Hi) as Hge.
    split; simpl; [exact Hv|].
    apply Rdiv_lt_0_compat; [unfold floor; lra | exact Hv].
  - exact I.
  - reflexivity.
Qed.

Lemma hard_update_kern_grads_raises :
  hoare (E := Small.externals) any_event (fun e => e = NonFinite)
        Example.hard_assignment update_kern_grads (fun _ _ => False).
Proof.
  unfold update_kern_grads.
  eapply hoare_bind; [apply hoare_of_spec, spec_get_self|].
  intros s s1 [-> ->].
  eapply hoare_bind with (Qa := fun _ _ => False); [|intros ? ? []].
  pose (k := Example.k1 : @kernel Small.externals).
  change (foldM kern_grad_step tt (enumerate (self_kern Example.hard_assignment)))
    with (bind (kern_grad_step tt (0%nat, k))
               (fun acc' => foldM kern_grad_step acc' [(1%nat, k)])).
  eapply hoare_bind with (Qa := fun _ _ => False); [|intros ? ? []].
  unfold kern_grad_step.
  eapply hoare_bind; [apply hoare_of_spec, spec_get_self|].
  intros s s1 [-> ->].
  eapply hoare_bind.
  { apply hoare_of_spec, spec_call; [exact I | intros e He; discriminate]. }
  intros K' s1 [_ ->].
  eapply hoare_bind.
  { apply hoare_of_spec, spec_B_inv_unfloored.
    - intros Hn. exfalso. apply Hn. simpl. lia.
    - intros n Hn. split; exact I.
    - reflexivity.
    - reflexivity. }
  intros B s1 [(_ & _ & Hnz) _]. exfalso.
  apply (Hnz 0%nat); [simpl; lia | cbn; lra].
Qed.

Lemma hard_phi_nonnegative : nonnegative (self_phi Example.hard_assignment).
Proof.
  intros n i Hn Hi. simpl in Hn, Hi.
  assert (n = 0)%nat as -> by lia.
  destruct i as [|[|i]]; [| |lia]; cbn; lra.
Qed.

(** C2, at a model whose first column of phi is zero.  The rows of phi are
    non-negative and sum to one and the variance is positive; yet the first
    loop of [update_kern_grads()] builds its precision matrix from phi
    without the floor and leaves the finite numbers, where [bound()] divides
    by positive numbers only. *)
Theorem kernel_gradient_loop_lacks_floor :
  nonnegative (self_phi Example.hard_assignment) /\
  sumn 2 (fun k => get (self_phi Example.hard_assignment) 0 k) = 1 /\
  0 < self_variance Example.hard_assignment /\
  fst (update_kern_grads Example.w_hard) = Err NonFinite /\
  exists tr, events (snd (bound Example.w_hard)) = tr ++ [] /\
             Forall positive_denominator tr.
Proof.
  split; [exact hard_phi_nonnegative|].
  split; [cbn; lra|].
  split; [simpl; lra|].
  split.
  - destruct (hard_update_kern_grads_raises Example.w_hard eq_refl) as (_ & Ho).
    destruct (fst (update_kern_grads Example.w_hard)) as [a|e];
      [contradiction | now subst e].
  - apply (@bound_divides_by_positive Small.externals Example.w_hard).
    + exact hard_phi_nonnegative.
    + simpl. lra.
Qed.

(** ** What a method does first *)

Section FirstEvent.

Context {E : Externals}.

(** [m] only adds to the log. *)
Definition extends {A} (m : M A) : Prop :=
  forall w, exists tr, events (snd (m w)) = tr ++ events w.

(** The first thing [m] logs from [w] is [ev]. *)
Definition begins_with {A} (ev : event) (m : M A) (w : World) : Prop :=
  exists tr, events (snd (m w)) = tr ++ ev :: events w.

Lemma extends_ret {A} (a : A) : extends (ret a).
Proof. intros w. exists []. reflexivity. Qed.

Lemma extends_lift {A} (r : result A) : extends (lift r).
Proof. intros w. exists []. reflexivity. Qed.

Lemma extends_get_self : extends get_self.
Proof. intros w. exists []. reflexivity. Qed.

Lemma extends_put_self s : extends (put_self s).
Proof. intros w. exists []. reflexivity. Qed.

Lemma extends_emit ev : extends (emit ev).
Proof. intros w. exists [ev]. reflexivity. Qed.

Lemma extends_bind {A B} (m : M A) (k : A -> M B) :
  extends m -> (forall a, extends (k a)) -> extends (bind m k).
Proof.
  intros Hm Hk w. unfold bind. destruct (Hm w) as [tr Htr].
  destruct (m w) as [[a|e] w']; simpl in *.
  - destruct (Hk a w') as [tr' Htr']. exists (tr' ++ tr).
    now rewrite Htr', Htr, app_assoc.
  - now exists tr.
Qed.

Lemma extends_call {A} f (r : result A) : extends (call f r).
Proof.
  unfold call. apply extends_bind; [apply extends_emit|].
  intros _. apply extends_lift.
Qed.

Lemma extends_fdiv x y : extends (fdiv x y).
Proof.
  unfold fdiv. apply extends_bind; [apply extends_emit|].
  intros _. destruct (Req_dec_T y 0); [apply extends_lift | apply extends_ret].
Qed.

Lemma extends_flog x : extends (flog x).
Proof.
  unfold flog. apply extends_bind; [apply extends_emit|].
  intros _. destruct (Rlt_dec 0 x); [apply extends_ret | apply extends_lift].
Qed.

Lemma extends_mapM {A B} (f : A -> M B) l :
  (forall a, extends (f a)) -> extends (mapM f l).
Proof.
  intros Hf. induction l as [|a l IH]; simpl.
  - apply extends_ret.
  - apply extends_bind; [apply Hf|]. intros b.
    apply extends_bind; [apply IH|]. intros bs. apply extends_ret.
Qed.

Lemma extends_foldM {A B} (f : A -> B -> M A) l :
  (forall a b, extends (f a b)) -> forall acc, extends (foldM f acc l).
Proof.
  intros Hf. induction l as [|b l IH]; intros acc; simpl.
  - apply extends_ret.
  - apply extends_bind; [apply Hf | apply IH].
Qed.

Lemma begins_call {A B} f (r : result A) (k : A -> M B) w :
  (forall a, extends (k a)) -> begins_with (EvCall f) (bind (call f r) k) w.
Proof.
  intros Hk. unfold begins_with, bind, call, emit, lift. simpl.
  destruct r as [a|e]; simpl.
  - destruct (Hk a {| self := self w; events := EvCall f :: events w |})
      as [tr Htr].
    exists tr. exact Htr.
  - exists []. reflexivity.
Qed.

Lemma begins_bind {A B} ev (m : M A) (k : A -> M B) w :
  begins_with ev m w -> (forall a, extends (k a)) -> begins_with ev (bind m k) w.
Proof.
  intros [tr Htr] Hk. unfold begins_with, bind.
  destruct (m w) as [[a|e] w']; simpl in *.
  - destruct (Hk a w') as [tr' Htr']. exists (tr' ++ tr).
    now rewrite Htr', Htr, app_assoc.
  - now exists tr.
Qed.

Lemma begins_get_self {B} ev (k : OMGP -> M B) w :
  begins_with ev (k (self w)) w -> begins_with ev (bind get_self k) w.
Proof. intros Hk. exact Hk. Qed.

Lemma begins_lift_ok {A B} ev (r : result A) (k : A -> M B) a w :
  r = Ok a -> begins_with ev (k a) w -> begins_with ev (bind (lift r) k) w.
Proof. intros -> Hk. exact Hk. Qed.

End FirstEvent.

(** One step in showing that a block only adds to the log. *)
Ltac ext_step :=
  lazymatch goal with
  | |- extends (bind _ _) => apply extends_bind; [|intros]
  | |- extends (ret _) => apply extends_ret
  | |- extends (lift _) => apply extends_lift
  | |- extends (call _ _) => apply extends_call
  | |- extends (fdiv _ _) => apply extends_fdiv
  | |- extends (flog _) => apply extends_flog
  | |- extends get_self => apply extends_get_self
  | |- extends (put_self _) => apply extends_put_self
  | |- extends (set_kern _) => unfold set_kern
  | |- extends (set_variance_gradient _) => unfold set_variance_gradient
  | |- extends (set_parameters _) => unfold set_parameters
  | |- extends (vdiv_s _ _) => apply extends_mapM; intros
  | |- extends (sdiv_v _ _) => apply extends_mapM; intros
  | |- extends (B_inv_floored _) => unfold B_inv_floored
  | |- extends (B_inv_unfloored _) => unfold B_inv_unfloored
  | |- extends (foldM _ _ _) => apply extends_foldM; intros
  | |- extends (let (_, _) := ?x in _) => destruct x
  end.

Section Extends.

Context {E : Externals}.

Lemma bound_step_extends acc ik : extends (bound_step acc ik).
Proof. unfold bound_step. destruct ik. repeat ext_step. Qed.

Lemma natgrad_inner_extends i B dL g n : extends (natgrad_inner i B dL g n).
Proof. unfold natgrad_inner. repeat ext_step. Qed.

Lemma natgrad_step_extends g ik : extends (natgrad_step g ik).
Proof.
  unfold natgrad_step. destruct ik. repeat ext_step.
  apply natgrad_inner_extends.
Qed.

Lemma natgrad_project_extends g : extends (natgrad_project g).
Proof. unfold natgrad_project. repeat ext_step. Qed.

Lemma kern_grad_step_extends u ik : extends (kern_grad_step u ik).
Proof. unfold kern_grad_step. destruct ik. repeat ext_step. Qed.

Lemma variance_grad_step_extends acc ik : extends (variance_grad_step acc ik).
Proof.
  unfold variance_grad_step, variance_term. destruct ik. repeat ext_step.
Qed.

Lemma predict_extends Xnew i : extends (predict Xnew i).
Proof. unfold predict. repeat ext_step. Qed.

End Extends.

Lemma enumerate_cons {T} (k : T) (ks : list T) :
  exists rest, enumerate (k :: ks) = (0%nat, k) :: rest.
Proof. unfold enumerate. simpl. eauto. Qed.

(** C8, as the code has it.  No method checks shapes on entry: with at
    least one kernel (for [predict], an index that addresses a kernel), the
    first thing [bound], [vb_grad_natgrad], [update_kern_grads], [predict]
    and [predict_components] do is evaluate a kernel's covariance, whatever
    the shapes of X, Y, phi and Xnew; nothing is raised before that. *)
Theorem methods_begin_with_covariance (E : Externals) (w : World) :
  self_kern (self w) <> [] ->
  begins_with (EvCall F_kern_K) bound w /\
  begins_with (EvCall F_kern_K) vb_grad_natgrad w /\
  begins_with (EvCall F_kern_K) update_kern_grads w /\
  (forall Xnew i kern,
     getitem (self_kern (self w)) i = Ok kern ->
     begins_with (EvCall F_kern_K) (predict Xnew i) w) /\
  forall Xnew, begins_with (EvCall F_kern_K) (predict_components Xnew) w.
Proof.
  intros Hne.
  destruct (self_kern (self w)) as [|k ks] eqn:Hkern; [contradiction|].
  destruct (enumerate_cons k ks) as [rest Hrest].
  assert (Hpredict : forall Xnew i kern,
            getitem (k :: ks) i = Ok kern ->
            begins_with (EvCall F_kern_K) (predict Xnew i) w).
  { intros Xnew i kern Hget. unfold predict. apply begins_get_self.
    rewrite Hkern. eapply begins_lift_ok; [exact Hget|].
    apply begins_call. intros K. repeat ext_step. }
  split; [|split; [|split; [|split]]].
  - unfold bound. apply begins_get_self. rewrite Hkern, Hrest. simpl.
    apply begins_bind; [apply begins_bind|].
    + apply begins_get_self. apply begins_call. intros K. repeat ext_step.
    + intros a. apply extends_foldM. intros; apply bound_step_extends.
    + intros a. repeat ext_step.
  - unfold vb_grad_natgrad. apply begins_get_self. rewrite Hkern, Hrest. simpl.
    apply begins_bind; [apply begins_bind|].
    + apply begins_get_self. apply begins_call. intros K. repeat ext_step.
      apply natgrad_inner_extends.
    + intros a. apply extends_foldM. intros; apply natgrad_step_extends.
    + intros a. apply natgrad_project_extends.
  - unfold update_kern_grads. apply begins_get_self. rewrite Hkern, Hrest. simpl.
    apply begins_bind; [apply begins_bind|].
    + apply begins_get_self. apply begins_call. intros K. repeat ext_step.
    + intros a. apply extends_foldM. intros; apply kern_grad_step_extends.
    + intros a. repeat ext_step. apply variance_grad_step_extends.
  - exact Hpredict.
  - intros Xnew. unfold predict_components. apply begins_get_self.
    rewrite Hkern. simpl.
    apply begins_bind; [apply begins_bind; [apply begins_bind|]|].
    + apply (Hpredict Xnew 0%Z k). reflexivity.
    + intros mv. repeat ext_step.
    + intros acc. apply extends_foldM. intros [mus vas] i.
      repeat ext_step. apply predict_extends.
    + intros r. repeat ext_step.
Qed.

Lemma methods_begin_with_covariance_witness :
  begins_with (EvCall F_kern_K) bound Example.w_short /\
  begins_with (EvCall F_kern_K) vb_grad_natgrad Example.w_short /\
  begins_with (EvCall F_kern_K) update_kern_grads Example.w_short /\
  (forall Xnew i kern,
     getitem (self_kern (self Example.w_short)) i = Ok kern ->
     begins_with (EvCall F_kern_K) (predict Xnew i) Example.w_short) /\
  forall Xnew,
    begins_with (EvCall F_kern_K) (predict_components Xnew) Example.w_short.
Proof.
  apply (@methods_begin_with_covariance Small.externals Example.w_short).
  discriminate.
Defined.

(** Facts on the model whose X has one row for two observations. *)
Section ShortX.

Import Small Example.

(** What numpy's broadcasting makes of K + B_inv: the single entry of K is
    added to every entry of the two by two precision matrix. *)
Definition system_short : ndarray :=
  mk 2 2 (fun i j => get K_one 0 0 + get (B_inv_doc short_X 0) i j).

Definition alpha_short : ndarray := solve2 system_short (self_Y short_X).

Lemma system_short_pos : 0 < get system_short 0 0.
Proof. cbn. unfold floor. lra. Qed.

Lemma system_short_det : 0 < det2 system_short.
Proof. unfold det2. cbn. unfold floor. lra. Qed.

Lemma short_floored_nonzero n i :
  (n < nrows (self_phi short_X))%nat -> (i < ncols (self_phi short_X))%nat ->
  get (self_phi short_X) n i + floor <> 0.
Proof.
  simpl. intros Hn Hi. assert (i = 0)%nat as -> by lia.
  destruct n as [|[|n]]; [| |lia]; cbn; unfold floor; lra.
Qed.

Lemma short_component_run i kern :
  nth_error (self_kern short_X) i = Some kern ->
  component_run short_X i kern system_short alpha_short.
Proof.
  simpl. destruct i as [|i]; [|destruct i; discriminate].
  simpl. injection 1 as <-.
  split; [exists K_one; split; reflexivity|].
  split; [|split; [reflexivity|]].
  - simpl. unfold small_cho_solve.
    rewrite small_pd_2
      by (first [reflexivity | apply system_short_pos | apply system_short_det]).
    apply small_solve_2; try reflexivity.
    apply Rgt_not_eq, system_short_det.
  - apply small_slogdet_ok. rewrite det_2 by reflexivity.
    apply Rgt_not_eq, system_short_det.
Qed.

End ShortX.

(** C8, as stated, fails: X has one row where Y and phi have two, and
    [bound()] returns a number; numpy broadcasts the one by one covariance
    matrix against the two by two precision matrix. *)
Lemma bound_accepts_mismatched_X :
  nrows (self_X Example.short_X) = 1%nat /\
  nrows (self_Y Example.short_X) = 2%nat /\
  nrows (self_phi Example.short_X) = 2%nat /\
  self_N Example.short_X = 2%nat /\
  exists v, fst (bound Example.w_short) = Ok v.
Proof.
  repeat split.
  destruct (spec_returns Example.w_short
              (@bound_value Small.externals Example.short_X
                 ltac:(simpl; lra) short_floored_nonzero Small.contract
                 (fun _ => system_short) (fun _ => alpha_short)
                 eq_refl short_component_run 0 eq_refl)
              eq_refl)
    as (v & Hret & _).
  exists v. exact Hret.
Qed.

(** ** Triples that follow the model on every path

    [triple s0 m Qv Qx]: started in a world whose model is [s0], [m] either
    returns a value and reaches a model that satisfy [Qv], or raises an
    exception in a model that satisfy [Qx]. *)

Section Triples.

Context {E : Externals}.

Definition triple {A} (s0 : OMGP) (m : M A)
    (Qv : A -> OMGP -> Prop) (Qx : exn -> OMGP -> Prop) : Prop :=
  forall w, self w = s0 ->
    match fst (m w) with
    | Ok a => Qv a (self (snd (m w)))
    | Err e => Qx e (self (snd (m w)))
    end.

Lemma triple_bind {A B} s0 (m : M A) (k : A -> M B) Qa Qv Qx :
  triple s0 m Qa Qx -> (forall a s1, Qa a s1 -> triple s1 (k a) Qv Qx) ->
  triple s0 (bind m k) Qv Qx.
Proof.
  intros Hm Hk w Hw. unfold bind. pose proof (Hm w Hw) as Ho.
  destruct (m w) as [[a|e] w']; simpl in *.
  - exact (Hk a (self w') Ho w' eq_refl).
  - exact Ho.
Qed.

Lemma triple_conseq {A} s0 (m : M A) (Qv Qv' : A -> OMGP -> Prop) (Qx Qx' : exn -> OMGP -> Prop) :
  triple s0 m Qv Qx ->
  (forall a s, Qv a s -> Qv' a s) -> (forall e s, Qx e s -> Qx' e s) ->
  triple s0 m Qv' Qx'.
Proof.
  intros Hm Hv Hx w Hw. pose proof (Hm w Hw) as Ho.
  destruct (fst (m w)); auto.
Qed.

Lemma triple_ret {A} s0 (a : A) (Qv : A -> OMGP -> Prop) Qx :
  Qv a s0 -> triple s0 (ret a) Qv Qx.
Proof. intros HQ w Hw. simpl. now rewrite Hw. Qed.

(** A block that only reads: the model stays, whatever the outcome. *)
Lemma triple_of_spec {A} P Qe s0 (m : M A) (Qa : A -> Prop) :
  spec P Qe s0 m Qa ->
  triple s0 m (fun a s => Qa a /\ s = s0) (fun e s => Qe e /\ s = s0).
Proof.
  intros Hm w Hw. destruct (Hm w Hw) as (Hs & _ & Ho).
  destruct (fst (m w)); simpl in Ho; auto.
Qed.

Lemma triple_read {A B} P Qe s0 (m : M A) (k : A -> M B) (Qa : A -> Prop) Qv Qx :
  spec P Qe s0 m Qa ->
  (forall e, Qe e -> Qx e s0) ->
  (forall a, Qa a -> triple s0 (k a) Qv Qx) ->
  triple s0 (bind m k) Qv Qx.
Proof.
  intros Hm Hx Hk. eapply triple_bind.
  - eapply triple_conseq; [apply (triple_of_spec Hm) | |].
    + intros a s H. exact H.
    + intros e s [He ->]. now apply Hx.
  - intros a s1 [Ha ->]. now apply Hk.
Qed.

Lemma triple_set_kern s0 ks Qx :
  triple s0 (set_kern ks) (fun _ s => s = with_kern s0 ks) Qx.
Proof. intros w Hw. simpl. now rewrite Hw. Qed.

Lemma triple_set_variance_gradient s0 g Qx :
  triple s0 (set_variance_gradient g)
         (fun _ s => s = with_variance_gradient s0 g) Qx.
Proof. intros w Hw. simpl. now rewrite Hw. Qed.

Lemma triple_set_parameters s0 reg Qx :
  triple s0 (set_parameters reg) (fun _ s => s = with_parameters s0 reg) Qx.
Proof. intros w Hw. simpl. now rewrite Hw. Qed.

(** The loop rule: [Inv done acc s] once the elements [done] are through. *)
Lemma triple_foldM {A B} (f : A -> B -> M A)
    (Inv : list B -> A -> OMGP -> Prop) (Qx : exn -> OMGP -> Prop) l :
  forall pre acc s,
  Inv pre acc s ->
  (forall done b todo a s', pre ++ l = done ++ b :: todo ->
     (length pre <= length done)%nat ->
     Inv done a s' -> triple s' (f a b) (Inv (done ++ [b])) Qx) ->
  triple s (foldM f acc l) (Inv (pre ++ l)) Qx.
Proof.
  induction l as [|b l IH]; intros pre acc s Hinv Hstep; simpl.
  - rewrite app_nil_r. apply triple_ret. exact Hinv.
  - eapply triple_bind; [apply (Hstep pre b l acc s eq_refl (le_n _) Hinv)|].
    intros a s1 Ha.
    replace (pre ++ b :: l) with ((pre ++ [b]) ++ l) by now rewrite <- app_assoc.
    apply IH; auto.
    intros done b' todo a' s' Heq Hlen Hinv'.
    apply (Hstep done b' todo a' s'); auto.
    + now rewrite <- Heq, <- app_assoc.
    + rewrite length_app in Hlen. simpl in Hlen. lia.
Qed.

End Triples.

(** ** What [update_kern_grads] keeps and what it needs *)

Lemma length_replace_nth {T} n (x : T) l : length (replace_nth n x l) = length l.
Proof.
  revert n. induction l as [|y l IH]; intros [|n]; simpl; auto.
Qed.

Section GradsFrame.

Context {E : Externals}.
Variable s0 : OMGP.

(** The models that differ from [s0] in the kernels' contents and in the
    variance gradient only. *)
Definition graded_like (s : OMGP) : Prop :=
  exists l g, s = with_variance_gradient (with_kern s0 l) g /\
              length l = length (self_kern s0).

(** Column [i] of phi exists and holds no zero. *)
Definition column_nonzero (i : nat) : Prop :=
  (i < ncols (self_phi s0))%nat /\
  forall n, (n < nrows (self_phi s0))%nat -> get (self_phi s0) n i <> 0.

Lemma graded_like_refl : graded_like s0.
Proof.
  exists (self_kern s0), (self_variance_gradient s0).
  split; [destruct s0; reflexivity | reflexivity].
Qed.

Lemma spec_B_inv_unfloored_any s i :
  spec any_event any_exn s (B_inv_unfloored i)
       (fun _ => (i < ncols (self_phi s))%nat /\
                 forall n, (n < nrows (self_phi s))%nat -> get (self_phi s) n i <> 0).
Proof.
  eapply spec_conseq.
  - apply spec_B_inv_unfloored; try (intros; exact I).
    intros n Hn. split; exact I.
  - intros B (Hi & _ & Hnz). split; [exact Hi|].
    intros n Hn Hz. apply (Hnz n Hn). rewrite Hz. unfold Rdiv. ring.
Qed.

(** A read-only step inside a block that may change the model. *)
Ltac tr_read lem :=
  eapply triple_read; [lem | intros; assumption | intros; cbv beta in *].

Lemma kern_grad_step_keeps s i kern :
  graded_like s ->
  triple s (kern_grad_step tt (i, kern))
         (fun _ s' => graded_like s' /\ column_nonzero i)
         (fun _ s' => graded_like s').
Proof.
  intros Hs. unfold kern_grad_step.
  tr_read ltac:(apply (spec_get_self any_event any_exn)). subst.
  tr_read ltac:(apply (spec_call any_event any_exn); [exact I | intros; exact I]).
  eapply triple_read;
    [apply spec_B_inv_unfloored_any | intros; assumption | intros B_inv Hcol].
  tr_read ltac:(apply (spec_lift any_event any_exn); intros; exact I).
  tr_read ltac:(apply (spec_call any_event any_exn); [exact I | intros; exact I]).
  tr_read ltac:(apply (spec_lift any_event any_exn); intros; exact I).
  tr_read ltac:(apply (spec_call any_event any_exn); [exact I | intros; exact I]).
  tr_read ltac:(apply (spec_lift any_event any_exn); intros; exact I).
  eapply triple_read;
    [apply (spec_call any_event any_exn); [exact I | intros; exact I]
    | intros; assumption | intros kern' _].
  tr_read ltac:(apply (spec_get_self any_event any_exn)). subst.
  eapply triple_conseq; [apply triple_set_kern | | intros e s' Hkeep; exact Hkeep].
  intros _ s' ->. destruct Hs as (l & g & -> & Hlen). split.
  - exists (replace_nth i kern' l), g. split; [reflexivity|].
    now rewrite length_replace_nth.
  - destruct Hcol as [Hi Hnz]. split; assumption.
Qed.

End GradsFrame.

(** One step of a block that only reads, with nothing asked of the log. *)
Ltac any_step :=
  eapply spec_bind;
  [ first [ apply (spec_get_self any_event any_exn)
          | apply (spec_lift any_event any_exn); intros; exact I
          | apply (spec_call any_event any_exn); [exact I | intros; exact I]
          | apply (spec_fdiv any_event any_exn); [exact I | intros; exact I]
          | apply (spec_flog any_event any_exn); [exact I | intros; exact I]
          | apply (spec_vdiv_s any_event any_exn); intros; exact I
          | apply (spec_sdiv_v any_event any_exn); intros; exact I ]
  | intros; cbv beta in * ].

Section Reads.

Context {E : Externals}.

Lemma B_inv_floored_reads s i :
  spec any_event any_exn s (B_inv_floored i) any_value.
Proof.
  unfold B_inv_floored. do 4 any_step. apply spec_ret. exact I.
Qed.

Lemma B_inv_unfloored_reads s i :
  spec any_event any_exn s (B_inv_unfloored i) any_value.
Proof.
  unfold B_inv_unfloored. do 4 any_step. apply spec_ret. exact I.
Qed.

Lemma variance_term_reads s i kern :
  spec any_event any_exn s (variance_term i kern) any_value.
Proof.
  unfold variance_term. do 2 any_step.
  eapply spec_bind; [apply B_inv_floored_reads|]. intros B_inv _.
  do 8 any_step. apply spec_ret. exact I.
Qed.

Lemma predict_reads s Xnew i :
  spec any_event any_exn s (predict Xnew i) any_value.
Proof.
  unfold predict. do 5 any_step.
  eapply spec_bind; [apply B_inv_unfloored_reads|]. intros B_inv _.
  do 8 any_step. apply spec_ret. exact I.
Qed.

Lemma predict_components_reads s Xnew :
  spec any_event any_exn s (predict_components Xnew) any_value.
Proof.
  unfold predict_components. any_step.
  eapply spec_bind.
  { apply (spec_foldM (P := any_event) (Qe := any_exn) (s0 := s) _
             (fun _ _ => True) _ [] ([], []) I).
    intros done b todo [mus vas] _ _ _.
    eapply spec_bind; [apply predict_reads|]. intros mv _.
    apply spec_ret. exact I. }
  intros r _. do 2 any_step. apply spec_ret. exact I.
Qed.

End Reads.

Section GradsKeeps.

Context {E : Externals}.
Variable s0 : OMGP.

Lemma variance_grad_step_keeps s acc i kern :
  graded_like s0 s ->
  triple s (variance_grad_step acc (i, kern))
         (fun _ s' => graded_like s0 s') (fun _ s' => graded_like s0 s').
Proof.
  intros Hs. unfold variance_grad_step.
  eapply triple_read;
    [apply variance_term_reads | intros; assumption | intros t _].
  eapply triple_bind.
  - eapply triple_conseq;
      [apply triple_set_variance_gradient with (Qx := fun _ s' => graded_like s0 s')
      | intros a s' Hs'; exact Hs' | intros e s' Hs'; exact Hs'].
  - intros _ s' ->. apply triple_ret.
    destruct Hs as (l & g & -> & Hlen). exists l, (acc + t). split; auto.
Qed.

(** Every kernel's column of phi is free of zeros. *)
Definition columns_nonzero : Prop :=
  forall i, (i < length (self_kern s0))%nat -> column_nonzero s0 i.

Lemma update_kern_grads_keeps :
  triple s0 update_kern_grads
         (fun _ s' => graded_like s0 s' /\ columns_nonzero)
         (fun _ s' => graded_like s0 s').
Proof.
  unfold update_kern_grads.
  eapply triple_read;
    [apply (spec_get_self any_event any_exn)
    | intros; apply graded_like_refl | intros s ->].
  eapply triple_bind.
  { apply (@triple_foldM E _ _ kern_grad_step
             (fun done _ s' =>
                graded_like s0 s' /\
                forall i, (i < length done)%nat -> column_nonzero s0 i)
             (fun _ s' => graded_like s0 s')
             (enumerate (self_kern s0)) [] tt s0).
    - split; [apply graded_like_refl | simpl; intros i Hi; lia].
    - intros done [i kern] todo [] s' Heq _ [Hs' Hdone]. simpl in Heq.
      apply enumerate_split in Heq. destruct Heq as (-> & Hnth & Hlt).
      eapply triple_conseq;
        [apply kern_grad_step_keeps; exact Hs' | | intros e s1 Hs1; exact Hs1].
      intros _ s1 [Hs1 Hcol]. split; [exact Hs1|].
      intros i Hi. rewrite length_app in Hi. simpl in Hi.
      destruct (Nat.eq_dec i (length done)) as [->|Hne];
        [exact Hcol | apply Hdone; lia]. }
  intros u s1 [Hs1 Hall]. simpl in Hall.
  assert (Hcols : columns_nonzero).
  { intros i Hi. apply Hall. unfold enumerate.
    now rewrite length_combine, length_seq, Nat.min_id. }
  eapply triple_read;
    [apply (spec_get_self any_event any_exn)
    | intros; assumption | intros s ->].
  eapply triple_bind.
  { apply (@triple_foldM E _ _ variance_grad_step
             (fun _ _ s' => graded_like s0 s')
             (fun _ s' => graded_like s0 s')
             (enumerate (self_kern s1)) [] 0 s1 Hs1).
    intros done [i kern] todo a s' _ _ Hs'.
    now apply variance_grad_step_keeps. }
  intros g s2 Hs2. apply triple_ret. split; assumption.
Qed.

End GradsKeeps.

(** ** More on [update_kern_grads] *)

(** X1.  Whatever [update_kern_grads()] returns or raises, it leaves X, Y,
    phi, the variance, the registry and the sizes N, D, K as they were, and
    the kernel list keeps its length: only the kernels' gradients and the
    variance gradient can change. *)
Theorem update_kern_grads_frame (E : Externals) (w : World) :
  let s := self w in
  let s' := self (snd (update_kern_grads w)) in
  self_X s' = self_X s /\ self_Y s' = self_Y s /\ self_phi s' = self_phi s /\
  self_variance s' = self_variance s /\
  self_parameters s' = self_parameters s /\
  self_N s' = self_N s /\ self_D s' = self_D s /\ self_K s' = self_K s /\
  self_H s' = self_H s /\ self_Hgrad s' = self_Hgrad s /\
  length (self_kern s') = length (self_kern s).
Proof.
  intros s s'.
  assert (Hlike : graded_like s s').
  { pose proof (update_kern_grads_keeps (s0 := s) w eq_refl) as Ho.
    unfold s'. destruct (fst (update_kern_grads w)); [apply Ho | exact Ho]. }
  destruct Hlike as (l & g & -> & Hlen). simpl. repeat split; auto.
Qed.

(** X2.  [update_kern_grads()] runs to its end only if, for every kernel,
    phi has the column and the column holds no exact zero: the first loop
    divides by phi[:, i] / variance as it stands. *)
Theorem update_kern_grads_needs_nonzero_phi (E : Externals) (w : World) :
  let s := self w in
  fst (update_kern_grads w) = Ok tt ->
  forall i, (i < length (self_kern s))%nat ->
    (i < ncols (self_phi s))%nat /\
    forall n, (n < nrows (self_phi s))%nat -> get (self_phi s) n i <> 0.
Proof.
  intros s Hret.
  pose proof (update_kern_grads_keeps (s0 := s) w eq_refl) as Ho.
  rewrite Hret in Ho. destruct Ho as [_ Hcols]. exact Hcols.
Qed.

Lemma two_update_kern_grads_returns :
  fst (update_kern_grads Example.w_two) = Ok tt.
Proof.
  destruct (hoare_returns Example.w_two
              (@update_kern_grads_value Small.externals Small.contract
                 Example.two_components
                 (fun _ => Example.K_one) a1_two Ai1_two kern1_two
                 (fun _ => Example.K_one) Example.alpha_two Example.inverse_two
                 two_variance_pos two_floored_nonzero eq_refl
                 two_kernels_graded two_graded_inverted)
              eq_refl)
    as ([] & Hret & _).
  exact Hret.
Qed.

Lemma update_kern_grads_needs_nonzero_phi_witness :
  fst (update_kern_grads Example.w_two) = Ok tt /\
  forall i, (i < 2)%nat ->
    (i < 2)%nat /\
    forall n, (n < 1)%nat -> get (self_phi Example.two_components) n i <> 0.
Proof.
  split; [exact two_update_kern_grads_returns|].
  apply (@update_kern_grads_needs_nonzero_phi Small.externals Example.w_two).
  exact two_update_kern_grads_returns.
Defined.

(** ** More on [do_computations] *)

Section ReconcileEdges.

Context {E : Externals}.

(** With K kernels in the list the method does nothing at all. *)
Lemma do_computations_fixed w :
  length (self_kern (self w)) = self_K (self w) ->
  do_computations w = (Ok tt, w).
Proof.
  intros Hlen. unfold do_computations, bind, get_self. simpl.
  rewrite Hlen, Nat.ltb_irrefl. simpl. rewrite Hlen, Nat.ltb_irrefl.
  reflexivity.
Qed.

Definition unlink_body (kern : kernel) : M unit :=
  s3 <- get_self ;;
  reg <- call F_unlink_parameter (unlink_parameter (self_parameters s3) kern) ;;
  set_parameters reg.

Lemma unlink_loop_fails l :
  forall s e,
  unlink_all (self_parameters s) l = Err e ->
  triple s (forM_ l unlink_body)
         (fun _ _ => False)
         (fun e' s' => e' = e /\ self_kern s' = self_kern s).
Proof.
  induction l as [|k l IH]; intros s e Hall; simpl in Hall; [discriminate|].
  unfold forM_. simpl.
  destruct (unlink_parameter (self_parameters s) k) as [r1|e1] eqn:Hun;
    simpl in Hall.
  - eapply triple_bind.
    + unfold unlink_body.
      eapply triple_read;
        [apply (spec_get_self any_event no_exn) | intros e' [] | intros s3 ->].
      rewrite Hun.
      eapply triple_read;
        [apply (spec_call any_event no_exn); [exact I | discriminate]
        | intros e' [] | intros reg Hreg].
      injection Hreg as <-.
      apply triple_set_parameters.
    + intros [] s1 ->.
      eapply triple_conseq; [apply (IH (with_parameters s r1) e Hall) | |].
      * intros a s' Hf. exact Hf.
      * intros e' s' [-> Hk]. split; [reflexivity | exact Hk].
  - injection Hall as <-.
    eapply triple_bind with (Qa := fun _ _ => False); [|intros ? ? []].
    unfold unlink_body.
    eapply triple_read;
      [apply (spec_get_self any_event (fun e' => e' = e1))
      | intros e' -> | intros s3 ->].
    { split; reflexivity. }
    rewrite Hun.
    eapply triple_read;
      [apply (spec_call any_event (fun e' => e' = e1));
         [exact I | intros e'; injection 1 as <-; reflexivity]
      | intros e' ->; split; reflexivity
      | intros reg Hreg; discriminate].
Qed.

End ReconcileEdges.

(** X3.  With an empty kernel list and K > 0, [do_computations()] raises
    IndexError at [self.kern[-1]] and changes nothing: no kernel is copied,
    no parameter linked. *)
Theorem do_computations_without_kernels (E : Externals) (w : World) :
  self_kern (self w) = [] ->
  (0 < self_K (self w))%nat ->
  do_computations w = (Err IndexError, w).
Proof.
  intros Hk HK. unfold do_computations, bind, get_self. simpl.
  rewrite Hk. simpl.
  destruct (self_K (self w)) as [|K']; [lia|]. reflexivity.
Qed.

Lemma do_computations_without_kernels_witness :
  do_computations
    (mkWorld (with_kern Example.one_of_three []) [])
  = (Err IndexError, mkWorld (with_kern Example.one_of_three []) []).
Proof.
  apply (@do_computations_without_kernels Small.externals
           (mkWorld (with_kern Example.one_of_three []) [])).
  - reflexivity.
  - simpl. lia.
Defined.

(** X4.  When unlinking one of the excess kernels fails, [do_computations()]
    raises that error and the kernel list is not cut: it still holds all
    its entries. *)
Theorem do_computations_unlink_failure
    (E : Externals) (w : World) (e : exn) :
  let s := self w in
  (self_K s < length (self_kern s))%nat ->
  unlink_all (self_parameters s) (skipn (self_K s) (self_kern s)) = Err e ->
  fst (do_computations w) = Err e /\
  self_kern (self (snd (do_computations w))) = self_kern s.
Proof.
  intros s Hlt Hall.
  assert (Ht : triple s do_computations (fun _ _ => False)
                 (fun e' s' => e' = e /\ self_kern s' = self_kern s)).
  { unfold do_computations.
    eapply triple_read;
      [apply (spec_get_self any_event no_exn) | intros e' [] | intros s1 ->].
    destruct (Nat.ltb_spec (length (self_kern s)) (self_K s)) as [Hlt'|_]; [lia|].
    eapply triple_bind;
      [apply triple_ret with (Qv := fun (_ : unit) s' => s' = s); reflexivity|].
    intros _ s1 ->.
    eapply triple_read;
      [apply (spec_get_self any_event no_exn) | intros e' [] | intros s2 ->].
    destruct (Nat.ltb_spec (self_K s) (length (self_kern s))) as [_|Hge]; [|lia].
    eapply triple_bind with (Qa := fun _ _ => False); [|intros ? ? []].
    apply unlink_loop_fails. exact Hall. }
  pose proof (Ht w eq_refl) as Ho.
  destruct (fst (do_computations w)) as [a|e']; [contradiction|].
  destruct Ho as [-> Hk]. split; [reflexivity | exact Hk].
Qed.

Lemma do_computations_unlink_failure_witness :
  fst (do_computations
         (mkWorld (with_parameters Example.three_of_one []) [])) = Err HierarchyError /\
  self_kern (self (snd (do_computations
                          (mkWorld (with_parameters Example.three_of_one []) []))))
  = [Example.k1; Example.k1; Example.k1].
Proof.
  apply (@do_computations_unlink_failure Small.externals
           (mkWorld (with_parameters Example.three_of_one []) []) HierarchyError).
  - simpl. lia.
  - reflexivity.
Defined.

(** A registry that refuses a parameter it holds already, as paramz does. *)
Module Strict.

Import Small.

Definition strict_link (reg : list bias_kernel) (k : bias_kernel)
  : result (list bias_kernel) :=
  if in_dec bias_eq_dec k reg then Err HierarchyError else Ok (reg ++ [k]).

Definition externals : Externals := {|
  kernel := bias_kernel;
  registry := list bias_kernel;
  kern_K := bias_K;
  kern_K2 := bias_K2;
  kern_copy := fun k => k;
  update_gradients_full := bias_update;
  link_parameter := strict_link;
  unlink_parameter := list_unlink;
  cho_solve := small_cho_solve;
  linalg_solve := small_solve;
  pdinv := small_pdinv;
  slogdet := small_slogdet;
  mixing_prop_bound := fun _ => Ok 0;
  mixing_prop_bound_grad := fun phi => Ok (zeros_like phi)
|}.

(** One kernel, already registered, where three components are asked for. *)
Definition one_of_three : @OMGP externals :=
  @mkOMGP externals (mkarray 1 1 [0]) (mkarray 1 1 [1]) 1 1 3
          (mkarray 1 3 [1/3; 1/3; 1/3]) 0 (mkarray 1 3 [0; 0; 0])
          [Example.k1] 1 0 [Example.k1].

Definition w_one_of_three : @World externals := mkWorld one_of_three [].

End Strict.

(** X5.  When linking the copy fails, [do_computations()] raises that error
    after the copy has been appended: the kernel list is one entry longer
    and the registry is as before. *)
Theorem do_computations_link_failure
    (E : Externals) (w : World) (init : list kernel) (last : kernel) (e : exn) :
  let s := self w in
  self_kern s = init ++ [last] ->
  (length (self_kern s) < self_K s)%nat ->
  link_parameter (self_parameters s) (kern_copy last) = Err e ->
  fst (do_computations w) = Err e /\
  self_kern (self (snd (do_computations w))) = self_kern s ++ [kern_copy last] /\
  self_parameters (self (snd (do_computations w))) = self_parameters s.
Proof.
  intros s Hkern Hlt Hlink.
  assert (Ht : triple s do_computations (fun _ _ => False)
                 (fun e' s' => e' = e /\
                               s' = with_kern s (self_kern s ++ [kern_copy last]))).
  { unfold do_computations.
    eapply triple_read;
      [apply (spec_get_self any_event no_exn) | intros e' [] | intros s1 ->].
    destruct (Nat.ltb_spec (length (self_kern s)) (self_K s)) as [_|Hge]; [|lia].
    eapply triple_bind with (Qa := fun _ _ => False); [|intros ? ? []].
    rewrite Hkern at 1. rewrite getitem_last.
    eapply triple_read;
      [apply (spec_lift any_event no_exn); discriminate
      | intros e' [] | intros l Hl].
    injection Hl as <-.
    eapply triple_bind; [apply triple_set_kern|].
    intros _ s1 ->.
    eapply triple_read;
      [apply (spec_get_self any_event (fun e' => e' = e))
      | intros e' ->; split; reflexivity | intros s2 ->].
    simpl. rewrite getitem_last.
    eapply triple_read;
      [apply (spec_lift any_event (fun e' => e' = e)); discriminate
      | intros e' ->; split; reflexivity | intros new Hnew].
    injection Hnew as <-. rewrite Hlink.
    eapply triple_read;
      [apply (spec_call any_event (fun e' => e' = e));
         [exact I | intros e'; injection 1 as <-; reflexivity]
      | intros e' ->; split; reflexivity
      | intros reg Hreg; discriminate]. }
  pose proof (Ht w eq_refl) as Ho.
  destruct (fst (do_computations w)) as [a|e']; [contradiction|].
  destruct Ho as [-> Hs]. rewrite Hs. simpl. repeat split.
Qed.

Lemma do_computations_link_failure_witness :
  fst (do_computations Strict.w_one_of_three) = Err HierarchyError /\
  self_kern (self (snd (do_computations Strict.w_one_of_three)))
  = [Example.k1; Example.k1] /\
  self_parameters (self (snd (do_computations Strict.w_one_of_three)))
  = [Example.k1].
Proof.
  apply (@do_computations_link_failure Strict.externals Strict.w_one_of_three
           [] Example.k1 HierarchyError).
  - reflexivity.
  - simpl. lia.
  - simpl. unfold Strict.strict_link.
    destruct (in_dec Small.bias_eq_dec Example.k1 [Example.k1]) as [_|Hnot];
      [reflexivity|].
    exfalso. apply Hnot. now left.
Defined.

(** X6.  After a call of [do_computations()] that leaves K kernels (it
    started from at least K - 1), a second call does nothing: same model,
    nothing logged. *)
Theorem do_computations_twice (E : Externals) (w : World) (reg' : registry) :
  let s := self w in
  reconciled_registry s = Ok reg' ->
  (self_K s <= S (length (self_kern s)))%nat ->
  do_computations (snd (do_computations w)) = (Ok tt, snd (do_computations w)).
Proof.
  intros s Hreg Hle.
  destruct (hoare_returns w (do_computations_value Hreg) eq_refl)
    as ([] & _ & Hs).
  apply do_computations_fixed. rewrite Hs. simpl.
  rewrite (reconciled_length _ Hreg).
  destruct (Nat.ltb_spec (length (self_kern s)) (self_K s)); lia.
Qed.

Lemma do_computations_twice_witness :
  do_computations (snd (do_computations (mkWorld Example.three_of_one [])))
  = (Ok tt, snd (do_computations (mkWorld Example.three_of_one []))).
Proof.
  apply (@do_computations_twice Small.externals
           (mkWorld Example.three_of_one []) [Example.k1]).
  - unfold reconciled_registry. simpl.
    destruct (Small.bias_eq_dec Example.k1 Example.k1) as [_|Hne];
      [|contradiction]; simpl.
    destruct (Small.bias_eq_dec Example.k1 Example.k1) as [_|Hne];
      [|contradiction]; reflexivity.
  - simpl. lia.
Defined.

(** Calling a method [n] times in a row. *)
Fixpoint repeatM {E : Externals} (n : nat) (m : M unit) : M unit :=
  match n with
  | O => ret tt
  | S n' => m ;;; repeatM n' m
  end.

(** X7.  With a registry that accepts every link, K - L calls of
    [do_computations()] bring a non-empty list of L <= K kernels to K
    entries, the first L of which are the kernels it started with. *)
Theorem do_computations_repeated_reaches_K (E : Externals) (w : World) :
  (forall reg k, exists r, link_parameter reg k = Ok r) ->
  self_kern (self w) <> [] ->
  (length (self_kern (self w)) <= self_K (self w))%nat ->
  exists w',
    repeatM (self_K (self w) - length (self_kern (self w))) do_computations w
    = (Ok tt, w') /\
    length (self_kern (self w')) = self_K (self w) /\
    firstn (length (self_kern (self w))) (self_kern (self w')) = self_kern (self w).
Proof.
  intros Hlink.
  remember (self_K (self w) - length (self_kern (self w)))%nat as n eqn:Hn.
  revert w Hn. induction n as [|n IH]; intros w Hn Hne Hle.
  - exists w. simpl. repeat split; [lia | apply firstn_all].
  - destruct (exists_last Hne) as (init & last & Hkern).
    destruct (Hlink (self_parameters (self w)) (kern_copy last)) as [r Hr].
    assert (Hlt : (length (self_kern (self w)) < self_K (self w))%nat) by lia.
    destruct (hoare_returns w
                (do_computations_grows init last Hkern Hlt Hr) eq_refl)
      as ([] & Hret & Hs).
    simpl. unfold bind.
    destruct (do_computations w) as [[[]|e] w1] eqn:Hrun; simpl in Hret, Hs;
      [|discriminate].
    assert (HK : self_K (self w1) = self_K (self w)) by (rewrite Hs; reflexivity).
    assert (Hk1 : self_kern (self w1) = self_kern (self w) ++ [kern_copy last])
      by (rewrite Hs; reflexivity).
    destruct (IH w1) as (w' & Hrep & Hlen & Hpre).
    + rewrite HK, Hk1, length_app. simpl. lia.
    + rewrite Hk1. destruct (self_kern (self w)); discriminate.
    + rewrite HK, Hk1, length_app. simpl. lia.
    + exists w'. split; [exact Hrep|]. split; [congruence|].
      rewrite Hk1, length_app in Hpre. simpl in Hpre.
      assert (Hcut : firstn (length (self_kern (self w)))
                       (firstn (length (self_kern (self w)) + 1) (self_kern (self w')))
                     = self_kern (self w)).
      { rewrite Hpre, firstn_app, Nat.sub_diag, firstn_all. simpl.
        apply app_nil_r. }
      rewrite firstn_firstn in Hcut.
      replace (Nat.min (length (self_kern (self w)))
                       (length (self_kern (self w)) + 1))
        with (length (self_kern (self w))) in Hcut by lia.
      exact Hcut.
Qed.

Lemma do_computations_repeated_reaches_K_witness :
  exists w',
    repeatM 2 do_computations Example.w_one_of_three = (Ok tt, w') /\
    length (self_kern (self w')) = 3%nat /\
    firstn 1 (self_kern (self w')) = [Example.k1].
Proof.
  apply (@do_computations_repeated_reaches_K Small.externals
           Example.w_one_of_three).
  - intros reg k. simpl. unfold Small.list_link. eauto.
  - discriminate.
  - simpl. lia.
Defined.

(** ** More on [bound] *)

(** X8.  Without kernels the loop of [bound()] is not entered: the method
    calls the mixing-proportion bound and nothing else, and returns it plus
    the entropy H (or raises what that call raises). *)
Theorem bound_without_kernels (E : Externals) (w : World) :
  self_kern (self w) = [] ->
  fst (bound w) =
    rbind (mixing_prop_bound (self_phi (self w)))
          (fun mpb => Ok (0 + mpb + self_H (self w))) /\
  snd (bound w) =
    mkWorld (self w) (EvCall F_mixing_prop_bound :: events w).
Proof.
  intros Hk. unfold bound, bind, get_self, call, emit, lift. simpl.
  rewrite Hk. simpl.
  destruct (mixing_prop_bound (self_phi (self w))); split; reflexivity.
Qed.

Lemma bound_without_kernels_witness :
  fst (bound Example.w_no_kernel) = Ok (0 + 0 + 0) /\
  snd (bound Example.w_no_kernel) =
    mkWorld Example.no_kernel [EvCall F_mixing_prop_bound].
Proof.
  apply (@bound_without_kernels Small.externals Example.w_no_kernel).
  reflexivity.
Defined.

Section BoundNeeds.

Context {E : Externals}.
Variable s0 : OMGP.

Lemma bound_step_needs acc i kern :
  spec any_event any_exn s0 (bound_step acc (i, kern))
       (fun _ => (i < ncols (self_phi s0))%nat).
Proof.
  unfold bound_step. any_step. subst. any_step.
  eapply spec_bind.
  { apply (spec_B_inv_floored any_event any_exn); try (intros; exact I).
    intros n Hn. split; exact I. }
  intros B_inv [Hi _]. do 7 any_step.
  apply spec_ret. exact Hi.
Qed.

Lemma bound_needs :
  spec any_event any_exn s0 bound
       (fun _ => (length (self_kern s0) <= ncols (self_phi s0))%nat).
Proof.
  unfold bound. any_step. subst.
  eapply spec_bind.
  { apply (spec_foldM (P := any_event) (Qe := any_exn) (s0 := s0) bound_step
             (fun done _ => (length done <= ncols (self_phi s0))%nat)
             (enumerate (self_kern s0)) [] 0).
    - simpl. lia.
    - intros done [i kern] todo a Heq _ Hlen. simpl in Heq.
      apply enumerate_split in Heq. destruct Heq as (-> & Hnth & Hlt).
      eapply spec_conseq; [apply bound_step_needs|].
      intros r Hi. rewrite length_app. simpl in *. lia. }
  intros GP Hlen. simpl in Hlen. do 2 any_step.
  apply spec_ret. unfold enumerate in Hlen.
  rewrite length_combine, length_seq, Nat.min_id in Hlen.
  exact Hlen.
Qed.

End BoundNeeds.

(** X9.  [bound()] returns a value only if phi has a column for every
    kernel: with fewer columns than kernels, [self.phi[:, i]] raises. *)
Theorem bound_needs_phi_columns (E : Externals) (w : World) (v : R) :
  let s := self w in
  fst (bound w) = Ok v ->
  (length (self_kern s) <= ncols (self_phi s))%nat.
Proof.
  intros s Hret.
  destruct (bound_needs (s0 := s) w eq_refl) as (_ & _ & Ho).
  rewrite Hret in Ho. exact Ho.
Qed.

Lemma two_bound_value :
  fst (bound Example.w_two) =
    Ok (GP_bound_doc Example.two_components Example.system_two Example.alpha_two
        + 0 + self_H Example.two_components).
Proof.
  assert (Hrun : forall i kern,
             nth_error (self_kern Example.two_components) i = Some kern ->
             component_run Example.two_components i kern
               (Example.system_two i) (Example.alpha_two i)).
  { intros i kern Hnth.
    apply (component_solved_run Small.contract).
    now apply two_components_solved. }
  destruct (spec_returns Example.w_two
              (@bound_value Small.externals Example.two_components
                 two_variance_pos two_floored_nonzero Small.contract
                 Example.system_two Example.alpha_two eq_refl Hrun 0 eq_refl)
              eq_refl)
    as (v & Hret & ->).
  exact Hret.
Qed.

Lemma bound_needs_phi_columns_witness :
  (length (self_kern Example.two_components)
   <= ncols (self_phi Example.two_components))%nat.
Proof.
  apply (@bound_needs_phi_columns Small.externals Example.w_two
           (GP_bound_doc Example.two_components Example.system_two
              Example.alpha_two
            + 0 + self_H Example.two_components)).
  exact two_bound_value.
Defined.

Lemma spec_no_exn {E : Externals} {A} P Qe s0 (m : M A) (Qv : A -> Prop) :
  spec P no_exn s0 m Qv -> spec P Qe s0 m Qv.
Proof.
  intros Hm w Hw. destruct (Hm w Hw) as (Hs & Htr & Ho).
  repeat split; auto.
  destruct (fst (m w)); simpl in *; [exact Ho | contradiction].
Qed.

Section BoundFailure.

Context {E : Externals}.
Variable C : LinAlgContract E.
Variable s0 : OMGP.

Hypothesis variance_pos : 0 < self_variance s0.
Hypothesis floored_nonzero :
  forall n i, (n < nrows (self_phi s0))%nat -> (i < ncols (self_phi s0))%nat ->
    get (self_phi s0) n i + floor <> 0.

(** The component at which the Cholesky solver gives up. *)
Variable j : nat.
Variable kern_j : kernel.
Variables K_j A_j : ndarray.
Variable e : exn.
Variables As alphas : nat -> ndarray.

Hypothesis j_column : (j < ncols (self_phi s0))%nat.
Hypothesis j_kernel : nth_error (self_kern s0) j = Some kern_j.
Hypothesis j_covariance : kern_K kern_j (self_X s0) = Ok K_j.
Hypothesis j_system : add K_j (B_inv_doc s0 j) = Ok A_j.
Hypothesis j_fails : cho_solve A_j (self_Y s0) = Err e.
Hypothesis before_j :
  forall i kern, (i < j)%nat -> nth_error (self_kern s0) i = Some kern ->
    component_run s0 i kern (As i) (alphas i).

Lemma bound_step_fails acc :
  spec any_event (fun e' => e' = e) s0 (bound_step acc (j, kern_j))
       (fun _ => False).
Proof.
  unfold bound_step.
  eapply spec_bind; [apply spec_get_self|]. intros s ->.
  rewrite j_covariance.
  eapply spec_bind; [apply spec_call; [exact I | discriminate]|].
  intros K' HK'. injection HK' as <-.
  eapply spec_bind;
    [apply spec_no_exn, (spec_B_inv_floored_value variance_pos floored_nonzero j_column)|].
  intros B_inv ->. rewrite j_system.
  eapply spec_bind; [apply spec_lift; discriminate|].
  intros A' HA. injection HA as <-.
  rewrite j_fails.
  eapply spec_bind.
  { apply spec_call; [exact I|]. intros e'. injection 1 as <-. reflexivity. }
  intros alpha Ha. discriminate.
Qed.

Lemma bound_fails :
  spec any_event (fun e' => e' = e) s0 bound (fun _ => False).
Proof.
  assert (Hj : (j < length (self_kern s0))%nat)
    by (apply nth_error_Some; congruence).
  unfold bound.
  eapply spec_bind; [apply spec_get_self|]. intros s ->.
  eapply spec_bind.
  { apply (spec_foldM (P := any_event) (Qe := fun e' => e' = e) (s0 := s0)
             bound_step (fun done _ => (length done <= j)%nat)
             (enumerate (self_kern s0)) [] 0).
    - simpl. lia.
    - intros done [i kern] todo a Heq _ Hlen. simpl in Heq.
      apply enumerate_split in Heq. destruct Heq as (-> & Hnth & Hlt).
      destruct (Nat.eq_dec (length done) j) as [Heq|Hne].
      + rewrite Heq in Hnth |- *. rewrite j_kernel in Hnth.
        injection Hnth as <-.
        eapply spec_conseq; [apply bound_step_fails|]. intros _ [].
      + assert (Hlt' : (length done < j)%nat) by lia.
        eapply spec_conseq.
        * apply spec_no_exn.
          apply (bound_step_value variance_pos floored_nonzero C a
                   (i := length done) (kern := kern)); [lia|].
          now apply before_j.
        * intros _ _. rewrite length_app. simpl. lia. }
  intros GP Hlen. simpl in Hlen. unfold enumerate in Hlen.
  rewrite length_combine, length_seq, Nat.min_id in Hlen. lia.
Qed.

End BoundFailure.

(** X10.  When the kernels before position j are evaluated and solved and
    the Cholesky solve of component j fails, [bound()] raises that very
    error: no fallback, no retry, and the model is as before. *)
Theorem bound_raises_first_solver_failure
    (E : Externals) (C : LinAlgContract E) (w : World)
    (j : nat) (kern_j : kernel) (K_j A_j : ndarray) (e : exn)
    (As alphas : nat -> ndarray) :
  let s := self w in
  0 < self_variance s ->
  (forall n i, (n < nrows (self_phi s))%nat -> (i < ncols (self_phi s))%nat ->
     get (self_phi s) n i + floor <> 0) ->
  (j < ncols (self_phi s))%nat ->
  nth_error (self_kern s) j = Some kern_j ->
  kern_K kern_j (self_X s) = Ok K_j ->
  add K_j (B_inv_doc s j) = Ok A_j ->
  cho_solve A_j (self_Y s) = Err e ->
  (forall i kern, (i < j)%nat -> nth_error (self_kern s) i = Some kern ->
     component_run s i kern (As i) (alphas i)) ->
  fst (bound w) = Err e /\ self (snd (bound w)) = s.
Proof.
  intros s Hv Hnz Hj Hkern HK Hadd Hfail Hbefore.
  destruct (@bound_fails E C s Hv Hnz j kern_j K_j A_j e As alphas
              Hj Hkern HK Hadd Hfail Hbefore w eq_refl)
    as (Hs & _ & Ho).
  split; [|exact Hs].
  destruct (fst (bound w)) as [v|e']; simpl in Ho; [contradiction | now subst].
Qed.

(** A model whose only kernel has a negative variance: its covariance
    matrix is not positive definite. *)
Section NegativeKernel.

Import Small.

Definition negative_kernel : OMGP :=
  mkOMGP (mkarray 1 1 [0]) (mkarray 1 1 [1]) 1 1 1
         (mkarray 1 1 [1]) 0 (mkarray 1 1 [0])
         [mkbias (-10) 0] 1 0 [mkbias (-10) 0].

Definition negative_system : ndarray :=
  madd (mk 1 1 (fun _ _ => -10)) (B_inv_doc negative_kernel 0).

Lemma negative_system_fails :
  small_cho_solve negative_system (self_Y negative_kernel) = Err LinAlgError.
Proof.
  unfold small_cho_solve, small_pd. simpl.
  destruct (Rlt_dec 0 (get negative_system 0 0)) as [Hpos|_]; [|reflexivity].
  exfalso. cbn in Hpos. unfold floor in Hpos. lra.
Qed.

End NegativeKernel.

Lemma bound_raises_first_solver_failure_witness :
  fst (bound (mkWorld negative_kernel [])) = Err LinAlgError /\
  self (snd (bound (mkWorld negative_kernel []))) = negative_kernel.
Proof.
  apply (@bound_raises_first_solver_failure Small.externals Small.contract
           (mkWorld negative_kernel []) 0 (Small.mkbias (-10) 0)
           (mk 1 1 (fun _ _ => -10)) negative_system LinAlgError
           (fun _ => negative_system) (fun _ => negative_system)).
  - simpl. lra.
  - simpl. intros n i Hn Hi.
    assert (n = 0)%nat as -> by lia. assert (i = 0)%nat as -> by lia.
    cbn. unfold floor. lra.
  - simpl. lia.
  - reflexivity.
  - reflexivity.
  - reflexivity.
  - exact negative_system_fails.
  - intros i kern Hi. lia.
Defined.

(** ** More on [vb_grad_natgrad] *)

Lemma length_flatten_mk r c f : length (flatten (mk r c f)) = (r * c)%nat.
Proof. apply wf_mk. Qed.

Lemma nth_flatten_mk r c f n k :
  (n < r)%nat -> (k < c)%nat -> nth (n * c + k) (flatten (mk r c f)) 0 = f n k.
Proof. intros Hn Hk. apply (get_mk f Hn Hk). Qed.

(** X11.  When [vb_grad_natgrad()] runs to its end, both vectors it returns
    have N times K entries, and the first is the second multiplied entry by
    entry with phi: grad[n, k] = natgrad[n, k] * phi[n, k]. *)
Theorem natgrad_pair_shape_and_product
    (E : Externals) (C : LinAlgContract E) (w : World)
    (Ks alphas Ainvs : nat -> ndarray) (mg : ndarray) :
  let s := self w in
  let N := nrows (self_phi s) in
  let K := ncols (self_phi s) in
  natgrad_inputs s Ks alphas Ainvs mg ->
  nonnegative (self_phi s) ->
  exists grad natgrad,
    fst (vb_grad_natgrad w) = Ok (grad, natgrad) /\
    length grad = (N * K)%nat /\ length natgrad = (N * K)%nat /\
    forall n k, (n < N)%nat -> (k < K)%nat ->
      nth (n * K + k) grad 0 = nth (n * K + k) natgrad 0 * get (self_phi s) n k.
Proof.
  intros s N K Hin Hnn.
  destruct (spec_returns w
              (vb_grad_natgrad_value C Hin (nonnegative_floored Hnn)) eq_refl)
    as (r & Hret & ->).
  eexists _, _. split; [exact Hret|].
  unfold grad_doc, natgrad_doc.
  rewrite !length_flatten_mk. repeat split.
  intros n k Hn Hk. rewrite !nth_flatten_mk by assumption.
  fold (row_dot s (grad_Lm_doc s alphas Ainvs) mg n).
  rewrite get_mk by assumption. reflexivity.
Qed.

Lemma natgrad_pair_shape_and_product_witness :
  exists grad natgrad,
    fst (vb_grad_natgrad Example.w_two) = Ok (grad, natgrad) /\
    length grad = (1 * 2)%nat /\ length natgrad = (1 * 2)%nat /\
    forall n k, (n < 1)%nat -> (k < 2)%nat ->
      nth (n * 2 + k) grad 0
      = nth (n * 2 + k) natgrad 0 * get (self_phi Example.two_components) n k.
Proof.
  apply (@natgrad_pair_shape_and_product Small.externals Small.contract
           Example.w_two (fun _ => Example.K_one) Example.alpha_two
           Example.inverse_two (zeros_like (self_phi Example.two_components))).
  - exact two_natgrad_inputs.
  - exact two_phi_nonnegative.
Defined.

(** X12.  For a phi whose rows are non-negative and sum to one, every row of
    the ordinary gradient that [vb_grad_natgrad()] returns sums to zero: a
    step along it keeps the row sums of phi. *)
Theorem natgrad_gradient_rows_sum_to_zero
    (E : Externals) (C : LinAlgContract E) (w : World)
    (Ks alphas Ainvs : nat -> ndarray) (mg : ndarray) :
  let s := self w in
  natgrad_inputs s Ks alphas Ainvs mg ->
  nonnegative (self_phi s) ->
  (forall n, (n < nrows (self_phi s))%nat ->
     sumn (ncols (self_phi s)) (fun k => get (self_phi s) n k) = 1) ->
  exists grad natgrad,
    fst (vb_grad_natgrad w) = Ok (grad, natgrad) /\
    forall n, (n < nrows (self_phi s))%nat ->
      sumn (ncols (self_phi s))
           (fun k => nth (n * ncols (self_phi s) + k) grad 0) = 0.
Proof.
  intros s Hin Hnn Hone.
  destruct (spec_returns w
              (vb_grad_natgrad_value C Hin (nonnegative_floored Hnn)) eq_refl)
    as (r & Hret & ->).
  eexists _, _. split; [exact Hret|].
  intros n Hn.
  transitivity
    (sumn (ncols (self_phi s))
          (fun k => get (self_phi s) n k
                    * nth (n * ncols (self_phi s) + k)
                          (flatten (natgrad_doc s (grad_Lm_doc s alphas Ainvs) mg)) 0)).
  - apply sumn_ext. intros k Hk. unfold grad_doc.
    rewrite nth_flatten_mk by assumption.
    change (nth (n * ncols (self_phi s) + k)
                (flatten (natgrad_doc s (grad_Lm_doc s alphas Ainvs) mg)) 0)
      with (get (natgrad_doc s (grad_Lm_doc s alphas Ainvs) mg) n k).
    ring.
  - apply natgrad_row_orthogonal; auto.
Qed.

Lemma natgrad_gradient_rows_sum_to_zero_witness :
  exists grad natgrad,
    fst (vb_grad_natgrad Example.w_two) = Ok (grad, natgrad) /\
    forall n, (n < 1)%nat ->
      sumn 2 (fun k => nth (n * 2 + k) grad 0) = 0.
Proof.
  apply (@natgrad_gradient_rows_sum_to_zero Small.externals Small.contract
           Example.w_two (fun _ => Example.K_one) Example.alpha_two
           Example.inverse_two (zeros_like (self_phi Example.two_components))).
  - exact two_natgrad_inputs.
  - exact two_phi_nonnegative.
  - exact two_rows_sum_to_one.
Defined.

(** ** More on [predict] and [predict_components] *)

Lemma py_index_out_of_range len i :
  (i < - Z.of_nat len \/ Z.of_nat len <= i)%Z -> py_index len i = Err IndexError.
Proof.
  intros Hout. unfold py_index.
  destruct (Z.leb_spec 0 i); destruct (Z.ltb_spec i (Z.of_nat len));
    destruct (Z.ltb_spec i 0); destruct (Z.leb_spec (- Z.of_nat len) i);
    simpl; try reflexivity; lia.
Qed.

Lemma py_index_nonnegative len i :
  (0 <= i < Z.of_nat len)%Z -> py_index len i = Ok (Z.to_nat i).
Proof.
  intros Hin. unfold py_index.
  destruct (Z.leb_spec 0 i); destruct (Z.ltb_spec i (Z.of_nat len));
    simpl; try reflexivity; lia.
Qed.

(** A negative index counts from the end. *)
Lemma py_index_wrap len i :
  (0 <= i < Z.of_nat len)%Z -> py_index len (i - Z.of_nat len) = py_index len i.
Proof.
  intros Hin. rewrite (@py_index_nonnegative len i Hin). unfold py_index.
  destruct (Z.leb_spec 0 (i - Z.of_nat len)); [lia|].
  destruct (Z.ltb_spec (i - Z.of_nat len) 0); [|lia].
  destruct (Z.leb_spec (- Z.of_nat len) (i - Z.of_nat len)); [|lia].
  simpl. do 2 f_equal. lia.
Qed.

(** X13.  [predict(Xnew, i)] with i outside -L .. L-1, L the number of
    kernels, raises IndexError at [self.kern[i]]: no kernel is evaluated,
    nothing is logged, the model is as before. *)
Theorem predict_index_out_of_range
    (E : Externals) (w : World) (Xnew : ndarray) (i : Z) :
  (i < - Z.of_nat (length (self_kern (self w)))
   \/ Z.of_nat (length (self_kern (self w))) <= i)%Z ->
  predict Xnew i w = (Err IndexError, w).
Proof.
  intros Hout. unfold predict, bind, get_self, lift, getitem. simpl.
  rewrite (@py_index_out_of_range _ i Hout). reflexivity.
Qed.

Lemma predict_index_out_of_range_witness :
  predict Xnew_one 2 Example.w_two = (Err IndexError, Example.w_two).
Proof.
  apply (@predict_index_out_of_range Small.externals Example.w_two Xnew_one 2).
  simpl. lia.
Defined.

(** X14.  With one kernel per column of phi, [predict(Xnew, i - L)] for
    0 <= i < L is [predict(Xnew, i)]: same result, same log. *)
Theorem predict_negative_index
    (E : Externals) (w : World) (Xnew : ndarray) (i : Z) :
  let L := length (self_kern (self w)) in
  L = ncols (self_phi (self w)) ->
  (0 <= i < Z.of_nat L)%Z ->
  predict Xnew (i - Z.of_nat L) w = predict Xnew i w.
Proof.
  intros L Hmatch Hin. unfold predict, bind, get_self, lift, getitem. simpl.
  fold L. rewrite <- Hmatch. rewrite (@py_index_wrap L i Hin). reflexivity.
Qed.

Lemma predict_negative_index_witness :
  predict Xnew_one (1 - 2) Example.w_two = predict Xnew_one 1 Example.w_two.
Proof.
  apply (@predict_negative_index Small.externals Example.w_two Xnew_one 1).
  - reflexivity.
  - simpl. lia.
Defined.

(** X16.  [predict] and [predict_components] only read the model: whatever
    they return or raise, the model is afterwards what it was before. *)
Theorem predict_leaves_model_unchanged
    (E : Externals) (w : World) (Xnew : ndarray) (i : Z) :
  self (snd (predict Xnew i w)) = self w /\
  self (snd (predict_components Xnew w)) = self w.
Proof.
  split.
  - apply (@predict_reads E (self w) Xnew i w eq_refl).
  - apply (@predict_components_reads E (self w) Xnew w eq_refl).
Qed.

(** X17.  Without kernels [predict_components(Xnew)] raises IndexError when
    it indexes the empty stack of means; nothing is logged. *)
Theorem predict_components_without_kernels
    (E : Externals) (w : World) (Xnew : ndarray) :
  self_kern (self w) = [] ->
  predict_components Xnew w = (Err IndexError, w).
Proof.
  intros Hk. unfold predict_components, bind, get_self. simpl.
  rewrite Hk. reflexivity.
Qed.

Lemma predict_components_without_kernels_witness :
  predict_components Xnew_one Example.w_no_kernel
  = (Err IndexError, Example.w_no_kernel).
Proof.
  apply (@predict_components_without_kernels Small.externals
           Example.w_no_kernel Xnew_one).
  reflexivity.
Defined.

(** Both components of the example, predicted at one new input. *)
Section PredictTwo.

Import Small Example.

Definition two_predict_system (k : nat) : ndarray :=
  madd K_one (B_inv_unfloored_doc two_components k).

Definition two_mean (k : nat) : ndarray :=
  matmul (transpose K_one)
         (solve1 (two_predict_system k) (self_Y two_components)).

Definition two_variance (k : nat) : ndarray :=
  mk 1 1 (fun a b =>
            1 + get K_one a b
            - get (matmul (transpose K_one)
                     (solve1 (two_predict_system k) K_one)) a b).

Lemma two_predict_system_pos k :
  (k < 2)%nat -> 0 < get (two_predict_system k) 0 0.
Proof.
  intros Hk. destruct k as [|[|k]]; [cbn; lra | cbn; lra | lia].
Qed.

Lemma two_predict_returns k (w : World) :
  (k < 2)%nat -> self w = two_components ->
  fst (predict Xnew_one (Z.of_nat k) w) = Ok (two_mean k, two_variance k).
Proof.
  intros Hk Hw.
  assert (Hsolve : forall B, nrows B = 1%nat -> wf B ->
            small_solve (two_predict_system k) B
            = Ok (solve1 (two_predict_system k) B)).
  { intros B Hb Hwf. apply small_solve_1; try reflexivity; auto.
    apply Rgt_not_eq, two_predict_system_pos, Hk. }
  assert (Hidx : py_index (length (self_kern two_components)) (Z.of_nat k) = Ok k).
  { rewrite py_index_nonnegative; [now rewrite Nat2Z.id | simpl; lia]. }
  assert (Hkern : nth_error (self_kern two_components) k = Some k1).
  { destruct k as [|[|k]]; [reflexivity | reflexivity | lia]. }
  destruct (spec_returns w
              (@predict_value Small.externals Small.contract two_components
                 Xnew_one (Z.of_nat k) k k1 K_one K_one K_one
                 (solve1 (two_predict_system k) (self_Y two_components))
                 (solve1 (two_predict_system k) K_one)
                 two_variance_pos eq_refl Hidx Hkern
                 (fun n Hn => two_phi_nonzero Hk Hn)
                 eq_refl (conj eq_refl eq_refl) eq_refl eq_refl eq_refl
                 (conj eq_refl eq_refl)
                 (Hsolve (self_Y two_components) eq_refl eq_refl)
                 (Hsolve K_one eq_refl (wf_mk _ _ _)))
              Hw)
    as (r & Hret & ->).
  exact Hret.
Qed.

End PredictTwo.

(** What [np.array(l)[:, :, 0].T] is for a non-empty list of arrays of one
    shape with at least one column. *)
Lemma stack_first_column_ok (l : list ndarray) (a0 : ndarray) (m d : nat) :
  l <> [] ->
  Forall (fun b => nrows b = m /\ ncols b = d) l ->
  (0 < d)%nat ->
  stack_first_column l
  = Ok (mk m (length l) (fun r k => get (nth k l a0) r 0)).
Proof.
  intros Hne Hall Hd. destruct l as [|a l']; [congruence|].
  pose proof (Forall_inv Hall) as [Ha1 Ha2].
  unfold stack_first_column.
  assert (Hshape : forallb (fun b => (nrows b =? nrows a)%nat
                                     && (ncols b =? ncols a)%nat) (a :: l') = true).
  { apply forallb_forall. intros b Hb.
    rewrite Forall_forall in Hall. destruct (Hall b Hb) as [Hb1 Hb2].
    rewrite Ha1, Ha2, Hb1, Hb2, !Nat.eqb_refl. reflexivity. }
  rewrite Hshape.
  assert (Hcol : (0 <? ncols a)%nat = true) by (apply Nat.ltb_lt; lia).
  rewrite Hcol, Ha1. f_equal. apply mk_ext. intros r k _ Hk.
  f_equal. apply nth_indep. exact Hk.
Qed.

Lemma stack_first_column_tabulate (f : nat -> ndarray) (L m d : nat) :
  (0 < L)%nat -> (0 < d)%nat ->
  (forall k, (k < L)%nat -> nrows (f k) = m /\ ncols (f k) = d) ->
  stack_first_column (tabulate L f)
  = Ok (mk m L (fun r k => get (f k) r 0)).
Proof.
  intros HL Hd Hshape.
  rewrite (@stack_first_column_ok (tabulate L f) (f O) m d).
  - rewrite length_tabulate. f_equal. apply mk_ext. intros r k _ Hk.
    f_equal. unfold tabulate. rewrite map_nth, seq_nth; auto.
  - intros Hnil. apply (f_equal (@length _)) in Hnil.
    rewrite length_tabulate in Hnil. simpl in Hnil. lia.
  - apply Forall_forall. intros b Hb. unfold tabulate in Hb.
    apply in_map_iff in Hb. destruct Hb as (k & <- & Hk).
    apply in_seq in Hk. apply Hshape. lia.
  - exact Hd.
Qed.

Section ComponentsValue.

Context {E : Externals}.
Variable s0 : OMGP.
Variable Xnew : ndarray.
Variables mus vas : nat -> ndarray.
Variables m d : nat.

Local Abbreviation L := (length (self_kern s0)).

Hypothesis some_kernel : (0 < L)%nat.
Hypothesis predict_returns :
  forall k, (k < L)%nat -> forall w, self w = s0 ->
    fst (predict Xnew (Z.of_nat k) w) = Ok (mus k, vas k).
Hypothesis mean_shape :
  forall k, (k < L)%nat -> nrows (mus k) = m /\ ncols (mus k) = d.
Hypothesis variance_shape :
  forall k, (k < L)%nat -> nrows (vas k) = m /\ ncols (vas k) = m.
Hypothesis some_output : (0 < d)%nat.
Hypothesis some_input : (0 < m)%nat.

Lemma predict_spec_of_returns k :
  (k < L)%nat ->
  spec any_event no_exn s0 (predict Xnew (Z.of_nat k))
       (fun r => r = (mus k, vas k)).
Proof.
  intros Hk w Hw.
  destruct (@predict_reads E s0 Xnew (Z.of_nat k) w Hw) as (Hs & Htr & _).
  split; [exact Hs | split; [exact Htr|]].
  rewrite (predict_returns Hk w Hw). reflexivity.
Qed.

Lemma predict_components_value :
  spec any_event no_exn s0 (predict_components Xnew)
       (fun r => r = (mk m L (fun a k => get (mus k) a 0),
                      mk m L (fun a k => get (vas k) a 0))).
Proof.
  unfold predict_components.
  eapply spec_bind; [apply spec_get_self|]. intros s ->.
  eapply spec_bind.
  { apply (@spec_foldM E any_event no_exn s0 _ _
             (fun (acc : list ndarray * list ndarray) (i : nat) =>
                let (ms, vs) := acc in
                mv <- predict Xnew (Z.of_nat i) ;;
                ret (ms ++ [fst mv], vs ++ [snd mv]))
             (fun done acc => acc = (map mus done, map vas done))
             (seq 0 L) [] ([], [])).
    - reflexivity.
    - intros done b todo a Heq _ ->.
      assert (Hb : (b < L)%nat).
      { assert (Hin : In b (seq 0 L)).
        { simpl in Heq. rewrite Heq. apply in_or_app. right. now left. }
        apply in_seq in Hin. lia. }
      eapply spec_bind; [apply (predict_spec_of_returns Hb)|].
      intros mv ->. apply spec_ret. simpl. now rewrite !map_app. }
  intros r ->. simpl.
  change (map mus (seq 0 L)) with (tabulate L mus).
  change (map vas (seq 0 L)) with (tabulate L vas).
  rewrite (@stack_first_column_tabulate mus L m d some_kernel some_output mean_shape).
  eapply spec_bind; [apply spec_lift; discriminate|].
  intros ms Hms. injection Hms as <-.
  rewrite (@stack_first_column_tabulate vas L m m some_kernel some_input variance_shape).
  eapply spec_bind; [apply spec_lift; discriminate|].
  intros vs Hvs. injection Hvs as <-.
  apply spec_ret. reflexivity.
Qed.

End ComponentsValue.

(** X18.  When [predict(Xnew, k)] returns a mean mus k (m x d) and a
    variance vas k (m x m) for every component k, with m, d and the number
    of kernels positive, [predict_components(Xnew)] returns two m x L
    arrays: entry (a, k) of the first is mus k [a, 0], entry (a, k) of the
    second is vas k [a, 0], the first column of the predictive covariance
    and not its diagonal. *)
Theorem predict_components_stacks_first_columns
    (E : Externals) (w : World) (Xnew : ndarray)
    (mus vas : nat -> ndarray) (m d : nat) :
  let s := self w in
  let L := length (self_kern s) in
  (0 < L)%nat ->
  (forall k, (k < L)%nat -> forall w', self w' = s ->
     fst (predict Xnew (Z.of_nat k) w') = Ok (mus k, vas k)) ->
  (forall k, (k < L)%nat -> nrows (mus k) = m /\ ncols (mus k) = d) ->
  (forall k, (k < L)%nat -> nrows (vas k) = m /\ ncols (vas k) = m) ->
  (0 < d)%nat -> (0 < m)%nat ->
  fst (predict_components Xnew w)
  = Ok (mk m L (fun a k => get (mus k) a 0),
        mk m L (fun a k => get (vas k) a 0)).
Proof.
  intros s L HL Hret Hms Hvs Hd Hm.
  destruct (spec_returns w
              (@predict_components_value E s Xnew mus vas m d
                 HL Hret Hms Hvs Hd Hm) eq_refl)
    as (r & Hr & ->).
  exact Hr.
Qed.

Lemma predict_components_stacks_first_columns_witness :
  fst (predict_components Xnew_one Example.w_two)
  = Ok (mk 1 2 (fun a k => get (two_mean k) a 0),
        mk 1 2 (fun a k => get (two_variance k) a 0)).
Proof.
  apply (@predict_components_stacks_first_columns Small.externals
           Example.w_two Xnew_one two_mean two_variance 1 1).
  - simpl. lia.
  - intros k Hk w' Hw'. apply two_predict_returns; [exact Hk | exact Hw'].
  - intros k _. split; reflexivity.
  - intros k _. split; reflexivity.
  - lia.
  - lia.
Defined.

(** ** A mismatch that is reported, and where *)

Section ShortPredict.

Import Small Example.

(** What broadcasting makes of K + B_inv in [predict] when X has one row
    and phi has two. *)
Definition predict_system_short : ndarray :=
  mk 2 2 (fun i j => get K_one 0 0 + get (B_inv_unfloored_doc short_X 0) i j).

Lemma predict_system_short_det : 0 < det2 predict_system_short.
Proof. unfold det2. cbn. lra. Qed.

(** On the model whose X has one row for two observations, [predict]
    evaluates both covariances and solves the first system before the
    product kx.T.dot(...) of line 146 rejects the shapes. *)
Lemma predict_rejects_mismatched_X :
  fst (predict Xnew_one 0 w_short) = Err ValueError.
Proof.
  assert (Hspec : spec any_event (fun e => e = ValueError) short_X
                       (predict Xnew_one 0) (fun _ => False)).
  { unfold predict.
    eapply spec_bind; [apply spec_get_self|]. intros s ->.
    eapply spec_bind; [apply spec_lift; discriminate|].
    intros k Hk. injection Hk as <-.
    eapply spec_bind; [apply spec_call; [exact I | discriminate]|].
    intros K HK. injection HK as <-.
    eapply spec_bind; [apply spec_call; [exact I | discriminate]|].
    intros kx Hkx. injection Hkx as <-.
    eapply spec_bind; [apply spec_lift; discriminate|].
    intros c Hc. injection Hc as <-.
    eapply spec_bind.
    { apply spec_no_exn. apply spec_B_inv_unfloored_value.
      - simpl. lra.
      - simpl. lia.
      - simpl. intros n Hn.
        destruct n as [|[|n]]; [cbn; lra | cbn; lra | lia]. }
    intros B ->.
    match goal with
    | |- context [add ?a ?b] => change (add a b) with (Ok predict_system_short)
    end.
    eapply spec_bind; [apply spec_lift; discriminate|].
    intros A HA. injection HA as <-.
    assert (Hsolve : linalg_solve predict_system_short (self_Y short_X)
                     = Ok (solve2 predict_system_short (self_Y short_X))).
    { apply small_solve_2; try reflexivity.
      apply Rgt_not_eq, predict_system_short_det. }
    rewrite Hsolve.
    eapply spec_bind; [apply spec_call; [exact I | discriminate]|].
    intros sy Hsy. injection Hsy as <-.
    match goal with
    | |- context [dot ?a ?b] =>
        change (dot a b) with (@Err ndarray ValueError)
    end.
    eapply spec_bind; [apply spec_lift; intros e He; congruence|].
    intros mu Hmu. discriminate. }
  destruct (Hspec w_short eq_refl) as (_ & _ & Ho).
  destruct (fst (predict Xnew_one 0 w_short)) as [r|e]; simpl in Ho;
    [contradiction | now subst].
Qed.

End ShortPredict.
